(** * dbt.utils: layered configuration resolution

    A shallow embedding of the merge, search, transform and layered-view
    routines of [core/dbt/utils.py], and the properties of them that the
    design document states.

    The file has two levels.

    - Python values as finite trees ([pyval]).  Everything whose result
      depends only on the structure of its arguments is embedded here:
      [deep_merge], [_deep_merge], [deep_merge_item], [fqn_search] and the
      [MultiDict] class.  On trees [copy.deepcopy] is the identity.
    - Python values as references into a store of containers ([Store]).
      What depends on object identity lives here: the fresh containers
      made by [copy.deepcopy], [deep_merge] updating its destination in
      place, and [deep_map] on values that contain themselves.

    The two levels are tied together: [deep_merge] on the store computes
    what [deep_merge] on trees computes, in containers of its own
    ([deep_merge_refines]).

    The other functions of the module that work on plain data are
    embedded after these: [coalesce], [chunks], [merge],
    [filter_null_values], [translate_aliases], [get_profile_from_project],
    the macro names, the pseudo paths, the [memoized] decorator and the
    remaining methods of [MultiDict]. *)

From stdpp Require Import prelude strings gmap.
From Stdlib Require Import ZArith.

Set Warnings "-register-all".
Local Open Scope string_scope.
Local Open Scope list_scope.

(** ** Exceptions and the error monad *)

(** The exceptions the embedded code can raise.  [RuntimeError] carries
    its message because [deep_map] inspects it; the interpreter's
    stack-exhaustion failure is a [RuntimeError] whose message starts
    with [recursion_msg].  [DbtConfigError] carries the name of the type
    it complains about.  [SystemError] is what reading an address
    outside the store gives: no Python program can do that, and the
    constructor only keeps the functions on stores total. *)
Inductive exn : Type :=
| AttributeError
| TypeError
| KeyError (name : string)
| RuntimeError (msg : string)
| DbtConfigError (got : string)
| RecursionException (msg : string)
| SystemError.

Inductive result (A : Type) : Type :=
| Ok (a : A)
| Raise (e : exn).
Arguments Ok {A} a.
Arguments Raise {A} e.

Definition bind {A B : Type} (m : result A) (k : A -> result B) : result B :=
  match m with
  | Ok a => k a
  | Raise e => Raise e
  end.

Notation "x <- m ;; k" := (bind m (fun x => k))
  (at level 100, m at next level, right associativity).

Definition recursion_msg : string := "maximum recursion depth exceeded".

(** ** Python values as trees *)

(** The Scalars of the design document, which are [_deep_map]'s
    [atomic_types].  A float is carried as its IEEE-754 bit pattern: the
    code under study does no arithmetic on it. *)
Inductive scalar : Type :=
| SNone
| SBool (b : bool)
| SInt (n : Z)
| SFloat (bits : Z)
| SStr (s : string).

(** A dict is its list of items in insertion order, as [dict.items()]
    enumerates them; keys are text and distinct. *)
Inductive pyval : Type :=
| VAtom (a : scalar)
| VList (elems : list pyval)
| VTuple (elems : list pyval)
| VDict (items : list (string * pyval)).

Abbreviation VNone := (VAtom SNone).
Abbreviation VBool b := (VAtom (SBool b)).
Abbreviation VInt n := (VAtom (SInt n)).
Abbreviation VFloat bits := (VAtom (SFloat bits)).
Abbreviation VStr s := (VAtom (SStr s)).

Abbreviation items_t := (list (string * pyval)).

Definition is_dict (v : pyval) : bool :=
  match v with VDict _ => true | _ => false end.

Definition is_none (v : pyval) : bool :=
  match v with VNone => true | _ => false end.

Definition is_scalar (v : pyval) : bool :=
  match v with VAtom _ => true | _ => false end.

(** [d.get(key)], as an option; the dict is any list of items. *)
Fixpoint dict_get {V : Type} (key : string) (d : list (string * V)) : option V :=
  match d with
  | [] => None
  | (k, v) :: rest => if String.eqb k key then Some v else dict_get key rest
  end.

(** [key in d] *)
Definition dict_contains {V : Type} (key : string) (d : list (string * V)) : bool :=
  match dict_get key d with Some _ => true | None => false end.

(** [d[key] = v]: an existing key keeps its position, a new one goes last. *)
Fixpoint dict_set {V : Type} (key : string) (v : V) (d : list (string * V))
  : list (string * V) :=
  match d with
  | [] => [(key, v)]
  | (k, w) :: rest =>
      if String.eqb k key then (k, v) :: rest else (k, w) :: dict_set key v rest
  end.

Definition keys {V : Type} (d : list (string * V)) : list string := map fst d.

(** [list(s)] for a string [s]: its characters, each a string. *)
Definition chars (s : string) : list string :=
  map (fun c => String c EmptyString) (String.list_ascii_of_string s).

(** The well-formed Trees of the design document: scalars, lists, and
    dicts with distinct keys, all the way down. *)
Fixpoint well_formed (v : pyval) : bool :=
  match v with
  | VAtom _ => true
  | VList xs => forallb well_formed xs
  | VTuple _ => false
  | VDict d =>
      bool_decide (NoDup (keys d)) && forallb (fun kv => well_formed (snd kv)) d
  end.

(** Nesting depth: a scalar has depth 0. *)
Fixpoint depth (v : pyval) : nat :=
  match v with
  | VAtom _ => 0
  | VList xs | VTuple xs => S (max_list (map depth xs))
  | VDict d => S (max_list (map (fun kv => depth (snd kv)) d))
  end.

Section PyvalInd.
Variable P : pyval -> Prop.
Hypothesis HAtom : forall a, P (VAtom a).
Hypothesis HList : forall xs, Forall P xs -> P (VList xs).
Hypothesis HTuple : forall xs, Forall P xs -> P (VTuple xs).
Hypothesis HDict : forall d, Forall (fun kv => P (snd kv)) d -> P (VDict d).

(** Induction on trees, with the hypothesis for every element. *)
Fixpoint pyval_nested_ind (v : pyval) : P v :=
  match v with
  | VAtom a => HAtom a
  | VList xs =>
      HList xs ((fix go (l : list pyval) : Forall P l :=
                   match l with
                   | [] => Forall_nil_2 P
                   | x :: l' => Forall_cons_2 P x l' (pyval_nested_ind x) (go l')
                   end) xs)
  | VTuple xs =>
      HTuple xs ((fix go (l : list pyval) : Forall P l :=
                    match l with
                    | [] => Forall_nil_2 P
                    | x :: l' => Forall_cons_2 P x l' (pyval_nested_ind x) (go l')
                    end) xs)
  | VDict d =>
      HDict d ((fix go (l : items_t) : Forall (fun kv => P (snd kv)) l :=
                  match l with
                  | [] => Forall_nil_2 _
                  | kv :: l' =>
                      Forall_cons_2 (fun kv => P (snd kv)) kv l'
                                    (pyval_nested_ind (snd kv)) (go l')
                  end) d)
  end.
End PyvalInd.

(** ** StructuralMerge: [deep_merge] *)

(** [copy.deepcopy(x)].  A tree has no identity, so its copy is the tree
    itself; [Store.deepcopy] is the copy on the store. *)
Definition deepcopy (x : pyval) : pyval := x.

(** [list(x)]: the elements of a list or tuple, the keys of a dict, the
    characters of a string; anything else is not iterable. *)
Definition py_list (x : pyval) : result (list pyval) :=
  match x with
  | VList xs | VTuple xs => Ok xs
  | VDict d => Ok (map (fun kv => VStr (fst kv)) d)
  | VStr s => Ok (map (fun c => VStr c) (chars s))
  | _ => Raise TypeError
  end.

Section MergeItem.
(** [deep_merge(node, value)], the call [deep_merge_item] makes back into
    [deep_merge]. *)
Variable deep_merge2 : pyval -> pyval -> result pyval.

(** [deep_merge_item(destination, key, value)] updates [destination] in
    place; here it returns the updated [destination].  A destination
    that is not a dict has no [setdefault] (AttributeError), and neither
    [key in destination] followed by [destination[key]] nor the
    assignment [destination[key] = value] works with a text key
    (TypeError). *)
Definition deep_merge_item (destination : pyval) (key : string) (value : pyval)
  : result pyval :=
  match value with
  | VDict _ =>
      match destination with
      | VDict d =>
          let d1 := if dict_contains key d then d else dict_set key (VDict []) d in
          let node := default (VDict []) (dict_get key d) in
          merged <- deep_merge2 node value ;;
          Ok (VDict (dict_set key merged d1))
      | _ => Raise AttributeError
      end
  | VList xs | VTuple xs =>
      match destination with
      | VDict d =>
          match dict_get key d with
          | Some old =>
              ys <- py_list old ;;
              Ok (VDict (dict_set key (VList (xs ++ ys)) d))
          | None => Ok (VDict (dict_set key value d))
          end
      | _ => Raise TypeError
      end
  | VAtom _ =>
      match destination with
      | VDict d => Ok (VDict (dict_set key value d))
      | _ => Raise TypeError
      end
  end.

(** The loop [for key, value in source.items(): deep_merge_item(...)]. *)
Fixpoint merge_items (destination : pyval) (items : items_t) : result pyval :=
  match items with
  | [] => Ok destination
  | (key, value) :: rest =>
      destination' <- deep_merge_item destination key value ;;
      merge_items destination' rest
  end.
End MergeItem.

(** [_deep_merge(destination, source)].  A [source] that is not a dict
    falls off the end of the function: the result is [None].  The inner
    call [deep_merge(node, value)] is written as what it unfolds to,
    [_deep_merge(deepcopy(node), deepcopy(value))]; [deep_merge_pair]
    below shows the two agree. *)
Fixpoint _deep_merge (destination source : pyval) {struct source} : result pyval :=
  match source with
  | VDict items =>
      merge_items (fun node value => _deep_merge (deepcopy node) (deepcopy value))
                  destination items
  | _ => Ok VNone
  end.

(** [deep_merge] on its argument list reversed, so that
    [lst.pop(len(lst) - 1)] is the head. *)
Fixpoint deep_merge_rev (rargs : list pyval) : result pyval :=
  match rargs with
  | [] => Ok VNone
  | [x] => Ok (deepcopy x)
  | last :: rlst =>
      let last := deepcopy last in
      destination <- deep_merge_rev rlst ;;
      _deep_merge destination last
  end.

Definition deep_merge (args : list pyval) : result pyval :=
  deep_merge_rev (rev args).

(** The errors a merge can raise. *)
Definition merge_error (e : exn) : Prop :=
  e = AttributeError \/ e = TypeError.

(** ** HierarchicalLookup: [fqn_search] *)

(** [root.get(level, None)]: only a dict has [get]. *)
Definition py_get (root : pyval) (level : string) : result pyval :=
  match root with
  | VDict d => Ok (default VNone (dict_get level d))
  | _ => Raise AttributeError
  end.

(** How a generator ends: it returns, or an exception escapes it. *)
Inductive ending : Type :=
| Returned
| Raised (e : exn).

(** The [for level in fqn] loop of [fqn_search]: the values it yields, in
    order, and how it ends. *)
Fixpoint fqn_levels (root : pyval) (fqn : list string) : list pyval * ending :=
  match fqn with
  | [] => ([], Returned)
  | level :: rest =>
      match py_get root level with
      | Raise e => ([], Raised e)
      | Ok level_config =>
          if is_none level_config then ([], Returned)
          else
            let (ys, e) := fqn_levels level_config rest in
            (deepcopy level_config :: ys, e)
      end
  end.

(** [fqn_search(root, fqn)], drained: [yield root], then the loop. *)
Definition fqn_search (root : pyval) (fqn : list string) : list pyval * ending :=
  let (ys, e) := fqn_levels root fqn in (root :: ys, e).

(** ** LayeredView: [MultiDict] *)

Record MultiDict : Type := { sources : list items_t }.

(** [MultiDict(sources)] *)
Definition MultiDict_init (srcs : option (list items_t)) : MultiDict :=
  match srcs with
  | None => {| sources := [] |}
  | Some l => {| sources := l |}
  end.

Definition add_from (self : MultiDict) (srcs : list items_t) : MultiDict :=
  {| sources := sources self ++ srcs |}.

Definition add (self : MultiDict) (source : items_t) : MultiDict :=
  {| sources := sources self ++ [source] |}.

Definition _itersource (self : MultiDict) : list items_t :=
  rev (sources self).

(** The loop of [__getitem__] over the entries still to be scanned. *)
Fixpoint getitem_scan (entries : list items_t) (name : string) : result pyval :=
  match entries with
  | [] => Raise (KeyError name)
  | entry :: rest =>
      match dict_get name entry with
      | Some v => Ok v
      | None => getitem_scan rest name
      end
  end.

Definition __getitem__ (self : MultiDict) (name : string) : result pyval :=
  getitem_scan (_itersource self) name.

Definition __contains__ (self : MultiDict) (name : string) : bool :=
  existsb (dict_contains name) (_itersource self).

(** ** Python values in a store *)

Module Store.

Abbreviation loc := nat.

(** A reference to a Python value.  A scalar is immutable and is carried
    by value; a container is known by its address. *)
Inductive ref : Type :=
| RAtom (a : scalar)
| RObj (l : loc).

(** The objects a store holds: lists, tuples, dicts (items in insertion
    order, keys distinct), and objects of any other class, of which only
    the class name is kept. *)
Inductive obj : Type :=
| OList (elems : list ref)
| OTuple (elems : list ref)
| ODict (items : list (string * ref))
| OOther (tyname : string).

(** The address of an object is its index; a new object goes last. *)
Abbreviation store := (list obj).

#[global] Instance scalar_eq_dec : EqDecision scalar.
Proof. solve_decision. Defined.

#[global] Instance ref_eq_dec : EqDecision ref.
Proof. solve_decision. Defined.

(** *** Computations on the store that may raise *)

Definition M (A : Type) : Type := store -> result (A * store).

Definition ret {A : Type} (a : A) : M A := fun st => Ok (a, st).

Definition raise {A : Type} (e : exn) : M A := fun _ => Raise e.

Definition bindM {A B : Type} (m : M A) (k : A -> M B) : M B :=
  fun st =>
    match m st with
    | Ok (a, st') => k a st'
    | Raise e => Raise e
    end.

Notation "x <~ m ;; k" := (bindM m (fun x => k))
  (at level 100, m at next level, right associativity).

Definition alloc (o : obj) : M loc := fun st => Ok (length st, st ++ [o]).

Definition load (l : loc) : M obj :=
  fun st =>
    match st !! l with
    | Some o => Ok (o, st)
    | None => Raise SystemError
    end.

Definition write (l : loc) (o : obj) : M unit := fun st => Ok (tt, <[l := o]> st).

(** The object behind a reference, if it is one. *)
Definition deref (x : ref) : M (option obj) :=
  match x with
  | RAtom _ => ret None
  | RObj l => o <~ load l ;; ret (Some o)
  end.

(** [y.append(a)] on the list at [y] *)
Definition append (y : loc) (a : ref) : M unit :=
  o <~ load y ;;
  match o with
  | OList ys => write y (OList (ys ++ [a]))
  | _ => raise AttributeError
  end.

(** [y[key] = v] with a text key: only a dict takes it. *)
Definition setitem (y : ref) (key : string) (v : ref) : M unit :=
  match y with
  | RAtom _ => raise TypeError
  | RObj l =>
      o <~ load l ;;
      match o with
      | ODict items => write l (ODict (dict_set key v items))
      | _ => raise TypeError
      end
  end.

(** *** [copy.deepcopy] *)

(** The memo of one [deepcopy] pass: the copy already made of each
    container, by address. *)
Abbreviation memo_t := (gmap loc loc).

Section Copy.
(** [deepcopy(a, memo)], the recursive call. *)
Variable deepcopy_rec : ref -> memo_t -> M (ref * memo_t).

(** [for a in x: y.append(deepcopy(a, memo))] *)
Fixpoint copy_into_list (y : loc) (elems : list ref) (memo : memo_t) : M memo_t :=
  match elems with
  | [] => ret memo
  | a :: rest =>
      am <~ deepcopy_rec a memo ;;
      _ <~ append y (fst am) ;;
      copy_into_list y rest (snd am)
  end.

(** [for key, value in x.items(): y[deepcopy(key, memo)] = deepcopy(value, memo)];
    a key is text, which [deepcopy] returns as it is. *)
Fixpoint copy_into_dict (y : loc) (items : list (string * ref)) (memo : memo_t)
  : M memo_t :=
  match items with
  | [] => ret memo
  | (key, value) :: rest =>
      vm <~ deepcopy_rec value memo ;;
      _ <~ setitem (RObj y) key (fst vm) ;;
      copy_into_dict y rest (snd vm)
  end.

(** [[deepcopy(a, memo) for a in x]] *)
Fixpoint copy_elems (elems : list ref) (memo : memo_t) : M (list ref * memo_t) :=
  match elems with
  | [] => ret ([], memo)
  | a :: rest =>
      am <~ deepcopy_rec a memo ;;
      ym <~ copy_elems rest (snd am) ;;
      ret (fst am :: fst ym, snd ym)
  end.
End Copy.

(** [copy.deepcopy(x, memo)] of the Python library, with [fuel] calls of
    recursion depth left.  A scalar is its own copy.  A container met
    before is answered from the memo.  A list or dict is created empty,
    entered in the memo, then filled.  A tuple is rebuilt from the
    copies of its elements unless they are all the elements themselves.
    An object of another class is rebuilt as a new object of that
    class. *)
Fixpoint deepcopy_memo (fuel : nat) (x : ref) (memo : memo_t) {struct fuel}
  : M (ref * memo_t) :=
  match fuel with
  | 0 => raise (RuntimeError recursion_msg)
  | S fuel' =>
      match x with
      | RAtom _ => ret (x, memo)
      | RObj l =>
          match memo !! l with
          | Some y => ret (RObj y, memo)
          | None =>
              o <~ load l ;;
              match o with
              | OList elems =>
                  y <~ alloc (OList []) ;;
                  memo' <~ copy_into_list (deepcopy_memo fuel') y elems (<[l := y]> memo) ;;
                  ret (RObj y, memo')
              | ODict items =>
                  y <~ alloc (ODict []) ;;
                  memo' <~ copy_into_dict (deepcopy_memo fuel') y items (<[l := y]> memo) ;;
                  ret (RObj y, memo')
              | OTuple elems =>
                  ym <~ copy_elems (deepcopy_memo fuel') elems memo ;;
                  match snd ym !! l with
                  | Some y => ret (RObj y, snd ym)
                  | None =>
                      if decide (fst ym = elems) then ret (x, snd ym)
                      else
                        y <~ alloc (OTuple (fst ym)) ;;
                        ret (RObj y, <[l := y]> (snd ym))
                  end
              | OOther tyname =>
                  y <~ alloc (OOther tyname) ;;
                  ret (RObj y, <[l := y]> memo)
              end
          end
      end
  end.

(** [copy.deepcopy(x)] *)
Definition deepcopy (fuel : nat) (x : ref) : M ref :=
  ym <~ deepcopy_memo fuel x ∅ ;; ret (fst ym).

(** *** [deep_merge] on the store *)

(** The elements [list(x)] enumerates. *)
Definition py_list (x : ref) : M (list ref) :=
  match x with
  | RAtom (SStr s) => ret (map (fun c => RAtom (SStr c)) (chars s))
  | RAtom _ => raise TypeError
  | RObj l =>
      o <~ load l ;;
      match o with
      | OList xs | OTuple xs => ret xs
      | ODict items => ret (map (fun kv => RAtom (SStr (fst kv))) items)
      | OOther _ => raise TypeError
      end
  end.

Section Merge.
(** [deep_merge(node, value)], the recursive call. *)
Variable deep_merge_rec : list ref -> M ref.

(** [deep_merge_item(destination, key, value)]; the destination is
    updated in place. *)
Definition deep_merge_item (destination : ref) (key : string) (value : ref) : M unit :=
  v <~ deref value ;;
  d <~ deref destination ;;
  match v with
  | Some (ODict _) =>
      match d with
      | Some (ODict items) =>
          node <~ match dict_get key items with
                  | Some n => ret n
                  | None =>
                      n <~ alloc (ODict []) ;;
                      _ <~ setitem destination key (RObj n) ;;
                      ret (RObj n)
                  end ;;
          merged <~ deep_merge_rec [node; value] ;;
          setitem destination key merged
      | _ => raise AttributeError
      end
  | Some (OList xs) | Some (OTuple xs) =>
      match d with
      | Some (ODict items) =>
          match dict_get key items with
          | Some old =>
              ys <~ py_list old ;;
              n <~ alloc (OList (xs ++ ys)) ;;
              setitem destination key (RObj n)
          | None => setitem destination key value
          end
      | _ => raise TypeError
      end
  | _ =>
      match d with
      | Some (ODict _) => setitem destination key value
      | _ => raise TypeError
      end
  end.

(** [for key, value in source.items(): deep_merge_item(destination, key, value)] *)
Fixpoint merge_items (destination : ref) (items : list (string * ref)) : M unit :=
  match items with
  | [] => ret tt
  | (key, value) :: rest =>
      _ <~ deep_merge_item destination key value ;;
      merge_items destination rest
  end.

(** [_deep_merge(destination, source)] *)
Definition _deep_merge (destination source : ref) : M ref :=
  s <~ deref source ;;
  match s with
  | Some (ODict items) =>
      _ <~ merge_items destination items ;;
      ret destination
  | _ => ret (RAtom SNone)
  end.
End Merge.

(** [deep_merge] on its argument list reversed, with [fuel] calls of
    recursion depth left. *)
Fixpoint deep_merge_rev (fuel : nat) (rargs : list ref) {struct fuel} : M ref :=
  match fuel with
  | 0 => raise (RuntimeError recursion_msg)
  | S fuel' =>
      match rargs with
      | [] => ret (RAtom SNone)
      | [x] => deepcopy fuel' x
      | last :: rlst =>
          last' <~ deepcopy fuel' last ;;
          destination <~ deep_merge_rev fuel' rlst ;;
          _deep_merge (fun args => deep_merge_rev fuel' (rev args)) destination last'
      end
  end.

Definition deep_merge (fuel : nat) (args : list ref) : M ref :=
  deep_merge_rev fuel (rev args).

(** *** KeypathTransform: [deep_map] *)

(** A keypath segment: a dict key, stringified, or a list index. *)
Inductive seg : Type :=
| Key (k : string)
| Idx (i : nat).

Abbreviation keypath_t := (list seg).

Section Map.
(** [_deep_map(func, v, keypath)], the recursive call. *)
Variable deep_map_rec : ref -> keypath_t -> result pyval.

(** [[_deep_map(func, v, keypath + (idx,)) for idx, v in enumerate(value)]],
    from index [idx] on. *)
Fixpoint map_elems (idx : nat) (elems : list ref) (keypath : keypath_t)
  : result (list pyval) :=
  match elems with
  | [] => Ok []
  | v :: rest =>
      r <- deep_map_rec v (keypath ++ [Idx idx]) ;;
      rs <- map_elems (S idx) rest keypath ;;
      Ok (r :: rs)
  end.

(** [{k: _deep_map(func, v, keypath + (str(k),)) for k, v in value.items()}] *)
Fixpoint map_items (items : list (string * ref)) (keypath : keypath_t)
  : result items_t :=
  match items with
  | [] => Ok []
  | (k, v) :: rest =>
      r <- deep_map_rec v (keypath ++ [Key k]) ;;
      rs <- map_items rest keypath ;;
      Ok ((k, r) :: rs)
  end.
End Map.

(** [_deep_map(func, value, keypath)] with [fuel] calls of recursion
    depth left; entering a call with none left is the interpreter's
    stack-exhaustion failure.  The value is read from the store.  The
    result is made of new lists and dicts and of what [func] returns,
    and is given as a tree.  A value that is no list, dict or scalar
    raises DbtConfigError. *)
Fixpoint _deep_map (fuel : nat) (func : scalar -> keypath_t -> result pyval)
    (st : store) (value : ref) (keypath : keypath_t) {struct fuel} : result pyval :=
  match fuel with
  | 0 => Raise (RuntimeError recursion_msg)
  | S fuel' =>
      match value with
      | RAtom a => func a keypath
      | RObj l =>
          match st !! l with
          | Some (OList elems) =>
              ret <- map_elems (_deep_map fuel' func st) 0 elems keypath ;;
              Ok (VList ret)
          | Some (ODict items) =>
              ret <- map_items (_deep_map fuel' func st) items keypath ;;
              Ok (VDict ret)
          | Some (OTuple _) => Raise (DbtConfigError "tuple")
          | Some (OOther tyname) => Raise (DbtConfigError tyname)
          | None => Raise SystemError
          end
      end
  end.

(** ['maximum recursion depth exceeded' in str(exc)] *)
Definition mentions_recursion (msg : string) : bool :=
  match String.index 0 recursion_msg msg with
  | Some _ => true
  | None => false
  end.

(** [deep_map(func, value)], run with a recursion limit of [limit].  A
    RuntimeError that mentions the recursion depth becomes a
    RecursionException; any other exception passes.  (Whether or not
    DbtConfigError derives from RuntimeError, its message does not
    mention the recursion depth, so it passes.) *)
Definition deep_map (limit : nat) (func : scalar -> keypath_t -> result pyval)
    (st : store) (value : ref) : result pyval :=
  match _deep_map limit func st value [] with
  | Raise (RuntimeError msg) =>
      if mentions_recursion msg
      then Raise (RecursionException "Cycle detected in deep_map")
      else Raise (RuntimeError msg)
  | r => r
  end.

(** *** Reading a store *)

(** [tree_in D st r t]: read from [r] in [st], the value is the tree
    [t], and every container visited on the way has its address in
    [D]. *)
Inductive tree_in (D : loc -> Prop) (st : store) : ref -> pyval -> Prop :=
| tree_atom a : tree_in D st (RAtom a) (VAtom a)
| tree_list l rs ts :
    D l -> st !! l = Some (OList rs) ->
    Forall2 (tree_in D st) rs ts ->
    tree_in D st (RObj l) (VList ts)
| tree_tuple l rs ts :
    D l -> st !! l = Some (OTuple rs) ->
    Forall2 (tree_in D st) rs ts ->
    tree_in D st (RObj l) (VTuple ts)
| tree_dict l items titems :
    D l -> st !! l = Some (ODict items) ->
    Forall2 (fun kr kt => fst kr = fst kt /\ tree_in D st (snd kr) (snd kt))
            items titems ->
    tree_in D st (RObj l) (VDict titems).

Definition tree_of : store -> ref -> pyval -> Prop := tree_in (fun _ => True).

(** The references an object holds. *)
Definition children (o : obj) : list ref :=
  match o with
  | OList rs | OTuple rs => rs
  | ODict items => map snd items
  | OOther _ => []
  end.

(** [edge st l l']: the container at [l] holds a reference to the
    container at [l']. *)
Definition edge (st : store) (l l' : loc) : Prop :=
  exists o, st !! l = Some o /\ RObj l' ∈ children o.

(** A reference cycle can be reached from [l]: some container reachable
    from it contains itself, directly or transitively. *)
Definition has_cycle (st : store) (l : loc) : Prop :=
  exists c, rtc (edge st) l c /\ tc (edge st) c c.

(** Everything reachable from [l] is a list or a dict. *)
Definition lists_and_dicts (st : store) (l : loc) : Prop :=
  forall l', rtc (edge st) l l' ->
    exists o, st !! l' = Some o /\
      match o with OList _ | ODict _ => True | _ => False end.

End Store.

(** ** The design document's wording of the transform, for comparison *)

(** The tree of identical shape in which every Scalar leaf [v] at
    keypath [p] is replaced by [fn v p].  [idx] is the index of the
    first element of a list of elements. *)
Fixpoint tree_map (fn : scalar -> Store.keypath_t -> scalar) (p : Store.keypath_t)
    (t : pyval) : pyval :=
  match t with
  | VAtom a => VAtom (fn a p)
  | VList ts =>
      VList ((fix go (idx : nat) (ts : list pyval) : list pyval :=
                match ts with
                | [] => []
                | t :: ts' => tree_map fn (p ++ [Store.Idx idx]) t :: go (S idx) ts'
                end) 0 ts)
  | VTuple ts => VTuple ts
  | VDict d =>
      VDict ((fix go (d : items_t) : items_t :=
                match d with
                | [] => []
                | (k, t) :: d' => (k, tree_map fn (p ++ [Store.Key k]) t) :: go d'
                end) d)
  end.

(** The shape of a tree: the tree with every scalar blanked. *)
Fixpoint shape (t : pyval) : pyval :=
  match t with
  | VAtom _ => VNone
  | VList ts => VList (map shape ts)
  | VTuple ts => VTuple (map shape ts)
  | VDict d => VDict (map (fun kv => (fst kv, shape (snd kv))) d)
  end.

(** The Scalar found by following a keypath from the root, if any. *)
Fixpoint leaf_at (t : pyval) (p : Store.keypath_t) : option scalar :=
  match p with
  | [] => match t with VAtom a => Some a | _ => None end
  | Store.Key k :: p' =>
      match t with
      | VDict d => match dict_get k d with Some t' => leaf_at t' p' | None => None end
      | _ => None
      end
  | Store.Idx i :: p' =>
      match t with
      | VList ts => match ts !! i with Some t' => leaf_at t' p' | None => None end
      | _ => None
      end
  end.

(** ** The state of a copying pass *)

(** Everything in [st] is still in [st'], unchanged. *)
Definition store_grows (st st' : Store.store) : Prop :=
  forall l o, st !! l = Some o -> st' !! l = Some o.

(** The containers a finished copy is made of: allocated during the pass
    (at [n0] or later) and not among the ones still being filled. *)
Definition copied (n0 : nat) (busy : list Store.loc) (l : Store.loc) : Prop :=
  n0 <= l /\ l ∉ busy.

(** The invariant of a [deepcopy] pass that started in store [st0], while
    the copies at the addresses [busy] are being filled: the given store
    is untouched; the memo maps into the new part of the store; and every
    copy in the memo that is not busy reads the same tree as its
    original, from copied containers only. *)
Record copy_inv (st0 : Store.store) (busy : list Store.loc)
    (st : Store.store) (memo : Store.memo_t) : Prop := {
  inv_prefix : st0 `prefix_of` st;
  inv_busy : Forall (fun b => length st0 <= b < length st) busy;
  inv_range : forall l y, memo !! l = Some y -> length st0 <= y < length st;
  inv_done : forall l y t,
    memo !! l = Some y -> y ∉ busy -> Store.tree_of st0 (Store.RObj l) t ->
    Store.tree_in (copied (length st0) busy) st (Store.RObj y) t;
}.

(** The originals of the busy copies are all deeper than [d]: the pass
    is inside them. *)
Definition busy_deeper (st0 : Store.store) (busy : list Store.loc)
    (memo : Store.memo_t) (d : nat) : Prop :=
  forall l y t, memo !! l = Some y -> y ∈ busy ->
                Store.tree_of st0 (Store.RObj l) t -> d < depth t.

(** What a call [deepcopy(x, memo)] on a value that reads [t] ends with. *)
Definition copy_post (st0 : Store.store) (busy : list Store.loc)
    (st : Store.store) (memo : Store.memo_t) (t : pyval)
    (res : result ((Store.ref * Store.memo_t) * Store.store)) : Prop :=
  exists y st' memo',
    res = Ok ((y, memo'), st')
    /\ copy_inv st0 busy st' memo'
    /\ store_grows st st'
    /\ (forall l y', memo' !! l = Some y' -> y' ∈ busy -> memo !! l = Some y')
    /\ Store.tree_in (copied (length st0) busy) st' y t.

Definition copies_ok (st0 : Store.store) (busy : list Store.loc)
    (rec : Store.ref -> Store.memo_t -> Store.M (Store.ref * Store.memo_t))
    (t : pyval) : Prop :=
  forall x st memo,
    Store.tree_of st0 x t -> copy_inv st0 busy st memo ->
    busy_deeper st0 busy memo (depth t) ->
    copy_post st0 busy st memo t (rec x memo st).

(** ** The design document's wording of the search, for comparison *)

(** The descent as the design document words it: at each segment [s], if
    the current level is a Mapping containing key [s], emit the value
    stored there and continue with it; otherwise stop. *)
Fixpoint spec_levels (cur : pyval) (fqn : list string) : list pyval :=
  match fqn with
  | [] => []
  | s :: rest =>
      match cur with
      | VDict d =>
          match dict_get s d with
          | Some v => v :: spec_levels v rest
          | None => []
          end
      | _ => []
      end
  end.

Definition spec_search (root : pyval) (fqn : list string) : list pyval :=
  root :: spec_levels root fqn.

(** The same descent, except that a null stored at the segment also
    stops it. *)
Fixpoint nonnull_levels (cur : pyval) (fqn : list string) : list pyval :=
  match fqn with
  | [] => []
  | s :: rest =>
      match cur with
      | VDict d =>
          match dict_get s d with
          | Some v => if is_none v then [] else v :: nonnull_levels v rest
          | None => []
          end
      | _ => []
      end
  end.

(** The level reached from [root] after every segment of [path] was
    found with a non-null value. *)
Fixpoint level_at (root : pyval) (path : list string) : option pyval :=
  match path with
  | [] => Some root
  | s :: rest =>
      match root with
      | VDict d =>
          match dict_get s d with
          | Some v => if is_none v then None else level_at v rest
          | None => None
          end
      | _ => None
      end
  end.

(** ** The merge on the store against the merge on trees *)

(** A run [res] of a merge from the store [st] agrees with the outcome
    [tres] of the merge on trees: the same exception, or a value that reads
    the merged tree from containers allocated by the run, with every
    container of [st] left as it was. *)
Definition merge_ok (st : Store.store) (res : result (Store.ref * Store.store))
    (tres : result pyval) : Prop :=
  match tres with
  | Ok t =>
      exists y st',
        res = Ok (y, st') /\ store_grows st st'
        /\ Store.tree_in (fun l => length st <= l) st' y t
  | Raise e => res = Raise e
  end.

(** The recursive call [deep_merge(node, value)] agrees with [f] on the
    trees of its two arguments. *)
Definition rec_ok (rec : list Store.ref -> Store.M Store.ref)
    (f : pyval -> pyval -> result pyval) (node_t value_t : pyval) : Prop :=
  forall st node value,
    Store.tree_of st node node_t -> Store.tree_of st value value_t ->
    merge_ok st (rec [node; value] st) (f node_t value_t).

(** The node a dict item is merged into: what [setdefault] returns. *)
Definition node_for (dest_t : pyval) (key : string) : pyval :=
  match dest_t with
  | VDict d => default (VDict []) (dict_get key d)
  | _ => VDict []
  end.

(** What [deep_merge_item] calls back: [deep_merge] of its arguments. *)
Definition merge_rec (fuel : nat) : list Store.ref -> Store.M Store.ref :=
  fun args => Store.deep_merge_rev fuel (rev args).

(** ** The rest of the module *)

(** The exceptions of the functions below: the ones of [exn], the
    built-in [ValueError], and the two dbt exceptions this part of the
    module raises, with their messages. *)
Inductive exception : Type :=
| Builtin (e : exn)
| ValueError
| InternalException (msg : string)
| AliasException (msg : string).

Inductive outcome (A : Type) : Type :=
| Return (a : A)
| Throw (e : exception).
Arguments Return {A} a.
Arguments Throw {A} e.

(** *** [coalesce] *)

(** The loop [for arg in args: if arg is not None: return arg]. *)
Fixpoint coalesce (args : list pyval) : pyval :=
  match args with
  | [] => VNone
  | arg :: rest => if negb (is_none arg) then arg else coalesce rest
  end.

(** *** [chunks] *)

(** [range(start, stop, step)] on integers, as the list of its elements:
    a zero step is a [ValueError]; the length is computed as the
    interpreter computes it. *)
Definition py_range (start stop step : Z) : outcome (list Z) :=
  if (step =? 0)%Z then Throw ValueError
  else
    let len :=
      if (0 <? step)%Z
      then (if (start <? stop)%Z then (stop - start - 1) / step + 1 else 0)%Z
      else (if (stop <? start)%Z then (start - stop - 1) / (- step) + 1 else 0)%Z in
    Return (map (fun k => (start + Z.of_nat k * step)%Z) (seq 0 (Z.to_nat len))).

(** A slice bound brought into [0 .. len]: a negative bound counts from
    the end. *)
Definition slice_index (len : nat) (i : Z) : nat :=
  if (i <? 0)%Z then Z.to_nat (Z.max 0 (Z.of_nat len + i))
  else Nat.min len (Z.to_nat i).

(** [l[i:j]] *)
Definition py_slice {A : Type} (l : list A) (i j : Z) : list A :=
  let a := slice_index (length l) i in
  let b := slice_index (length l) j in
  take (b - a) (drop a l).

(** [chunks(l, n)], drained: the slices it yields, or the exception of
    [range], which is raised before the first one. *)
Definition chunks {A : Type} (l : list A) (n : Z) : outcome (list (list A)) :=
  match py_range 0 (Z.of_nat (length l)) n with
  | Throw e => Throw e
  | Return idx => Return (map (fun i => py_slice l i (i + n)) idx)
  end.

(** *** [get_profile_from_project] *)

(** [hash(v)] succeeds: scalars, and tuples of hashable values. *)
Fixpoint hashable (v : pyval) : bool :=
  match v with
  | VAtom _ => true
  | VTuple xs => forallb hashable xs
  | VList _ | VDict _ => false
  end.

(** [d.get(key, {})] for a dict [d] with text keys and any [key]: the key
    is hashed first; a key that is not text equals no key of [d]. *)
Definition get_or_empty (d : items_t) (key : pyval) : result pyval :=
  if hashable key then
    match key with
    | VStr s => Ok (default (VDict []) (dict_get s d))
    | _ => Ok (VDict [])
    end
  else Raise TypeError.

(** Values other than dicts have no [get]. *)
Definition get_profile_from_project (project : pyval) : result pyval :=
  match project with
  | VDict p =>
      let target_name := default (VDict []) (dict_get "target" p) in
      match default (VDict []) (dict_get "outputs" p) with
      | VDict outputs => get_or_empty outputs target_name
      | _ => Raise AttributeError
      end
  | _ => Raise AttributeError
  end.

(** *** Macro names *)

Definition MACRO_PREFIX : string := "dbt_macro__".
Definition DOCS_PREFIX : string := "dbt_docs__".

(** A name is text or [None]. *)
Definition get_dbt_macro_name (name : option string) : outcome string :=
  match name with
  | None => Throw (InternalException "Got None for a macro name!")
  | Some name => Return (MACRO_PREFIX +:+ name)
  end.

Definition get_dbt_docs_name (name : option string) : outcome string :=
  match name with
  | None => Throw (InternalException "Got None for a doc name!")
  | Some name => Return (DOCS_PREFIX +:+ name)
  end.

(** What [format] writes for a value that is text or [None]. *)
Definition format_name (name : option string) : string :=
  match name with
  | None => "None"
  | Some s => s
  end.

Definition get_materialization_macro_name (materialization_name : option string)
    (adapter_type : option string) (with_prefix : bool) : outcome string :=
  let adapter_type :=
    match adapter_type with
    | None => Some "default"
    | Some _ => adapter_type
    end in
  let name :=
    "materialization_" +:+ format_name materialization_name +:+ "_"
    +:+ format_name adapter_type in
  if with_prefix then get_dbt_macro_name (Some name) else Return name.

Definition get_docs_macro_name (docs_name : option string) (with_prefix : bool)
  : outcome (option string) :=
  if with_prefix then
    match get_dbt_docs_name docs_name with
    | Return name => Return (Some name)
    | Throw e => Throw e
    end
  else Return docs_name.

(** *** [merge] *)

(** [_merge(a, b)] for two dicts: [a.copy()], then [update(b)], which
    assigns the items of [b] in order. *)
Definition _merge (a b : items_t) : items_t :=
  fold_left (fun to_return kv => dict_set (fst kv) (snd kv) to_return) b a.

(** [merge] on its arguments reversed, all of them dicts; the result is a
    dict, or [None] when there is no argument. *)
Fixpoint merge_rev (rargs : list items_t) : option items_t :=
  match rargs with
  | [] => None
  | [x] => Some x
  | last :: rlst =>
      match merge_rev rlst with
      | Some a => Some (_merge a last)
      | None => None
      end
  end.

Definition merge (args : list items_t) : option items_t :=
  merge_rev (rev args).

(** *** [filter_null_values] *)

(** The comprehension [{k: v for k, v in input.items() if v is not None}];
    a value that is not a dict has no [items]. *)
Definition filter_null_values (input : pyval) : result pyval :=
  match input with
  | VDict d =>
      Ok (VDict (fold_left
                   (fun acc kv =>
                      if is_none (snd kv) then acc
                      else dict_set (fst kv) (snd kv) acc)
                   d []))
  | _ => Raise AttributeError
  end.

(** *** [translate_aliases] *)

Abbreviation aliases_t := (list (string * string)).

(** [aliases.get(given_key, given_key)] *)
Definition canonical (aliases : aliases_t) (given_key : string) : string :=
  default given_key (dict_get given_key aliases).

(** The double quote character. *)
Definition dquote : string :=
  String (Ascii.Ascii false true false false false true false false) EmptyString.

(** The message of the [AliasException]: the keys of [kwargs] that
    [aliases] maps to [canonical_key], in order. *)
Definition duplicate_keys_message (aliases : aliases_t) (kwargs : items_t)
    (canonical_key : string) : string :=
  let key_names :=
    String.concat ", "
      (List.filter (fun k => bool_decide (dict_get k aliases = Some canonical_key))
              (keys kwargs)) in
  "Got duplicate keys: (" +:+ key_names +:+ ") all map to "
  +:+ dquote +:+ canonical_key +:+ dquote.

Section TranslateItems.
Variable aliases : aliases_t.
Variable recurse : bool.
(** The items of [kwargs], which the message of a duplicate refers to. *)
Variable kwargs : items_t.
(** The recursive call [translate_aliases(v, aliases, recurse)]. *)
Variable translate : pyval -> outcome pyval.

(** The comprehension that translates every element of a list value. *)
Fixpoint translate_each (value : list pyval) : outcome (list pyval) :=
  match value with
  | [] => Return []
  | v :: rest =>
      match translate v with
      | Throw e => Throw e
      | Return v' =>
          match translate_each rest with
          | Throw e => Throw e
          | Return rest' => Return (v' :: rest')
          end
      end
  end.

(** The [if recurse:] block: what is stored for [value]. *)
Definition translate_value (value : pyval) : outcome pyval :=
  if recurse then
    match value with
    | VDict _ => translate value
    | VList vs =>
        match translate_each vs with
        | Throw e => Throw e
        | Return vs' => Return (VList vs')
        end
    | _ => Return value
    end
  else Return value.

(** The loop over [kwargs.items()], carrying [result]; the test for a
    duplicate comes before the recursion into the value. *)
Fixpoint translate_items (rest : items_t) (result : items_t) : outcome pyval :=
  match rest with
  | [] => Return (VDict result)
  | (given_key, value) :: rest' =>
      let canonical_key := canonical aliases given_key in
      if dict_contains canonical_key result then
        Throw (AliasException (duplicate_keys_message aliases kwargs canonical_key))
      else
        match translate_value value with
        | Throw e => Throw e
        | Return value' =>
            translate_items rest' (dict_set canonical_key value' result)
        end
  end.
End TranslateItems.

(** [translate_aliases(kwargs, aliases, recurse)]; a value that is not a
    dict has no [items]. *)
Fixpoint translate_aliases (aliases : aliases_t) (recurse : bool) (kwargs : pyval)
    {struct kwargs} : outcome pyval :=
  match kwargs with
  | VDict items =>
      translate_items aliases recurse items
        (fun v => translate_aliases aliases recurse v) items []
  | _ => Throw (Builtin AttributeError)
  end.

(** *** [memoized] *)

Module memoized.
Section Memoized.
(** The argument tuples, the values and the world the wrapped function
    acts on.  [hashable_args] tells whether [hash(args)] succeeds and
    [args_eqb] is the equality of the arguments as dict keys. *)
Context {A V W : Type}.
Variable hashable_args : A -> bool.
Variable args_eqb : A -> A -> bool.
Variable func : A -> W -> result V * W.

(** [self.cache], a dict keyed by argument tuples. *)
Definition cache_t : Type := list (A * V).

(** [self.cache = {}] *)
Definition __init__ : cache_t := [].

Fixpoint cache_get (args : A) (cache : cache_t) : option V :=
  match cache with
  | [] => None
  | (k, v) :: rest => if args_eqb k args then Some v else cache_get args rest
  end.

Fixpoint cache_set (args : A) (value : V) (cache : cache_t) : cache_t :=
  match cache with
  | [] => [(args, value)]
  | (k, v) :: rest =>
      if args_eqb k args then (k, value) :: rest
      else (k, v) :: cache_set args value rest
  end.

(** A call of the instance, [__call__].  [args] is a tuple, and every tuple is an instance of
    [Hashable], so the first test never succeeds; the lookup
    [args in self.cache] is what hashes [args]. *)
Definition __call__ (cache : cache_t) (args : A) (w : W)
  : result V * cache_t * W :=
  if hashable_args args then
    match cache_get args cache with
    | Some value => (Ok value, cache, w)
    | None =>
        match func args w with
        | (Ok value, w') => (Ok value, cache_set args value cache, w')
        | (Raise e, w') => (Raise e, cache, w')
        end
    end
  else (Raise TypeError, cache, w).

(** Calls made one after the other. *)
Fixpoint calls (cache : cache_t) (argss : list A) (w : W)
  : list (result V) * cache_t * W :=
  match argss with
  | [] => ([], cache, w)
  | args :: rest =>
      let '(r, cache', w') := __call__ cache args w in
      let '(rs, cache'', w'') := calls cache' rest w' in
      (r :: rs, cache'', w'')
  end.
End Memoized.
End memoized.

(** *** The other methods of [MultiDict] *)

(** [_keyset]: the union of the keys of the entries. *)
Definition _keyset (self : MultiDict) : gset string :=
  fold_left (fun ks entry => ks ∪ list_to_set (keys entry)) (_itersource self) ∅.

(** [__iter__]: the keys of the set, in the order the set gives them. *)
Definition __iter__ (self : MultiDict) : list string :=
  elements (_keyset self).

Definition __len__ (self : MultiDict) : nat :=
  size (_keyset self).

(** *** Paths *)

(** [os.sep], on a POSIX system: the slash. *)
Definition os_sep : Ascii.ascii :=
  Ascii.Ascii true true true true false true false false.

(** [s.split(sep)] for a separator of one character: the pieces between
    the separators, at least one. *)
Fixpoint split_on (sep : Ascii.ascii) (s : string) : list string :=
  match s with
  | EmptyString => [EmptyString]
  | String c rest =>
      if Ascii.eqb c sep then EmptyString :: split_on sep rest
      else
        match split_on sep rest with
        | piece :: pieces => String c piece :: pieces
        | [] => [String c EmptyString]
        end
  end.

Definition split_path (path : string) : list string := split_on os_sep path.

(** [b.startswith('/')] and [path.endswith('/')] *)
Definition startswith_sep (b : string) : bool :=
  match b with
  | String c _ => Ascii.eqb c os_sep
  | EmptyString => false
  end.

Fixpoint endswith_sep (path : string) : bool :=
  match path with
  | EmptyString => false
  | String c EmptyString => Ascii.eqb c os_sep
  | String _ rest => endswith_sep rest
  end.

(** One round of the loop of [posixpath.join]: a component that starts
    with the separator replaces the path; otherwise it is appended, after
    a separator unless the path is empty or ends with one. *)
Definition join_step (path b : string) : string :=
  if startswith_sep b then b
  else if bool_decide (path = EmptyString) || endswith_sep path then path +:+ b
  else path +:+ "/" +:+ b.

(** [os.path.join] applied to the elements of [parts], on a POSIX
    system; it cannot be called without a first component. *)
Definition os_path_join (parts : list string) : result string :=
  match parts with
  | [] => Raise TypeError
  | a :: p => Ok (fold_left join_step p a)
  end.

(** [source_path_parts.pop()] drops the last part; the list that
    [split] returns is never empty. *)
Definition get_pseudo_test_path (node_name source_path test_type : string)
  : result string :=
  let source_path_parts := removelast (split_path source_path) in
  let suffix := [test_type; node_name +:+ ".sql"] in
  os_path_join (source_path_parts ++ suffix).

Definition get_pseudo_hook_path (hook_name : string) : result string :=
  os_path_join ["hooks"; hook_name +:+ ".sql"].

(** ** Notions used to state the properties of the rest of the module *)

(** The keys [b] adds to [a]. *)
Definition new_keys (a : list string) (b : list string) : list string :=
  List.filter (fun k => bool_decide (k ∉ a)) b.

(** What the loop stores for an item when it does not recurse. *)
Definition rename_item (aliases : aliases_t) (kv : string * pyval) : string * pyval :=
  (canonical aliases (fst kv), snd kv).

(** The number of nested calls [_deep_map] makes on a tree. *)
Fixpoint nesting (t : pyval) : nat :=
  match t with
  | VAtom _ => 1
  | VList ts | VTuple ts => S (max_list (map nesting ts))
  | VDict d => S (max_list (map (fun kv => nesting (snd kv)) d))
  end.

(** A string without the separator. *)
Fixpoint sep_free (s : string) : bool :=
  match s with
  | EmptyString => true
  | String c rest => negb (Ascii.eqb c os_sep) && sep_free rest
  end.

(** A path that a component is appended to after a separator. *)
Definition open_path (path : string) : Prop :=
  path <> EmptyString /\ endswith_sep path = false.

(** * Properties *)

(** ** Dicts *)

Lemma dict_get_set_eq {V} key (v : V) d : dict_get key (dict_set key v d) = Some v.
Proof.
  induction d as [|[k w] d IH]; simpl.
  - by rewrite String.eqb_refl.
  - destruct (String.eqb k key) eqn:E; simpl; rewrite E; auto.
Qed.

Lemma dict_get_set_ne {V} key key' (v : V) d :
  key <> key' -> dict_get key' (dict_set key v d) = dict_get key' d.
Proof.
  intros Hne. induction d as [|[k w] d IH]; simpl.
  - destruct (String.eqb key key') eqn:E; [|done].
    apply String.eqb_eq in E. done.
  - destruct (String.eqb k key) eqn:E; simpl.
    + apply String.eqb_eq in E. subst k.
      destruct (String.eqb key key') eqn:E'; [|done].
      apply String.eqb_eq in E'. done.
    + by rewrite IH.
Qed.

Lemma dict_get_None {V} key (d : list (string * V)) :
  dict_get key d = None <-> key ∉ keys d.
Proof.
  induction d as [|[k w] d IH]; simpl.
  - split; [intros _; apply not_elem_of_nil | done].
  - rewrite not_elem_of_cons, <- IH.
    destruct (String.eqb k key) eqn:E.
    + apply String.eqb_eq in E. split; [done | intros [? _]; congruence].
    + apply String.eqb_neq in E. split; [auto | tauto].
Qed.

Lemma dict_get_app {V} key (d1 d2 : list (string * V)) :
  dict_get key (d1 ++ d2) =
  match dict_get key d1 with Some v => Some v | None => dict_get key d2 end.
Proof.
  induction d1 as [|[k w] d1 IH]; simpl; [done|].
  destruct (String.eqb k key); auto.
Qed.

(** With distinct keys, the item found under a key splits the dict around
    it. *)
Lemma dict_get_split {V} key (v : V) d :
  NoDup (keys d) -> dict_get key d = Some v ->
  exists pre post,
    d = pre ++ (key, v) :: post /\ (key ∉ keys pre) /\ (key ∉ keys post).
Proof.
  induction d as [|[k w] d IH]; simpl; [done|].
  intros Hnd Hget. apply NoDup_cons in Hnd as [Hk Hnd].
  destruct (String.eqb k key) eqn:E.
  - apply String.eqb_eq in E. subst k. injection Hget as ->.
    exists [], d. split; [done|]. split; [apply not_elem_of_nil | done].
  - apply String.eqb_neq in E.
    destruct (IH Hnd Hget) as (pre & post & -> & Hpre & Hpost).
    exists ((k, w) :: pre), post. split; [done|]. split; [|done].
    simpl. rewrite not_elem_of_cons. auto.
Qed.

(** ** HierarchicalLookup *)

Lemma fqn_levels_nonnull root fqn :
  fst (fqn_levels root fqn) = nonnull_levels root fqn.
Proof.
  revert root. induction fqn as [|s rest IH]; intros root; simpl; [done|].
  destruct root; simpl; try done.
  destruct (dict_get s items) as [v|]; simpl; [|done].
  destruct (is_none v); simpl; [done|].
  specialize (IH v). destruct (fqn_levels v rest) as [ys e]. simpl in *.
  unfold deepcopy. by rewrite IH.
Qed.

(** Descending a path that is wholly present, then going on. *)
Lemma fqn_levels_app root path cur rest :
  level_at root path = Some cur ->
  fqn_levels root (path ++ rest) =
  (nonnull_levels root path ++ fst (fqn_levels cur rest),
   snd (fqn_levels cur rest)).
Proof.
  revert root. induction path as [|s path IH]; intros root Hat; simpl in *.
  - injection Hat as ->. by destruct (fqn_levels cur rest).
  - destruct root; try done. simpl.
    destruct (dict_get s items) as [v|]; [|done]. simpl.
    destruct (is_none v); [done|].
    rewrite (IH v Hat). done.
Qed.

Lemma level_at_last root path cur :
  level_at root path = Some cur ->
  last (root :: nonnull_levels root path) = Some cur.
Proof.
  revert root. induction path as [|s path IH]; intros root Hat; simpl in *.
  - by injection Hat as ->.
  - destruct root; try done.
    destruct (dict_get s items) as [v|]; [|done].
    destruct (is_none v); [done|].
    specialize (IH v Hat). simpl in IH. by rewrite last_cons, IH.
Qed.

(** C1, as amended: [fqn_search] yields [root] first and then, segment by
    segment, the value stored under the segment while the current level
    is a Mapping that holds a non-null value there; the sequence stops at
    the first segment that is absent or whose stored value is null. *)
Theorem fqn_search_yields root fqn :
  fst (fqn_search root fqn) = root :: nonnull_levels root fqn.
Proof.
  unfold fqn_search. pose proof (fqn_levels_nonnull root fqn) as H.
  destruct (fqn_levels root fqn) as [ys e]. simpl in *. by rewrite H.
Qed.

(** C1 as stated fails: a segment that is present with a null value stops
    the descent, so the value stored there is not emitted. *)
Lemma fqn_search_null_stops :
  fst (fqn_search (VDict [("a", VNone)]) ["a"])
  <> spec_search (VDict [("a", VNone)]) ["a"].
Proof. vm_compute. discriminate. Qed.

(** C3, as amended: once the descent stands on a level [cur] that was
    reached through [path], that level has been yielded; with no segment
    left the sequence ends normally; with a segment left, a [cur] that is
    not a Mapping makes the next step raise AttributeError, and a Mapping
    [cur] in which the segment is absent or null ends the sequence
    normally.  No element is yielded past [cur] in either case. *)
Theorem fqn_search_at_level root path cur :
  level_at root path = Some cur ->
  fqn_search root path = (root :: nonnull_levels root path, Returned)
  /\ last (root :: nonnull_levels root path) = Some cur
  /\ (is_dict cur = false ->
      forall s rest,
        fqn_search root (path ++ s :: rest)
        = (root :: nonnull_levels root path, Raised AttributeError))
  /\ (forall d s rest,
        cur = VDict d ->
        dict_get s d = None \/ dict_get s d = Some VNone ->
        fqn_search root (path ++ s :: rest)
        = (root :: nonnull_levels root path, Returned)).
Proof.
  intros Hat. split; [|split; [|split]].
  - unfold fqn_search.
    pose proof (fqn_levels_app root path cur [] Hat) as H.
    rewrite app_nil_r in H. rewrite H. simpl. by rewrite app_nil_r.
  - by apply level_at_last.
  - intros Hnd s rest. unfold fqn_search.
    rewrite (fqn_levels_app root path cur (s :: rest) Hat).
    destruct cur; try done; simpl; by rewrite app_nil_r.
  - intros d s rest -> Hs. unfold fqn_search.
    rewrite (fqn_levels_app root path (VDict d) (s :: rest) Hat). simpl.
    destruct Hs as [-> | ->]; simpl; by rewrite app_nil_r.
Qed.

Lemma fqn_search_at_level_witness :
  level_at (VDict [("a", VInt 5)]) ["a"] = Some (VInt 5)
  /\ fqn_search (VDict [("a", VInt 5)]) (["a"] ++ "b" :: [])
     = ([VDict [("a", VInt 5)]; VInt 5], Raised AttributeError).
Proof.
  split; [reflexivity|].
  apply (fqn_search_at_level (VDict [("a", VInt 5)]) ["a"] (VInt 5));
    reflexivity.
Defined.

(** C3 as stated fails: a Scalar reached partway through the fqn is
    yielded, and the next segment raises AttributeError. *)
Lemma fqn_search_scalar_raises :
  fqn_search (VDict [("a", VInt 5)]) ["a"; "b"]
  = ([VDict [("a", VInt 5)]; VInt 5], Raised AttributeError).
Proof. reflexivity. Qed.

(** ** StructuralMerge *)

(** The equations of [deep_merge], as the source has them. *)
Lemma deep_merge_nil : deep_merge [] = Ok VNone.
Proof. reflexivity. Qed.

Lemma deep_merge_one x : deep_merge [x] = Ok (deepcopy x).
Proof. reflexivity. Qed.

Lemma deep_merge_snoc lst last :
  lst <> [] ->
  deep_merge (lst ++ [last]) =
  (destination <- deep_merge lst ;; _deep_merge destination (deepcopy last)).
Proof.
  intros Hne. unfold deep_merge. rewrite rev_app_distr. simpl.
  destruct (rev lst) as [|x rl] eqn:E; [|done].
  apply (f_equal (@rev _)) in E. rewrite rev_involutive in E. done.
Qed.

Lemma deep_merge_pair node value :
  deep_merge [node; value] = _deep_merge (deepcopy node) (deepcopy value).
Proof. reflexivity. Qed.

Lemma _deep_merge_eq destination source :
  _deep_merge destination source =
  match source with
  | VDict items =>
      merge_items (fun node value => deep_merge [node; value]) destination items
  | _ => Ok VNone
  end.
Proof. by destruct source. Qed.

Lemma merge_items_app f destination items1 items2 :
  merge_items f destination (items1 ++ items2) =
  (d <- merge_items f destination items1 ;; merge_items f d items2).
Proof.
  revert destination. induction items1 as [|[k v] items1 IH]; intros dst; simpl.
  - done.
  - destruct (deep_merge_item f dst k v); simpl; auto.
Qed.

(** On a dict, [deep_merge_item] touches the item under [key] only. *)
Lemma deep_merge_item_dict f d key value r :
  deep_merge_item f (VDict d) key value = Ok r ->
  exists d', r = VDict d' /\
    forall key', key <> key' -> dict_get key' d' = dict_get key' d.
Proof.
  unfold deep_merge_item. intros H.
  assert (forall (w : pyval) (d0 : items_t),
             (forall key', key <> key' -> dict_get key' d0 = dict_get key' d) ->
             exists d', VDict (dict_set key w d0) = VDict d' /\
               forall key', key <> key' -> dict_get key' d' = dict_get key' d)
    as Hset.
  { intros w d0 Hd0. eexists. split; [done|]. intros key' Hne.
    rewrite dict_get_set_ne by done. by apply Hd0. }
  destruct value as [a|xs|xs|m].
  - injection H as <-. by apply Hset.
  - destruct (dict_get key d) as [old|].
    + destruct (py_list old); simpl in H; [|done].
      injection H as <-. by apply Hset.
    + injection H as <-. by apply Hset.
  - destruct (dict_get key d) as [old|].
    + destruct (py_list old); simpl in H; [|done].
      injection H as <-. by apply Hset.
    + injection H as <-. by apply Hset.
  - destruct (f _ _); simpl in H; [|done].
    injection H as <-. apply Hset. intros key' Hne.
    destruct (dict_contains key d); [done|]. by apply dict_get_set_ne.
Qed.

Lemma merge_items_dict f d items r :
  merge_items f (VDict d) items = Ok r ->
  exists d', r = VDict d' /\
    forall key', key' ∉ keys items -> dict_get key' d' = dict_get key' d.
Proof.
  revert d. induction items as [|[k v] items IH]; intros d H; simpl in H.
  - injection H as <-. eauto.
  - destruct (deep_merge_item f (VDict d) k v) as [d1|] eqn:E; simpl in H; [|done].
    apply deep_merge_item_dict in E as (d1' & -> & Hd1).
    apply IH in H as (d' & -> & Hd'). exists d'. split; [done|].
    intros key' Hk. simpl in Hk. apply not_elem_of_cons in Hk as [Hk1 Hk2].
    rewrite Hd' by done. apply Hd1. congruence.
Qed.

Lemma py_list_raises x e : py_list x = Raise e -> merge_error e.
Proof.
  destruct x as [[]| | |]; simpl; intros H; try done;
    injection H as <-; by right.
Qed.

Lemma deep_merge_item_raises f destination key value e :
  (forall node, f node value = Raise e -> merge_error e) ->
  deep_merge_item f destination key value = Raise e -> merge_error e.
Proof.
  unfold deep_merge_item, merge_error. intros Hf H.
  destruct value as [a|xs|xs|m], destination as [a'|xs'|xs'|d]; simpl in H;
    try (injection H as <-; tauto); try done.
  - destruct (dict_get key d) as [old|]; [|done].
    destruct (py_list old) eqn:E; simpl in H; [done|].
    injection H as <-. by apply py_list_raises in E.
  - destruct (dict_get key d) as [old|]; [|done].
    destruct (py_list old) eqn:E; simpl in H; [done|].
    injection H as <-. by apply py_list_raises in E.
  - destruct (f _ _) eqn:E; simpl in H; [done|].
    injection H as <-. by apply Hf in E.
Qed.

(** A destination that is not a dict makes every item fail. *)
Lemma deep_merge_item_not_dict f destination key value :
  is_dict destination = false ->
  exists e, deep_merge_item f destination key value = Raise e /\ merge_error e.
Proof.
  unfold deep_merge_item, merge_error. intros H.
  destruct destination; try done; destruct value; eauto.
Qed.

Lemma merge_items_raises f destination items e :
  Forall (fun kv => forall node, f node (snd kv) = Raise e -> merge_error e) items ->
  merge_items f destination items = Raise e -> merge_error e.
Proof.
  intros Hf. revert destination.
  induction Hf as [|[k v] items Hkv _ IH]; intros dst H; simpl in H; [done|].
  destruct (deep_merge_item f dst k v) eqn:E; simpl in H.
  - by apply IH in H.
  - injection H as <-. by apply deep_merge_item_raises in E.
Qed.

Lemma _deep_merge_raises destination source e :
  _deep_merge destination source = Raise e -> merge_error e.
Proof.
  revert destination.
  induction source as [a|xs _|xs _|d IH] using pyval_nested_ind;
    intros dst H; try done.
  simpl in H. eapply merge_items_raises; [|exact H].
  eapply Forall_impl; [exact IH|]. intros [k v] Hv node. apply Hv.
Qed.

Lemma deep_merge_raises args e :
  deep_merge args = Raise e -> merge_error e.
Proof.
  unfold deep_merge. induction (rev args) as [|last rl IH]; simpl; [done|].
  destruct rl as [|x rl]; [done|].
  destruct (deep_merge_rev (x :: rl)) eqn:E; simpl.
  - apply _deep_merge_raises.
  - intros Hr. injection Hr as <-. by apply IH.
Qed.

(** What a merge does at one key of the source: the items before it
    leave the destination's value under that key alone, the item itself
    is merged into it, and the items after it leave the result alone. *)
Lemma merge_items_key f d s key v r :
  NoDup (keys s) -> dict_get key s = Some v ->
  merge_items f (VDict d) s = Ok r ->
  exists d1 d2 d',
    dict_get key d1 = dict_get key d
    /\ deep_merge_item f (VDict d1) key v = Ok (VDict d2)
    /\ r = VDict d' /\ dict_get key d' = dict_get key d2.
Proof.
  intros Hnd Hget H.
  destruct (dict_get_split key v s Hnd Hget) as (pre & post & -> & Hpre & Hpost).
  rewrite merge_items_app in H.
  destruct (merge_items f (VDict d) pre) as [r1|] eqn:E1; simpl in H; [|done].
  apply merge_items_dict in E1 as (d1 & -> & Hd1).
  destruct (deep_merge_item f (VDict d1) key v) as [r2|] eqn:E2; simpl in H; [|done].
  destruct (deep_merge_item_dict _ _ _ _ _ E2) as (d2 & -> & _).
  apply merge_items_dict in H as (d' & -> & Hd').
  exists d1, d2, d'. auto.
Qed.

Lemma merge_items_key_raises f d s key v :
  NoDup (keys s) -> dict_get key s = Some v ->
  (forall d1, dict_get key d1 = dict_get key d ->
              exists e, deep_merge_item f (VDict d1) key v = Raise e) ->
  exists e, merge_items f (VDict d) s = Raise e.
Proof.
  intros Hnd Hget Hitem.
  destruct (dict_get_split key v s Hnd Hget) as (pre & post & -> & Hpre & Hpost).
  rewrite merge_items_app.
  destruct (merge_items f (VDict d) pre) as [r1|e] eqn:E1; simpl; [|by exists e].
  apply merge_items_dict in E1 as (d1 & -> & Hd1).
  destruct (Hitem d1 (Hd1 key Hpre)) as [e He]. rewrite He. by exists e.
Qed.

(** C2, as amended: where the earlier argument holds a non-Mapping value
    at a key and the later argument holds a non-empty Mapping there,
    [deep_merge] fails, with a TypeError or an AttributeError.  Where the
    earlier argument holds a Mapping and the later one a Scalar, nothing
    is raised for that key: the Scalar replaces the Mapping. *)
Theorem deep_merge_mapping_conflict d s key :
  NoDup (keys s) ->
  (forall v m,
      dict_get key d = Some v -> is_dict v = false ->
      dict_get key s = Some (VDict m) -> m <> [] ->
      exists e, deep_merge [VDict d; VDict s] = Raise e /\ merge_error e)
  /\ (forall m v,
      dict_get key d = Some (VDict m) ->
      dict_get key s = Some v -> is_scalar v = true ->
      (forall f, deep_merge_item f (VDict d) key v = Ok (VDict (dict_set key v d)))
      /\ (forall r, deep_merge [VDict d; VDict s] = Ok r ->
                    exists d', r = VDict d' /\ dict_get key d' = Some v)).
Proof.
  intros Hnd. split.
  - intros v m Hd Hv Hs Hm.
    assert (exists e, deep_merge [VDict d; VDict s] = Raise e) as [e He].
    { rewrite deep_merge_pair. unfold deepcopy. simpl.
      apply (merge_items_key_raises _ d s key (VDict m) Hnd Hs).
      intros d1 Hd1. unfold deep_merge_item. rewrite Hd1, Hd. simpl.
      destruct m as [|[k1 v1] m]; [done|]. unfold deepcopy. simpl.
      destruct (deep_merge_item_not_dict
                  (fun node value => _deep_merge node value) v k1 v1 Hv)
        as (e & -> & _).
      simpl. by exists e. }
    exists e. split; [done|]. by apply deep_merge_raises in He.
  - intros m v Hd Hs Hv. split.
    + intros f. by destruct v.
    + intros r H. rewrite deep_merge_pair in H. unfold deepcopy in H. simpl in H.
      destruct (merge_items_key _ d s key v r Hnd Hs H)
        as (d1 & d2 & d' & Hd1 & Hitem & -> & Hd').
      exists d'. split; [done|]. rewrite Hd'.
      destruct v; try done; simpl in Hitem; injection Hitem as <-;
        apply dict_get_set_eq.
Qed.

Lemma deep_merge_mapping_conflict_witness :
  exists e,
    deep_merge [VDict [("x", VInt 5)]; VDict [("x", VDict [("a", VInt 1)])]]
    = Raise e /\ merge_error e.
Proof.
  assert (NoDup (keys [("x", VDict [("a", VInt 1)])])) as Hnd.
  { simpl. apply NoDup_singleton. }
  apply (proj1 (deep_merge_mapping_conflict
                  [("x", VInt 5)] [("x", VDict [("a", VInt 1)])] "x" Hnd)
               (VInt 5) [("a", VInt 1)]);
    [reflexivity | reflexivity | reflexivity | discriminate].
Defined.

(** C2 as stated fails: a Scalar merged over a Mapping replaces it and
    nothing is raised. *)
Lemma deep_merge_scalar_over_mapping :
  dict_get "x" [("x", VDict [("a", VInt 1)])] = Some (VDict [("a", VInt 1)])
  /\ dict_get "x" [("x", VInt 5)] = Some (VInt 5)
  /\ deep_merge [VDict [("x", VDict [("a", VInt 1)])]; VDict [("x", VInt 5)]]
     = Ok (VDict [("x", VInt 5)]).
Proof. repeat split. Qed.

(** C4: the field rule for a Sequence in the source.  Over a Sequence in
    the destination the result holds the source's elements followed by
    the destination's; with no value in the destination the source's
    sequence is stored as it is.  The same holds at that key of the
    result of a merge of an accumulated destination [d] with a next
    source [s]. *)
Theorem deep_merge_sequence_prepend (d : items_t) (key : string) (b : list pyval) :
  (forall f a,
      dict_get key d = Some (VList a) ->
      deep_merge_item f (VDict d) key (VList b)
      = Ok (VDict (dict_set key (VList (b ++ a)) d)))
  /\ (forall f,
      dict_get key d = None ->
      deep_merge_item f (VDict d) key (VList b)
      = Ok (VDict (dict_set key (VList b) d)))
  /\ (forall lst s r,
      lst <> [] -> deep_merge lst = Ok (VDict d) ->
      NoDup (keys s) -> dict_get key s = Some (VList b) ->
      deep_merge (lst ++ [VDict s]) = Ok r ->
      exists d', r = VDict d'
        /\ (forall a, dict_get key d = Some (VList a) ->
                      dict_get key d' = Some (VList (b ++ a)))
        /\ (dict_get key d = None -> dict_get key d' = Some (VList b)))
  /\ deep_merge [VDict [("x", VList [VInt 1; VInt 2])];
                 VDict [("x", VList [VInt 3; VInt 4])]]
     = Ok (VDict [("x", VList [VInt 3; VInt 4; VInt 1; VInt 2])]).
Proof.
  split; [|split; [|split]].
  - intros f a Ha. unfold deep_merge_item. by rewrite Ha.
  - intros f Hn. unfold deep_merge_item. by rewrite Hn.
  - intros lst s r Hne Hlst Hnd Hs H.
    rewrite deep_merge_snoc, Hlst in H by done. unfold deepcopy in H. simpl in H.
    destruct (merge_items_key _ d s key (VList b) r Hnd Hs H)
      as (d1 & d2 & d' & Hd1 & Hitem & -> & Hd').
    exists d'. split; [done|]. unfold deep_merge_item in Hitem.
    rewrite Hd1 in Hitem. split.
    + intros a Ha. rewrite Ha in Hitem. simpl in Hitem.
      injection Hitem as <-. rewrite Hd'. apply dict_get_set_eq.
    + intros Hn. rewrite Hn in Hitem. injection Hitem as <-.
      rewrite Hd'. apply dict_get_set_eq.
  - reflexivity.
Qed.

(** C8: merging three arguments is merging the first two and then
    merging the result with the third; an error of the inner merge is
    the error of both. *)
Theorem deep_merge_three (a b c : pyval) :
  deep_merge [a; b; c] = (ab <- deep_merge [a; b] ;; deep_merge [ab; c]).
Proof.
  change [a; b; c] with ([a; b] ++ [c]).
  rewrite deep_merge_snoc by done.
  destruct (deep_merge [a; b]) as [ab|e]; simpl; [|done].
  by rewrite deep_merge_pair.
Qed.

(** C10, as amended: with two or more arguments of which the last is not
    a Mapping, [deep_merge] returns None whenever the merge of the
    arguments before it returns; with exactly two arguments it always
    does.  An error of the merge of the earlier arguments is the error of
    the call. *)
Theorem deep_merge_last_not_mapping (lst : list pyval) (last : pyval) :
  lst <> [] -> is_dict last = false ->
  (forall destination,
      deep_merge lst = Ok destination -> deep_merge (lst ++ [last]) = Ok VNone)
  /\ (forall x, lst = [x] -> deep_merge (lst ++ [last]) = Ok VNone)
  /\ (forall e, deep_merge lst = Raise e -> deep_merge (lst ++ [last]) = Raise e).
Proof.
  intros Hne Hlast. rewrite deep_merge_snoc by done.
  split; [|split].
  - intros dst ->. simpl. by destruct last.
  - intros x ->. simpl. by destruct last.
  - by intros e ->.
Qed.

Lemma deep_merge_last_not_mapping_witness :
  deep_merge ([VDict [("x", VInt 1)]] ++ [VInt 5]) = Ok VNone.
Proof.
  apply (proj1 (proj2 (deep_merge_last_not_mapping
                         [VDict [("x", VInt 1)]] (VInt 5)
                         ltac:(discriminate) eq_refl))
               (VDict [("x", VInt 1)]) eq_refl).
Defined.

(** C10 as stated fails: the final argument is a Scalar, yet the call
    raises, because merging the two arguments before it does. *)
Lemma deep_merge_last_scalar_raises :
  deep_merge [VDict [("x", VInt 1)]; VDict [("x", VDict [("a", VInt 1)])]; VInt 5]
  = Raise TypeError.
Proof. reflexivity. Qed.

(** ** LayeredView *)

Lemma getitem_scan_ok entries name v :
  getitem_scan entries name = Ok v <->
  exists newer entry older,
    entries = newer ++ entry :: older
    /\ Forall (fun e => dict_contains name e = false) newer
    /\ dict_get name entry = Some v.
Proof.
  unfold dict_contains. induction entries as [|e entries IH]; simpl.
  - split; [done|]. intros (newer & entry & older & H & _). by destruct newer.
  - destruct (dict_get name e) as [w|] eqn:E.
    + split.
      * intros [= ->]. exists [], e, entries. auto.
      * intros (newer & entry & older & H & Hn & Hg).
        destruct newer as [|e' newer]; simpl in H; injection H as He Hent; subst.
        -- congruence.
        -- apply Forall_cons in Hn as [Hn _]. by rewrite E in Hn.
    + rewrite IH. split.
      * intros (newer & entry & older & -> & Hn & Hg).
        exists (e :: newer), entry, older. split; [done|]. split; [|done].
        constructor; [by rewrite E | done].
      * intros (newer & entry & older & H & Hn & Hg).
        destruct newer as [|e' newer]; simpl in H; injection H as He Hent; subst.
        -- congruence.
        -- apply Forall_cons in Hn as [_ Hn]. exists newer, entry, older. auto.
Qed.

Lemma getitem_scan_raise entries name e :
  getitem_scan entries name = Raise e <->
  e = KeyError name /\ Forall (fun en => dict_contains name en = false) entries.
Proof.
  unfold dict_contains. induction entries as [|en entries IH]; simpl.
  - split; [by intros [= <-] | by intros [-> _]].
  - destruct (dict_get name en) eqn:E.
    + split; [done|]. intros [_ H]. apply Forall_cons in H as [H _].
      by rewrite E in H.
    + rewrite IH. split; intros [-> H]; split; try done.
      * constructor; [by rewrite E | done].
      * by apply Forall_cons in H as [_ H].
Qed.

(** C6: [__getitem__] returns the value of the most recently appended
    source that contains the key, and raises KeyError exactly when no
    source contains it. *)
Theorem multidict_getitem (self : MultiDict) (name : string) :
  (forall v,
      __getitem__ self name = Ok v <->
      exists older entry newer,
        sources self = older ++ entry :: newer
        /\ Forall (fun e => dict_contains name e = false) newer
        /\ dict_get name entry = Some v)
  /\ (forall e,
      __getitem__ self name = Raise e <->
      e = KeyError name
      /\ Forall (fun en => dict_contains name en = false) (sources self))
  /\ __getitem__ {| sources := [[("x", VInt 1)]; [("x", VInt 2)]] |} "x"
     = Ok (VInt 2)
  /\ __getitem__ (add {| sources := [[("x", VInt 1)]; [("x", VInt 2)]] |}
                      [("x", VInt 3)]) "x"
     = Ok (VInt 3).
Proof.
  unfold __getitem__, _itersource. split; [|split; [|split]]; try reflexivity.
  - intros v. rewrite getitem_scan_ok. split.
    + intros (newer & entry & older & H & Hn & Hg).
      exists (rev older), entry, (rev newer).
      apply (f_equal (@rev _)) in H. rewrite rev_involutive in H.
      rewrite H, rev_app_distr. simpl. rewrite <- app_assoc. simpl.
      split; [done|]. split; [|done].
      apply Forall_forall. intros x Hx. rewrite list_elem_of_In, <- in_rev in Hx.
      rewrite Forall_forall in Hn. apply Hn. by apply list_elem_of_In.
    + intros (older & entry & newer & H & Hn & Hg).
      exists (rev newer), entry, (rev older).
      rewrite H, rev_app_distr. simpl. rewrite <- app_assoc. simpl.
      split; [done|]. split; [|done].
      apply Forall_forall. intros x Hx. rewrite list_elem_of_In, <- in_rev in Hx.
      rewrite Forall_forall in Hn. apply Hn. by apply list_elem_of_In.
  - intros e. rewrite getitem_scan_raise. split; intros [-> H]; split; try done.
    + apply Forall_forall. intros x Hx. rewrite Forall_forall in H. apply H.
      apply list_elem_of_In. rewrite <- in_rev. by apply list_elem_of_In.
    + apply Forall_forall. intros x Hx. rewrite Forall_forall in H. apply H.
      apply list_elem_of_In. apply list_elem_of_In in Hx. by rewrite <- in_rev in Hx.
Qed.

(** ** KeypathTransform *)

Lemma dict_get_elem_of {V} key (v : V) d : dict_get key d = Some v -> (key, v) ∈ d.
Proof.
  induction d as [|[k w] d IH]; simpl; [done|].
  destruct (String.eqb k key) eqn:E.
  - apply String.eqb_eq in E. intros [= ->]. subst. apply list_elem_of_here.
  - intros H. apply list_elem_of_further. auto.
Qed.

Lemma dict_get_map {V W} (h : string -> V -> W) key (d : list (string * V)) :
  dict_get key (map (fun kv => (fst kv, h (fst kv) (snd kv))) d)
  = h key <$> dict_get key d.
Proof.
  induction d as [|[k w] d IH]; simpl; [done|].
  destruct (String.eqb k key) eqn:E; [|done].
  apply String.eqb_eq in E. by subst.
Qed.

(** The equations of [tree_map] on containers. *)
Lemma tree_map_list fn p ts :
  tree_map fn p (VList ts)
  = VList (imap (fun i t => tree_map fn (p ++ [Store.Idx i]) t) ts).
Proof.
  simpl. f_equal.
  enough (forall idx,
             (fix go (idx : nat) (ts : list pyval) : list pyval :=
                match ts with
                | [] => []
                | t :: ts' => tree_map fn (p ++ [Store.Idx idx]) t :: go (S idx) ts'
                end) idx ts
             = imap (fun i t => tree_map fn (p ++ [Store.Idx (idx + i)]) t) ts)
    as H by apply (H 0).
  induction ts as [|t ts IH]; intros idx; simpl; [done|].
  rewrite Nat.add_0_r, IH. f_equal. apply imap_ext. intros i x _. simpl.
  by rewrite Nat.add_succ_r.
Qed.

Lemma tree_map_dict fn p d :
  tree_map fn p (VDict d)
  = VDict (map (fun kv => (fst kv, tree_map fn (p ++ [Store.Key (fst kv)]) (snd kv))) d).
Proof.
  simpl. f_equal. induction d as [|[k t] d IH]; simpl; [done|]. by rewrite IH.
Qed.

Lemma tree_map_shape fn p t : shape (tree_map fn p t) = shape t.
Proof.
  revert p. induction t as [a|ts IH|ts _|d IH] using pyval_nested_ind; intros p.
  - done.
  - rewrite tree_map_list. simpl. f_equal. apply list_eq. intros i.
    rewrite !list_lookup_fmap, list_lookup_imap.
    destruct (ts !! i) as [t|] eqn:E; simpl; [|done].
    f_equal. eapply Forall_lookup_1 in IH; [|done]. apply IH.
  - done.
  - rewrite tree_map_dict. simpl. f_equal.
    induction IH as [|[k t] d Ht _ IHd]; simpl; [done|].
    simpl in Ht. rewrite Ht. f_equal. exact IHd.
Qed.

(** Every scalar leaf is replaced by [fn] of it and of its keypath from
    the root. *)
Lemma tree_map_leaf fn p t q a :
  leaf_at t q = Some a ->
  leaf_at (tree_map fn p t) q = Some (fn a (p ++ q)).
Proof.
  revert p q. induction t as [a'|ts IH|ts _|d IH] using pyval_nested_ind;
    intros p q H.
  - destruct q as [|[k|i] q]; simpl in *; try done.
    injection H as ->. by rewrite app_nil_r.
  - rewrite tree_map_list. destruct q as [|[k|i] q]; simpl in *; try done.
    rewrite list_lookup_imap.
    destruct (ts !! i) as [t|] eqn:E; simpl; [|done].
    eapply Forall_lookup_1 in IH; [|done].
    rewrite (IH _ _ H). by rewrite <- app_assoc.
  - destruct q as [|[k|i] q]; simpl in *; done.
  - rewrite tree_map_dict. destruct q as [|[k|i] q]; simpl in *; try done.
    rewrite (dict_get_map (fun k t => tree_map fn (p ++ [Store.Key k]) t)).
    destruct (dict_get k d) as [t|] eqn:E; simpl; [|done].
    apply dict_get_elem_of in E. rewrite Forall_forall in IH.
    specialize (IH _ E). simpl in IH.
    rewrite (IH _ _ H). by rewrite <- app_assoc.
Qed.

(** On a tree read from the store, within the recursion depth,
    [_deep_map] returns [tree_map]. *)
Lemma _deep_map_tree fn st t :
  forall fuel value p,
    Store.tree_of st value t -> well_formed t = true -> depth t < fuel ->
    Store._deep_map fuel (fun a p => Ok (VAtom (fn a p))) st value p
    = Ok (tree_map fn p t).
Proof.
  induction t as [a|ts IH|ts _|d IH] using pyval_nested_ind;
    intros fuel value p Htree Hshape Hdepth.
  - inversion Htree; subst. destruct fuel; [lia|]. done.
  - inversion Htree as [|l rs ts' _ Hl HF| |]; subst.
    destruct fuel as [|fuel]; [lia|]. simpl in Hdepth. simpl. rewrite Hl.
    enough (forall idx,
               Store.map_elems
                 (Store._deep_map fuel (fun a p => Ok (VAtom (fn a p))) st) idx rs p
               = Ok ((fix go (idx : nat) (ts : list pyval) : list pyval :=
                        match ts with
                        | [] => []
                        | t :: ts' =>
                            tree_map fn (p ++ [Store.Idx idx]) t :: go (S idx) ts'
                        end) idx ts)) as H by (by rewrite H).
    assert (max_list (map depth ts) < fuel) as Hd by lia.
    simpl in Hshape. clear Hl Htree Hdepth.
    induction HF as [|r t rs ts Hr HF IHF]; intros idx; simpl; [done|].
    apply Forall_cons in IH as [IHt IHts].
    simpl in Hshape. apply andb_prop in Hshape as [Ht Hts].
    simpl in Hd. rewrite (IHt fuel r _ Hr Ht) by lia. simpl.
    rewrite IHF; [done|done|done|lia].
  - done.
  - inversion Htree as [| | |l items d' _ Hl HF]; subst.
    destruct fuel as [|fuel]; [lia|]. simpl in Hdepth. simpl. rewrite Hl.
    enough (Store.map_items
              (Store._deep_map fuel (fun a p => Ok (VAtom (fn a p))) st) items p
            = Ok ((fix go (d : items_t) : items_t :=
                     match d with
                     | [] => []
                     | (k, t) :: d' =>
                         (k, tree_map fn (p ++ [Store.Key k]) t) :: go d'
                     end) d)) as H by (by rewrite H).
    assert (max_list (map (fun kv => depth (snd kv)) d) < fuel) as Hd by lia.
    simpl in Hshape. apply andb_prop in Hshape as [_ Hshape]. clear Hl Htree Hdepth.
    induction HF as [|[k r] [k' t] items d [Hk Hr] HF IHF]; simpl; [done|].
    apply Forall_cons in IH as [IHt IHts]. simpl in *. subst k'.
    apply andb_prop in Hshape as [Ht Hts].
    rewrite (IHt fuel r _ Hr Ht) by lia. simpl.
    rewrite IHF; [done|done|done|lia].
Qed.

(** C5: on a well-formed Tree whose nesting depth is within the
    recursion limit, [deep_map] returns the tree of identical shape in
    which every Scalar leaf [a] at keypath [q] is [fn a q]. *)
Theorem deep_map_tree (limit : nat) (st : Store.store) (value : Store.ref)
    (t : pyval) (fn : scalar -> Store.keypath_t -> scalar) :
  Store.tree_of st value t -> well_formed t = true -> depth t < limit ->
  Store.deep_map limit (fun a p => Ok (VAtom (fn a p))) st value
  = Ok (tree_map fn [] t)
  /\ shape (tree_map fn [] t) = shape t
  /\ (forall q a, leaf_at t q = Some a ->
                  leaf_at (tree_map fn [] t) q = Some (fn a q)).
Proof.
  intros Htree Hshape Hdepth. split; [|split].
  - unfold Store.deep_map. by rewrite (_deep_map_tree fn st t limit value []).
  - apply tree_map_shape.
  - intros q a H. by apply (tree_map_leaf fn []).
Qed.

Lemma deep_map_tree_witness :
  Store.deep_map 3 (fun a p => Ok (VAtom a))
    [Store.OList [Store.RAtom (SInt 10); Store.RAtom (SInt 20)];
     Store.ODict [("a", Store.RObj 0)]]
    (Store.RObj 1)
  = Ok (VDict [("a", VList [VInt 10; VInt 20])]).
Proof.
  apply (deep_map_tree 3
           [Store.OList [Store.RAtom (SInt 10); Store.RAtom (SInt 20)];
            Store.ODict [("a", Store.RObj 0)]]
           (Store.RObj 1)
           (VDict [("a", VList [VInt 10; VInt 20])])
           (fun a _ => a)).
  - unfold Store.tree_of. repeat econstructor.
  - reflexivity.
  - vm_compute. lia.
Defined.

(** The keypath handed to [func] is the path from the root, as the
    design document's example has it. *)
Example deep_map_keypaths :
  Store.deep_map 3
    (fun _ p =>
       Ok (VTuple (map (fun s => match s with
                                 | Store.Key k => VStr k
                                 | Store.Idx i => VInt (Z.of_nat i)
                                 end) p)))
    [Store.OList [Store.RAtom (SInt 10); Store.RAtom (SInt 20)];
     Store.ODict [("a", Store.RObj 0)]]
    (Store.RObj 1)
  = Ok (VDict [("a", VList [VTuple [VStr "a"; VInt 0];
                            VTuple [VStr "a"; VInt 1]])]).
Proof. reflexivity. Qed.

(** *** Cycles *)

Lemma map_elems_ok rec idx rs p vs :
  Store.map_elems rec idx rs p = Ok vs ->
  forall r, r ∈ rs -> exists q v, rec r q = Ok v.
Proof.
  revert idx vs. induction rs as [|r0 rs IH]; intros idx vs H r Hr.
  - by apply elem_of_nil in Hr.
  - simpl in H. destruct (rec r0 _) as [v0|] eqn:E0; simpl in H; [|done].
    destruct (Store.map_elems rec (S idx) rs p) as [vs'|] eqn:E; simpl in H; [|done].
    apply elem_of_cons in Hr as [->|Hr]; eauto.
Qed.

Lemma map_items_ok rec items p vs :
  Store.map_items rec items p = Ok vs ->
  forall r, r ∈ map snd items -> exists q v, rec r q = Ok v.
Proof.
  revert vs. induction items as [|[k r0] items IH]; intros vs H r Hr.
  - by apply elem_of_nil in Hr.
  - simpl in H. destruct (rec r0 _) as [v0|] eqn:E0; simpl in H; [|done].
    destruct (Store.map_items rec items p) as [vs'|] eqn:E; simpl in H; [|done].
    simpl in Hr. apply elem_of_cons in Hr as [->|Hr]; eauto.
Qed.

(** Where [_deep_map] returns, no chain of containers from its argument
    is as long as the recursion depth it was given. *)
Lemma _deep_map_ok_bounds_chains func st :
  forall fuel l p v,
    Store._deep_map fuel func st (Store.RObj l) p = Ok v ->
    forall k l', nsteps (Store.edge st) k l l' -> k < fuel.
Proof.
  induction fuel as [|fuel IH]; intros l p v H k l' Hk; [done|].
  destruct k as [|k]; [lia|].
  inversion Hk as [|? ? l1 ? [o [Ho Hin]] Hk']; subst.
  simpl in H. rewrite Ho in H.
  destruct o as [rs|rs|items|ty]; simpl in Hin; try done.
  - destruct (Store.map_elems _ 0 rs p) as [vs|] eqn:E; simpl in H; [|done].
    destruct (map_elems_ok _ _ _ _ _ E _ Hin) as (q & v1 & Hv1).
    apply (IH _ _ _ Hv1) in Hk'. lia.
  - destruct (Store.map_items _ items p) as [vs|] eqn:E; simpl in H; [|done].
    destruct (map_items_ok _ _ _ _ E _ Hin) as (q & v1 & Hv1).
    apply (IH _ _ _ Hv1) in Hk'. lia.
Qed.

(** From a container that reaches a cycle there are chains of every
    length. *)
Lemma has_cycle_chains st l :
  Store.has_cycle st l -> forall k, exists l', nsteps (Store.edge st) k l l'.
Proof.
  intros (c & Hlc & Hcc) k.
  apply rtc_nsteps in Hlc as [m Hm]. apply tc_nsteps in Hcc as (j & Hj & Hcyc).
  assert (forall i, nsteps (Store.edge st) (i * j) c c) as Hloop.
  { induction i as [|i IHi]; simpl; [constructor|].
    eapply nsteps_trans; [exact Hcyc | exact IHi]. }
  pose proof (nsteps_trans _ _ _ _ _ Hm (Hloop k)) as Hlong.
  replace (m + k * j) with (k + (m + k * j - k)) in Hlong by nia.
  apply nsteps_add_inv in Hlong as (l' & Hl' & _). eauto.
Qed.

Lemma map_elems_raise rec idx rs p e :
  Store.map_elems rec idx rs p = Raise e ->
  exists r q, r ∈ rs /\ rec r q = Raise e.
Proof.
  revert idx. induction rs as [|r0 rs IH]; intros idx H; simpl in H; [done|].
  destruct (rec r0 _) as [v0|e0] eqn:E0; simpl in H.
  - destruct (Store.map_elems rec (S idx) rs p) as [vs'|] eqn:E; simpl in H; [done|].
    injection H as ->. destruct (IH _ E) as (r & q & Hr & Hq).
    exists r, q. split; [by apply list_elem_of_further | done].
  - injection H as ->. exists r0. eexists. split; [apply list_elem_of_here | done].
Qed.

Lemma map_items_raise rec items p e :
  Store.map_items rec items p = Raise e ->
  exists r q, r ∈ map snd items /\ rec r q = Raise e.
Proof.
  induction items as [|[k r0] items IH]; intros H; simpl in H; [done|].
  destruct (rec r0 _) as [v0|e0] eqn:E0; simpl in H.
  - destruct (Store.map_items rec items p) as [vs'|] eqn:E; simpl in H; [done|].
    injection H as ->. destruct (IH eq_refl) as (r & q & Hr & Hq).
    exists r, q. split; [by apply list_elem_of_further | done].
  - injection H as ->. exists r0. eexists. split; [apply list_elem_of_here | done].
Qed.

(** On lists, dicts and scalars, with a [func] that returns, the only
    failure of [_deep_map] is the exhausted recursion depth. *)
Lemma _deep_map_raise func st :
  (forall a p, exists v, func a p = Ok v) ->
  forall fuel value p e,
    (forall l, value = Store.RObj l -> Store.lists_and_dicts st l) ->
    Store._deep_map fuel func st value p = Raise e ->
    e = RuntimeError recursion_msg.
Proof.
  intros Hfunc. induction fuel as [|fuel IH]; intros value p e Hshape H.
  - by injection H as <-.
  - destruct value as [a|l]; simpl in H.
    + destruct (Hfunc a p) as [v Hv]. congruence.
    + assert (forall r, Store.edge st l r ->
                        forall l', Store.RObj r = Store.RObj l' ->
                                   Store.lists_and_dicts st l') as Hsub.
      { intros r Hr l' [= <-] l2 Hl2. apply (Hshape l eq_refl).
        by eapply rtc_l. }
      destruct (Hshape l eq_refl l) as (o & Ho & Hkind); [done|].
      rewrite Ho in H. destruct o as [rs|rs|items|ty]; try done.
      * destruct (Store.map_elems _ 0 rs p) as [vs|e'] eqn:E; simpl in H; [done|].
        injection H as ->. apply map_elems_raise in E as (r & q & Hr & Hq).
        apply (IH r q e); [|done]. intros l' ->. eapply Hsub; [|done].
        exists (Store.OList rs). auto.
      * destruct (Store.map_items _ items p) as [vs|e'] eqn:E; simpl in H; [done|].
        injection H as ->. apply map_items_raise in E as (r & q & Hr & Hq).
        apply (IH r q e); [|done]. intros l' ->. eapply Hsub; [|done].
        exists (Store.ODict items). auto.
Qed.

(** C9, as amended: a value that contains a reference cycle never makes
    [deep_map] return, whatever the recursion limit; when everything
    reachable in it is a list, a dict or a scalar, the failure is the
    RecursionException, which is not the DbtConfigError of a value of
    another type; and no RuntimeError that mentions the recursion depth
    ever leaves [deep_map]. *)
Theorem deep_map_cycle (limit : nat) (func : scalar -> Store.keypath_t -> result pyval)
    (st : Store.store) (l : Store.loc) :
  Store.has_cycle st l ->
  (forall a p, exists v, func a p = Ok v) ->
  (exists e, Store.deep_map limit func st (Store.RObj l) = Raise e)
  /\ (Store.lists_and_dicts st l ->
      Store.deep_map limit func st (Store.RObj l)
      = Raise (RecursionException "Cycle detected in deep_map"))
  /\ (forall msg,
      Store.deep_map limit func st (Store.RObj l) = Raise (RuntimeError msg) ->
      Store.mentions_recursion msg = false)
  /\ (forall got,
      RecursionException "Cycle detected in deep_map" <> DbtConfigError got).
Proof.
  intros Hcyc Hfunc.
  assert (forall v, Store._deep_map limit func st (Store.RObj l) [] <> Ok v) as Hno.
  { intros v Hv. destruct (has_cycle_chains st l Hcyc limit) as [l' Hl'].
    pose proof (_deep_map_ok_bounds_chains func st _ _ _ _ Hv _ _ Hl'). lia. }
  unfold Store.deep_map. split; [|split; [|split]].
  - destruct (Store._deep_map limit func st (Store.RObj l) []) as [v|e] eqn:E.
    + by destruct (Hno v).
    + destruct e; eauto. destruct (Store.mentions_recursion msg); eauto.
  - intros Hshape.
    destruct (Store._deep_map limit func st (Store.RObj l) []) as [v|e] eqn:E.
    + by destruct (Hno v).
    + apply (_deep_map_raise func st Hfunc) in E as ->; [done|].
      by intros l' [= <-].
  - intros msg.
    destruct (Store._deep_map limit func st (Store.RObj l) []) as [v|e]; [done|].
    destruct e as [| | |msg'| | |]; try done.
    destruct (Store.mentions_recursion msg') eqn:E; [done|]. by intros [= <-].
  - done.
Qed.

Lemma self_list_has_cycle : Store.has_cycle [Store.OList [Store.RObj 0]] 0.
Proof.
  exists 0. split; [apply rtc_refl|]. apply tc_once.
  exists (Store.OList [Store.RObj 0]). split; [done|]. apply list_elem_of_here.
Qed.

Lemma deep_map_cycle_witness :
  exists e,
    Store.deep_map 1000 (fun a _ => Ok (VAtom a))
                   [Store.OList [Store.RObj 0]] (Store.RObj 0)
    = Raise e.
Proof.
  apply (deep_map_cycle 1000 (fun a _ => Ok (VAtom a))
                        [Store.OList [Store.RObj 0]] 0).
  - apply self_list_has_cycle.
  - intros a p. by exists (VAtom a).
Defined.

(** C9 as stated fails: the list [l = [(), l]] contains itself, and
    [deep_map] raises DbtConfigError for the tuple it meets first. *)
Lemma deep_map_cycle_behind_tuple :
  Store.has_cycle [Store.OTuple []; Store.OList [Store.RObj 0; Store.RObj 1]] 1
  /\ Store.deep_map 1000 (fun a _ => Ok (VAtom a))
       [Store.OTuple []; Store.OList [Store.RObj 0; Store.RObj 1]] (Store.RObj 1)
     = Raise (DbtConfigError "tuple").
Proof.
  split; [|reflexivity].
  exists 1. split; [apply rtc_refl|]. apply tc_once.
  eexists. split; [reflexivity|]. simpl. apply list_elem_of_further, list_elem_of_here.
Qed.

(** ** copy.deepcopy on the store *)

Lemma Forall2_Forall_impl {A B} (R : B -> Prop) (P Q : A -> B -> Prop) l k :
  Forall R k -> Forall2 P l k ->
  (forall x y, R y -> P x y -> Q x y) -> Forall2 Q l k.
Proof.
  intros HR HP Himp. induction HP as [|x y l k Hxy HP IH]; [constructor|].
  apply Forall_cons in HR as [Hy HR]. constructor; auto.
Qed.

(** Reading a tree depends only on the containers it visits. *)
Lemma tree_in_weaken D D' st st' r t :
  (forall l o, D l -> st !! l = Some o -> D' l /\ st' !! l = Some o) ->
  Store.tree_in D st r t -> Store.tree_in D' st' r t.
Proof.
  intros HD. revert r.
  induction t as [a|ts IH|ts IH|d IH] using pyval_nested_ind; intros r H;
    inversion H as [|l rs ? Hl Hst HF|l rs ? Hl Hst HF|l items ? Hl Hst HF]; subst.
  - constructor.
  - destruct (HD _ _ Hl Hst). econstructor; [done|done|].
    eapply Forall2_Forall_impl; [exact IH|exact HF|]. auto.
  - destruct (HD _ _ Hl Hst). econstructor; [done|done|].
    eapply Forall2_Forall_impl; [exact IH|exact HF|]. auto.
  - destruct (HD _ _ Hl Hst). econstructor; [done|done|].
    eapply Forall2_Forall_impl; [exact IH|exact HF|].
    intros [k r'] [k' t'] Ht [Hk Hr]. split; [done|]. by apply Ht.
Qed.

(** A store position holds one tree at most. *)
Lemma tree_in_det D D' st r t1 t2 :
  Store.tree_in D st r t1 -> Store.tree_in D' st r t2 -> t1 = t2.
Proof.
  revert r t2.
  induction t1 as [a|ts IH|ts IH|d IH] using pyval_nested_ind; intros r t2 H1 H2;
    inversion H1 as [|l rs ? Hl Hst HF|l rs ? Hl Hst HF|l items ? Hl Hst HF]; subst;
    inversion H2 as [|l' rs' ts' Hl' Hst' HF'|l' rs' ts' Hl' Hst' HF'
                     |l' items' d' Hl' Hst' HF']; subst; try congruence.
  - f_equal. assert (rs' = rs) as -> by congruence. clear Hst Hst' H1 H2.
    revert ts' HF'. induction HF as [|r t rs ts Hr HF IHF]; intros ts' HF';
      inversion HF' as [|? t' ? ts'' Hr' HF'']; subst; [done|].
    apply Forall_cons in IH as [IHt IHts]. f_equal; eauto.
  - f_equal. assert (rs' = rs) as -> by congruence. clear Hst Hst' H1 H2.
    revert ts' HF'. induction HF as [|r t rs ts Hr HF IHF]; intros ts' HF';
      inversion HF' as [|? t' ? ts'' Hr' HF'']; subst; [done|].
    apply Forall_cons in IH as [IHt IHts]. f_equal; eauto.
  - f_equal. assert (items' = items) as -> by congruence. clear Hst Hst' H1 H2.
    revert d' HF'. induction HF as [|[k r] [k1 t] items d [Hk Hr] HF IHF]; intros d' HF';
      inversion HF' as [|? [k2 t'] ? d'' [Hk' Hr'] HF'']; subst; [done|].
    apply Forall_cons in IH as [IHt IHts]. simpl in *. subst. f_equal; eauto.
    f_equal. eauto.
Qed.

Lemma store_grows_length st st' : store_grows st st' -> length st <= length st'.
Proof.
  intros H. destruct st as [|o st] using rev_ind; [simpl; lia|].
  assert ((st ++ [o]) !! length st = Some o) as Hl.
  { rewrite lookup_app_r by lia. by rewrite Nat.sub_diag. }
  apply H, lookup_lt_Some in Hl. rewrite length_app. simpl. lia.
Qed.

Lemma tree_in_allocated D st r t l :
  Store.tree_in D st r t -> r = Store.RObj l -> l < length st.
Proof.
  intros H ->. inversion H; subst; by eapply lookup_lt_Some.
Qed.

(** Writing to a busy container keeps the invariant. *)
Lemma copy_inv_write st0 busy st memo y o :
  copy_inv st0 busy st memo -> y ∈ busy ->
  copy_inv st0 busy (<[y := o]> st) memo.
Proof.
  intros [Hp Hb Hr Hd] Hy. split.
  - destruct Hp as [k ->]. rewrite Forall_forall in Hb.
    destruct (Hb y Hy) as [Hy0 _].
    rewrite insert_app_r_alt by done. by eexists.
  - by rewrite length_insert.
  - intros l y'. rewrite length_insert. apply Hr.
  - intros l y' t Hm Hy' Ht. eapply tree_in_weaken; [|by eapply Hd].
    intros l' o' [Hl1 Hl2] Ho'. split; [done|].
    rewrite list_lookup_insert_ne; [done|]. by intros ->.
Qed.

Lemma copy_into_list_spec st0 busy y rec rs ts :
  Forall2 (Store.tree_of st0) rs ts ->
  Forall (copies_ok st0 busy rec) ts ->
  y ∈ busy ->
  forall ys0 st memo d,
    copy_inv st0 busy st memo ->
    busy_deeper st0 busy memo d ->
    Forall (fun t => depth t <= d) ts ->
    st !! y = Some (Store.OList ys0) ->
    exists st' memo' ys,
      Store.copy_into_list rec y rs memo st = Ok (memo', st')
      /\ copy_inv st0 busy st' memo'
      /\ (forall l o, l <> y -> st !! l = Some o -> st' !! l = Some o)
      /\ (forall l y', memo' !! l = Some y' -> y' ∈ busy -> memo !! l = Some y')
      /\ st' !! y = Some (Store.OList (ys0 ++ ys))
      /\ Forall2 (Store.tree_in (copied (length st0) busy) st') ys ts.
Proof.
  intros HF Hrec Hy.
  induction HF as [|r t rs ts Hr HF IH]; intros ys0 st memo d Hinv Hdeep Hd Hst.
  - exists st, memo, []. simpl. rewrite app_nil_r. eauto 10.
  - apply Forall_cons in Hrec as [Hrec1 Hrec]. apply Forall_cons in Hd as [Hd1 Hd].
    destruct (Hrec1 r st memo Hr Hinv) as (a & st1 & memo1 & E & Hinv1 & Hg1 & Hold1 & Ht1).
    { intros l y' t' Hm Hb Ht'. specialize (Hdeep _ _ _ Hm Hb Ht'). lia. }
    simpl. unfold Store.bindM at 1. rewrite E. simpl.
    unfold Store.bindM at 1. unfold Store.append, Store.bindM at 1, Store.load.
    rewrite (Hg1 _ _ Hst). simpl.
    set (st2 := <[y := Store.OList (ys0 ++ [a])]> st1).
    assert (copy_inv st0 busy st2 memo1) as Hinv2 by by apply copy_inv_write.
    destruct (IH Hrec (ys0 ++ [a]) st2 memo1 d Hinv2) as
      (st' & memo' & ys & E' & Hinv' & Hg' & Hold' & Hst' & Hts').
    { intros l y' t' Hm Hb Ht'. eapply Hdeep; [|done|done]. by apply Hold1. }
    { done. }
    { unfold st2. apply list_lookup_insert_eq. apply Hg1 in Hst.
      by eapply lookup_lt_Some. }
    exists st', memo', (a :: ys). split; [done|]. split; [done|].
    split; [|split; [|split]].
    + intros l o Hl Ho. apply Hg'; [done|]. unfold st2.
      rewrite list_lookup_insert_ne by done. by apply Hg1.
    + intros l y' Hm Hb. apply Hold1; [|done]. by apply Hold'.
    + by rewrite <- app_assoc in Hst'.
    + constructor; [|done]. eapply tree_in_weaken; [|exact Ht1].
      intros l o [Hl1 Hl2] Ho. split; [done|]. apply Hg'.
      * by intros ->.
      * unfold st2. rewrite list_lookup_insert_ne; [done|]. by intros ->.
Qed.

Lemma dict_set_fresh {V} key (v : V) d :
  key ∉ keys d -> dict_set key v d = d ++ [(key, v)].
Proof.
  induction d as [|[k w] d IH]; simpl; [done|].
  intros H. apply not_elem_of_cons in H as [Hne H].
  destruct (String.eqb k key) eqn:E.
  - apply String.eqb_eq in E. congruence.
  - by rewrite IH.
Qed.

Lemma copy_into_dict_spec st0 busy y rec items titems :
  Forall2 (fun kr kt => fst kr = fst kt /\ Store.tree_of st0 (snd kr) (snd kt))
          items titems ->
  Forall (fun kt => copies_ok st0 busy rec (snd kt)) titems ->
  y ∈ busy ->
  forall items0 st memo d,
    copy_inv st0 busy st memo ->
    busy_deeper st0 busy memo d ->
    Forall (fun kt => depth (snd kt) <= d) titems ->
    st !! y = Some (Store.ODict items0) ->
    NoDup (keys items0 ++ keys titems) ->
    exists st' memo' new,
      Store.copy_into_dict rec y items memo st = Ok (memo', st')
      /\ copy_inv st0 busy st' memo'
      /\ (forall l o, l <> y -> st !! l = Some o -> st' !! l = Some o)
      /\ (forall l y', memo' !! l = Some y' -> y' ∈ busy -> memo !! l = Some y')
      /\ st' !! y = Some (Store.ODict (items0 ++ new))
      /\ Forall2 (fun kr kt =>
                    fst kr = fst kt
                    /\ Store.tree_in (copied (length st0) busy) st' (snd kr) (snd kt))
                 new titems.
Proof.
  intros HF Hrec Hy.
  induction HF as [|[k r] [k' t] items titems [Hk Hr] HF IH];
    intros items0 st memo d Hinv Hdeep Hd Hst Hnd.
  - exists st, memo, []. simpl. rewrite app_nil_r. eauto 10.
  - simpl in Hk, Hr. subst k'.
    apply Forall_cons in Hrec as [Hrec1 Hrec]. apply Forall_cons in Hd as [Hd1 Hd].
    simpl in Hrec1, Hd1.
    destruct (Hrec1 r st memo Hr Hinv) as (a & st1 & memo1 & E & Hinv1 & Hg1 & Hold1 & Ht1).
    { intros l y' t' Hm Hb Ht'. specialize (Hdeep _ _ _ Hm Hb Ht'). lia. }
    simpl. unfold Store.bindM at 1. rewrite E. simpl.
    unfold Store.bindM at 1. unfold Store.setitem, Store.bindM at 1, Store.load.
    rewrite (Hg1 _ _ Hst). simpl.
    assert (k ∉ keys items0) as Hfresh.
    { simpl in Hnd. apply NoDup_app in Hnd as (_ & Hnd & _).
      intros Hin. apply (Hnd _ Hin). apply list_elem_of_here. }
    rewrite (dict_set_fresh k a items0 Hfresh).
    set (st2 := <[y := Store.ODict (items0 ++ [(k, a)])]> st1).
    assert (copy_inv st0 busy st2 memo1) as Hinv2 by by apply copy_inv_write.
    destruct (IH Hrec (items0 ++ [(k, a)]) st2 memo1 d Hinv2) as
      (st' & memo' & new & E' & Hinv' & Hg' & Hold' & Hst' & Hts').
    { intros l y' t' Hm Hb Ht'. eapply Hdeep; [|done|done]. by apply Hold1. }
    { done. }
    { unfold st2. apply list_lookup_insert_eq. apply Hg1 in Hst.
      by eapply lookup_lt_Some. }
    { unfold keys in *. rewrite map_app, <- app_assoc. exact Hnd. }
    exists st', memo', ((k, a) :: new). split; [done|]. split; [done|].
    split; [|split; [|split]].
    + intros l o Hl Ho. apply Hg'; [done|]. unfold st2.
      rewrite list_lookup_insert_ne by done. by apply Hg1.
    + intros l y' Hm Hb. apply Hold1; [|done]. by apply Hold'.
    + by rewrite <- app_assoc in Hst'.
    + constructor; [|done]. split; [done|]. simpl.
      eapply tree_in_weaken; [|exact Ht1].
      intros l o [Hl1 Hl2] Ho. split; [done|]. apply Hg'.
      * by intros ->.
      * unfold st2. rewrite list_lookup_insert_ne; [done|]. by intros ->.
Qed.

(** Entering a container: its empty copy is allocated, entered in the
    memo, and is busy until it is filled. *)
Lemma copy_inv_enter st0 busy st memo l o :
  copy_inv st0 busy st memo -> memo !! l = None ->
  copy_inv st0 (length st :: busy) (st ++ [o]) (<[l := length st]> memo).
Proof.
  intros [Hp Hb Hr Hd] Hm. pose proof (prefix_length _ _ Hp) as Hlen. split.
  - by apply prefix_app_r.
  - rewrite length_app. simpl. constructor; [lia|].
    eapply Forall_impl; [exact Hb|]. simpl. lia.
  - intros l' y'. rewrite length_app. simpl. rewrite lookup_insert.
    case_decide as Hc; [intros [= <-]; lia|]. intros H. apply Hr in H. lia.
  - intros l' y' t. rewrite lookup_insert. case_decide as Hc.
    + intros [= <-] Hy. destruct Hy. apply list_elem_of_here.
    + intros Hm' Hy' Ht. apply not_elem_of_cons in Hy' as [Hne Hy'].
      eapply tree_in_weaken; [|by eapply Hd].
      intros l2 o2 [Hl1 Hl2] Ho2. split.
      * split; [done|]. apply not_elem_of_cons. split; [|done].
        apply lookup_lt_Some in Ho2. lia.
      * rewrite lookup_app_l; [done|]. by eapply lookup_lt_Some.
Qed.

Lemma busy_deeper_enter st0 busy st memo l t d :
  copy_inv st0 busy st memo ->
  Store.tree_of st0 (Store.RObj l) t ->
  busy_deeper st0 busy memo (depth t) ->
  d < depth t ->
  busy_deeper st0 (length st :: busy) (<[l := length st]> memo) d.
Proof.
  intros Hinv Ht Hdeep Hd l' y' t'. rewrite lookup_insert. case_decide as Hc.
  - intros [= <-] _ Ht'. subst l'. by rewrite (tree_in_det _ _ _ _ _ _ Ht' Ht).
  - intros Hm Hy' Ht'. apply elem_of_cons in Hy' as [->|Hy'].
    + apply (inv_range _ _ _ _ Hinv) in Hm. lia.
    + specialize (Hdeep _ _ _ Hm Hy' Ht'). lia.
Qed.

(** Leaving a container: once filled, its copy is done. *)
Lemma copy_inv_leave st0 busy st memo st' memo' l t :
  copy_inv st0 busy st memo ->
  copy_inv st0 (length st :: busy) st' memo' ->
  (forall l' y', memo' !! l' = Some y' -> y' ∈ length st :: busy ->
                 <[l := length st]> memo !! l' = Some y') ->
  Store.tree_of st0 (Store.RObj l) t ->
  Store.tree_in (copied (length st0) busy) st' (Store.RObj (length st)) t ->
  copy_inv st0 busy st' memo'
  /\ (forall l' y', memo' !! l' = Some y' -> y' ∈ busy -> memo !! l' = Some y').
Proof.
  intros Hinv [Hp Hb Hr Hd] Hold Ht Hy.
  assert (length st ∉ busy) as Hfresh.
  { intros Hin. pose proof (inv_busy _ _ _ _ Hinv) as Hb0.
    rewrite Forall_forall in Hb0. apply Hb0 in Hin. lia. }
  assert (forall l' y', memo' !! l' = Some y' -> y' ∈ busy -> memo !! l' = Some y')
    as Hold'.
  { intros l' y' Hm Hy'. specialize (Hold _ _ Hm (list_elem_of_further _ _ _ Hy')).
    rewrite lookup_insert in Hold. case_decide; [|done].
    injection Hold as <-. done. }
  split; [|done]. split; [done| |done|].
  - by apply Forall_cons in Hb as [_ Hb].
  - intros l' y' t' Hm Hy' Ht'. destruct (decide (y' = length st)) as [->|Hne].
    + specialize (Hold _ _ Hm (list_elem_of_here _ _)).
      rewrite lookup_insert in Hold. case_decide as Hc.
      * subst l'. by rewrite (tree_in_det _ _ _ _ _ _ Ht' Ht).
      * apply (inv_range _ _ _ _ Hinv) in Hold. lia.
    + eapply tree_in_weaken; [|eapply Hd; [done| |done]].
      * intros l2 o2 [Hl1 Hl2] Ho2. split; [|done]. split; [done|].
        intros Hin. apply Hl2. by apply list_elem_of_further.
      * apply not_elem_of_cons. done.
Qed.

Lemma deepcopy_memo_hit fuel l y memo st :
  memo !! l = Some y ->
  Store.deepcopy_memo (S fuel) (Store.RObj l) memo st = Ok ((Store.RObj y, memo), st).
Proof. intros H. simpl. by rewrite H. Qed.

Lemma deepcopy_memo_list fuel l memo st elems :
  memo !! l = None -> st !! l = Some (Store.OList elems) ->
  Store.deepcopy_memo (S fuel) (Store.RObj l) memo st
  = match Store.copy_into_list (Store.deepcopy_memo fuel) (length st) elems
            (<[l := length st]> memo) (st ++ [Store.OList []]) with
    | Ok (memo', st') => Ok ((Store.RObj (length st), memo'), st')
    | Raise e => Raise e
    end.
Proof.
  intros Hm Hst. simpl. rewrite Hm. unfold Store.bindM, Store.load. rewrite Hst.
  simpl. by destruct (Store.copy_into_list _ _ _ _ _) as [[? ?]|].
Qed.

Lemma deepcopy_memo_dict fuel l memo st items :
  memo !! l = None -> st !! l = Some (Store.ODict items) ->
  Store.deepcopy_memo (S fuel) (Store.RObj l) memo st
  = match Store.copy_into_dict (Store.deepcopy_memo fuel) (length st) items
            (<[l := length st]> memo) (st ++ [Store.ODict []]) with
    | Ok (memo', st') => Ok ((Store.RObj (length st), memo'), st')
    | Raise e => Raise e
    end.
Proof.
  intros Hm Hst. simpl. rewrite Hm. unfold Store.bindM, Store.load. rewrite Hst.
  simpl. by destruct (Store.copy_into_dict _ _ _ _ _) as [[? ?]|].
Qed.

Lemma max_list_le (f : pyval -> nat) ts :
  Forall (fun t => f t <= max_list (map f ts)) ts.
Proof.
  induction ts as [|t ts IH]; [constructor|]. simpl. constructor; [lia|].
  eapply Forall_impl; [exact IH|]. simpl. lia.
Qed.

(** [deepcopy] of a well-formed tree, in any state of a copying pass. *)
Lemma deepcopy_memo_spec st0 t :
  well_formed t = true ->
  forall fuel busy, depth t < fuel ->
    copies_ok st0 busy (Store.deepcopy_memo fuel) t.
Proof.
  induction t as [a|ts IH|ts _|d IH] using pyval_nested_ind;
    intros Hwf fuel busy Hfuel x st memo Htree Hinv Hdeep.
  - inversion Htree; subst. destruct fuel; [lia|].
    exists (Store.RAtom a), st, memo. split; [done|]. split; [done|].
    split; [by intros ? ?|]. split; [done|]. constructor.
  - inversion Htree as [|l rs ? _ Hl HF| |]; subst.
    destruct fuel as [|fuel]; [lia|]. simpl in Hfuel.
    destruct (memo !! l) as [y|] eqn:Hm.
    + rewrite (deepcopy_memo_hit _ _ _ _ _ Hm).
      destruct (decide (y ∈ busy)) as [Hy|Hy].
      { specialize (Hdeep _ _ _ Hm Hy Htree). lia. }
      exists (Store.RObj y), st, memo. split; [done|]. split; [done|].
      split; [by intros ? ?|]. split; [done|]. by eapply inv_done.
    + pose proof (prefix_lookup_Some _ _ _ _ Hl (inv_prefix _ _ _ _ Hinv)) as Hst.
      rewrite (deepcopy_memo_list _ _ _ _ _ Hm Hst).
      pose proof (copy_inv_enter _ _ _ _ l (Store.OList []) Hinv Hm) as Hinv1.
      assert (busy_deeper st0 (length st :: busy) (<[l := length st]> memo)
                          (max_list (map depth ts))) as Hdeep1.
      { eapply busy_deeper_enter; [done|exact Htree|done|simpl; lia]. }
      destruct (copy_into_list_spec st0 (length st :: busy) (length st)
                  (Store.deepcopy_memo fuel) rs ts HF) with
        (ys0 := @nil Store.ref) (st := st ++ [Store.OList []])
        (memo := <[l := length st]> memo) (d := max_list (map depth ts))
        as (st' & memo' & ys & E & Hinv' & Hg' & Hold' & Hst' & Hts'); try done.
      { simpl in Hwf. rewrite forallb_forall in Hwf.
        pose proof (max_list_le depth ts) as Hmax.
        rewrite Forall_forall in IH, Hmax. apply Forall_forall. intros t Ht.
        apply IH; [done| |].
        - apply Hwf. by apply list_elem_of_In.
        - specialize (Hmax _ Ht). simpl in Hmax. lia. }
      { apply list_elem_of_here. }
      { apply max_list_le. }
      { rewrite lookup_app_r by lia. by rewrite Nat.sub_diag. }
      rewrite E. simpl in Hst'.
      assert (Store.tree_in (copied (length st0) busy) st'
                            (Store.RObj (length st)) (VList ts)) as Hcopy.
      { econstructor; [|exact Hst'|].
        - split; [apply prefix_length, (inv_prefix _ _ _ _ Hinv)|].
          intros Hin. pose proof (inv_busy _ _ _ _ Hinv) as Hb.
          rewrite Forall_forall in Hb. apply Hb in Hin. lia.
        - eapply Forall2_impl; [exact Hts'|]. intros r t Hrt.
          eapply tree_in_weaken; [|exact Hrt].
          intros l2 o2 [Hl1 Hl2] Ho2. split; [|done]. split; [done|].
          intros Hin. apply Hl2. by apply list_elem_of_further. }
      destruct (copy_inv_leave _ _ _ _ _ _ _ _ Hinv Hinv' Hold' Htree Hcopy)
        as [Hinv2 Hold2].
      exists (Store.RObj (length st)), st', memo'. split; [done|]. split; [done|].
      split; [|done].
      intros l2 o2 Ho2. apply Hg'.
      * apply lookup_lt_Some in Ho2. lia.
      * rewrite lookup_app_l; [done|]. by eapply lookup_lt_Some.
  - done.
  - inversion Htree as [| | |l items ? _ Hl HF]; subst.
    destruct fuel as [|fuel]; [lia|]. simpl in Hfuel.
    destruct (memo !! l) as [y|] eqn:Hm.
    + rewrite (deepcopy_memo_hit _ _ _ _ _ Hm).
      destruct (decide (y ∈ busy)) as [Hy|Hy].
      { specialize (Hdeep _ _ _ Hm Hy Htree). lia. }
      exists (Store.RObj y), st, memo. split; [done|]. split; [done|].
      split; [by intros ? ?|]. split; [done|]. by eapply inv_done.
    + pose proof (prefix_lookup_Some _ _ _ _ Hl (inv_prefix _ _ _ _ Hinv)) as Hst.
      rewrite (deepcopy_memo_dict _ _ _ _ _ Hm Hst).
      pose proof (copy_inv_enter _ _ _ _ l (Store.ODict []) Hinv Hm) as Hinv1.
      assert (busy_deeper st0 (length st :: busy) (<[l := length st]> memo)
                          (max_list (map (fun kv => depth (snd kv)) d))) as Hdeep1.
      { eapply busy_deeper_enter; [done|exact Htree|done|simpl; lia]. }
      simpl in Hwf. apply andb_prop in Hwf as [Hnd Hwf].
      apply bool_decide_eq_true in Hnd.
      destruct (copy_into_dict_spec st0 (length st :: busy) (length st)
                  (Store.deepcopy_memo fuel) items d HF) with
        (items0 := @nil (string * Store.ref)) (st := st ++ [Store.ODict []])
        (memo := <[l := length st]> memo)
        (d := max_list (map (fun kv => depth (snd kv)) d))
        as (st' & memo' & new & E & Hinv' & Hg' & Hold' & Hst' & Hts'); try done.
      { rewrite forallb_forall in Hwf.
        assert (Forall (fun kv : string * pyval =>
                          depth (snd kv) <= max_list (map (fun kv => depth (snd kv)) d)) d)
          as Hmax.
        { clear. induction d as [|kv d IHd]; [constructor|]. simpl.
          constructor; [lia|]. eapply Forall_impl; [exact IHd|]. simpl. lia. }
        rewrite Forall_forall in IH, Hmax. apply Forall_forall. intros kv Hkv.
        apply IH; [done| |].
        - apply Hwf. by apply list_elem_of_In.
        - specialize (Hmax _ Hkv). simpl in Hmax. lia. }
      { apply list_elem_of_here. }
      { clear. induction d as [|kv d IHd]; [constructor|]. simpl.
        constructor; [lia|]. eapply Forall_impl; [exact IHd|]. simpl. lia. }
      { rewrite lookup_app_r by lia. by rewrite Nat.sub_diag. }
      rewrite E. simpl in Hst'.
      assert (Store.tree_in (copied (length st0) busy) st'
                            (Store.RObj (length st)) (VDict d)) as Hcopy.
      { econstructor; [|exact Hst'|].
        - split; [apply prefix_length, (inv_prefix _ _ _ _ Hinv)|].
          intros Hin. pose proof (inv_busy _ _ _ _ Hinv) as Hb.
          rewrite Forall_forall in Hb. apply Hb in Hin. lia.
        - eapply Forall2_impl; [exact Hts'|]. intros [k r] [k' t] [Hk Hrt].
          split; [done|]. eapply tree_in_weaken; [|exact Hrt].
          intros l2 o2 [Hl1 Hl2] Ho2. split; [|done]. split; [done|].
          intros Hin. apply Hl2. by apply list_elem_of_further. }
      destruct (copy_inv_leave _ _ _ _ _ _ _ _ Hinv Hinv' Hold' Htree Hcopy)
        as [Hinv2 Hold2].
      exists (Store.RObj (length st)), st', memo'. split; [done|]. split; [done|].
      split; [|done].
      intros l2 o2 Ho2. apply Hg'.
      * apply lookup_lt_Some in Ho2. lia.
      * rewrite lookup_app_l; [done|]. by eapply lookup_lt_Some.
Qed.

Lemma deepcopy_spec fuel st x t :
  Store.tree_of st x t -> well_formed t = true -> depth t < fuel ->
  exists y st',
    Store.deepcopy fuel x st = Ok (y, st')
    /\ Store.tree_in (fun l => length st <= l) st' y t
    /\ store_grows st st'.
Proof.
  intros Htree Hwf Hfuel.
  destruct (deepcopy_memo_spec st t Hwf fuel [] Hfuel x st ∅ Htree)
    as (y & st' & memo' & E & _ & Hg & _ & Ht).
  - split; [done|constructor| |].
    + intros l y Hm. by rewrite lookup_empty in Hm.
    + intros l y t' Hm. by rewrite lookup_empty in Hm.
  - intros l y t' _ Hin. by apply elem_of_nil in Hin.
  - exists y, st'. unfold Store.deepcopy, Store.bindM. rewrite E. simpl.
    split; [done|]. split; [|done].
    eapply tree_in_weaken; [|exact Ht]. by intros l o [? _] ?.
Qed.

(** C7: [deep_merge] of the single argument [x], a well-formed Tree,
    returns a value that reads the same tree as [x] and is made of
    containers allocated by the call only; [x] still reads its tree from
    the containers it had; nothing of the given store has changed; and a
    later write to a container of either leaves the other as it is. *)
Theorem deep_merge_single_copy (fuel : nat) (st : Store.store) (x : Store.ref)
    (t : pyval) :
  Store.tree_of st x t -> well_formed t = true -> S (depth t) < fuel ->
  exists y st',
    Store.deep_merge fuel [x] st = Ok (y, st')
    /\ deep_merge [t] = Ok t
    /\ Store.tree_in (fun l => length st <= l) st' y t
    /\ Store.tree_in (fun l => l < length st) st' x t
    /\ store_grows st st'
    /\ (forall l o, length st <= l -> Store.tree_of (<[l := o]> st') x t)
    /\ (forall l o, l < length st -> Store.tree_of (<[l := o]> st') y t).
Proof.
  intros Htree Hwf Hfuel. destruct fuel as [|fuel]; [lia|].
  destruct (deepcopy_spec fuel st x t Htree Hwf) as (y & st' & E & Hy & Hg); [lia|].
  assert (Store.tree_in (fun l => l < length st) st' x t) as Hx.
  { eapply tree_in_weaken; [|exact Htree]. intros l o _ Ho. split; [|by apply Hg].
    by eapply lookup_lt_Some. }
  exists y, st'. split; [exact E|]. split; [done|]. split; [done|].
  split; [done|]. split; [done|]. split.
  - intros l o Hl. eapply tree_in_weaken; [|exact Hx].
    intros l' o' Hl' Ho'. simpl in Hl'. split; [done|].
    rewrite list_lookup_insert_ne; [done|]. lia.
  - intros l o Hl. eapply tree_in_weaken; [|exact Hy].
    intros l' o' Hl' Ho'. simpl in Hl'. split; [done|].
    rewrite list_lookup_insert_ne; [done|]. lia.
Qed.

Lemma deep_merge_single_copy_witness :
  exists y st',
    Store.deep_merge 5 [Store.RObj 1]
      [Store.OList [Store.RAtom (SInt 1)]; Store.ODict [("x", Store.RObj 0)]]
    = Ok (y, st')
    /\ Store.tree_in (fun l => 2 <= l) st' y (VDict [("x", VList [VInt 1])]).
Proof.
  destruct (deep_merge_single_copy 5
              [Store.OList [Store.RAtom (SInt 1)]; Store.ODict [("x", Store.RObj 0)]]
              (Store.RObj 1) (VDict [("x", VList [VInt 1])]))
    as (y & st' & E & _ & Hy & _).
  - unfold Store.tree_of. repeat econstructor.
  - reflexivity.
  - vm_compute. lia.
  - exists y, st'. split; [exact E | exact Hy].
Defined.

(** ** The merge on the store refines the merge on trees *)

(** Every container visited while reading [t] holds a tree no deeper than [t];
    so a container that holds a deeper tree is not visited. *)
Lemma tree_in_avoid D st r t l0 t0 :
  Store.tree_in D st r t -> Store.tree_of st (Store.RObj l0) t0 ->
  depth t < depth t0 ->
  Store.tree_in (fun l => D l /\ l <> l0) st r t.
Proof.
  intros H H0. revert r H.
  induction t as [a|ts IH|ts IH|d IH] using pyval_nested_ind; intros r H Hd;
    inversion H as [|l rs ? Hl Hst HF|l rs ? Hl Hst HF|l items ? Hl Hst HF]; subst.
  - constructor.
  - assert (l <> l0) as Hne.
    { intros ->. pose proof (tree_in_det _ _ _ _ _ _ H H0) as <-. lia. }
    econstructor; [done|done|].
    pose proof (max_list_le depth ts) as Hmax.
    rewrite Forall_forall in IH, Hmax.
    eapply Forall2_Forall_impl; [apply Forall_forall; exact (fun x Hx => conj (IH x Hx) (Hmax x Hx))|exact HF|].
    simpl. intros r t [IHt Ht] Hrt. apply IHt; [done|]. simpl in Hd. lia.
  - assert (l <> l0) as Hne.
    { intros ->. pose proof (tree_in_det _ _ _ _ _ _ H H0) as <-. lia. }
    econstructor; [done|done|].
    pose proof (max_list_le depth ts) as Hmax.
    rewrite Forall_forall in IH, Hmax.
    eapply Forall2_Forall_impl; [apply Forall_forall; exact (fun x Hx => conj (IH x Hx) (Hmax x Hx))|exact HF|].
    simpl. intros r t [IHt Ht] Hrt. apply IHt; [done|]. simpl in Hd. lia.
  - assert (l <> l0) as Hne.
    { intros ->. pose proof (tree_in_det _ _ _ _ _ _ H H0) as <-. lia. }
    econstructor; [done|done|].
    assert (Forall (fun kv : string * pyval =>
                      depth (snd kv) <= max_list (map (fun kv => depth (snd kv)) d)) d)
      as Hmax.
    { clear. induction d as [|kv d IHd]; [constructor|]. simpl.
      constructor; [lia|]. eapply Forall_impl; [exact IHd|]. simpl. lia. }
    rewrite Forall_forall in IH, Hmax.
    eapply Forall2_Forall_impl; [apply Forall_forall; exact (fun x Hx => conj (IH x Hx) (Hmax x Hx))|exact HF|].
    simpl. intros [k r] [k' t] [IHt Ht] [Hk Hrt]. split; [done|].
    apply IHt; [done|]. simpl in *. lia.
Qed.

Lemma Forall2_dict_get {V W} (P : V -> W -> Prop) key items d :
  Forall2 (fun kr kt => fst kr = fst kt /\ P (snd kr) (snd kt)) items d ->
  match dict_get key items, dict_get key d with
  | Some r, Some t => P r t
  | None, None => True
  | _, _ => False
  end.
Proof.
  induction 1 as [|[k r] [k' t] items d [Hk Hr] HF IH]; simpl; [done|].
  simpl in Hk. subst k'. by destruct (String.eqb k key).
Qed.

Lemma Forall2_dict_set {V W} (P : V -> W -> Prop) key v tv items d :
  Forall2 (fun kr kt => fst kr = fst kt /\ P (snd kr) (snd kt)) items d ->
  P v tv ->
  Forall2 (fun kr kt => fst kr = fst kt /\ P (snd kr) (snd kt))
          (dict_set key v items) (dict_set key tv d).
Proof.
  intros HF Hv. induction HF as [|[k r] [k' t] items d [Hk Hr] HF IH]; simpl.
  - by constructor.
  - simpl in Hk. subst k'. destruct (String.eqb k key); by constructor.
Qed.

Lemma depth_dict_get key d t :
  dict_get key d = Some t -> depth t < depth (VDict d).
Proof.
  intros H. apply dict_get_elem_of in H. simpl.
  assert (depth t <= max_list (map (fun kv => depth (snd kv)) d)); [|lia].
  induction d as [|kv d IH]; [by apply elem_of_nil in H|].
  simpl. apply elem_of_cons in H as [<-|H]; [simpl; lia|].
  specialize (IH H). lia.
Qed.

(** The values stored in a dict are read without visiting the dict. *)
Lemma dict_children_avoid D st ld items d :
  Store.tree_in D st (Store.RObj ld) (VDict d) ->
  st !! ld = Some (Store.ODict items) ->
  Forall2 (fun kr kt => fst kr = fst kt
                        /\ Store.tree_in (fun l => D l /\ l <> ld) st (snd kr) (snd kt))
          items d.
Proof.
  intros H Hst. inversion H as [| | |? items' ? Hl Hst' HF]; subst.
  assert (items' = items) as -> by congruence.
  assert (Forall (fun kt : string * pyval => depth (snd kt) < depth (VDict d)) d) as Hd.
  { simpl. clear. induction d as [|kv d IHd]; [constructor|]. simpl.
    constructor; [lia|]. eapply Forall_impl; [exact IHd|]. simpl. lia. }
  eapply Forall2_Forall_impl; [exact Hd|exact HF|].
  intros [k r] [k' t] Hdt [Hk Hr]. split; [done|].
  eapply (tree_in_avoid _ _ _ _ ld (VDict d)); [exact Hr| |exact Hdt].
  eapply tree_in_weaken; [|exact H]. by intros l o _ Ho.
Qed.

Lemma tree_in_write D st r t ld o :
  Store.tree_in (fun l => D l /\ l <> ld) st r t ->
  Store.tree_in D (<[ld := o]> st) r t.
Proof.
  apply tree_in_weaken. intros l o' [Hl Hne] Ho'. split; [done|].
  by rewrite list_lookup_insert_ne.
Qed.

(** [destination[key] = v] on the store is [dict_set] on the tree. *)
Lemma setitem_tree D st ld items d key v tv :
  Store.tree_in D st (Store.RObj ld) (VDict d) ->
  st !! ld = Some (Store.ODict items) ->
  Store.tree_in (fun l => D l /\ l <> ld) st v tv ->
  Store.tree_in D (<[ld := Store.ODict (dict_set key v items)]> st)
                (Store.RObj ld) (VDict (dict_set key tv d)).
Proof.
  intros H Hst Hv.
  pose proof (dict_children_avoid _ _ _ _ _ H Hst) as HF.
  inversion H as [| | |? items' ? Hl _ _]; subst.
  econstructor; [done| |].
  - apply list_lookup_insert_eq. by eapply lookup_lt_Some.
  - apply Forall2_dict_set.
    + eapply Forall2_impl; [exact HF|]. intros [k r] [k' t] [Hk Hr].
      split; [done|]. by apply tree_in_write.
    + by apply tree_in_write.
Qed.

Lemma setitem_run st ld items key v :
  st !! ld = Some (Store.ODict items) ->
  Store.setitem (Store.RObj ld) key v st
  = Ok (tt, <[ld := Store.ODict (dict_set key v items)]> st).
Proof. intros H. unfold Store.setitem, Store.bindM, Store.load. by rewrite H. Qed.

(** [list(x)] on the store is [py_list] on the tree. *)
Lemma py_list_refines D st x t :
  Store.tree_in D st x t ->
  match py_list t with
  | Ok ts => exists ys, Store.py_list x st = Ok (ys, st)
                        /\ Forall2 (Store.tree_in D st) ys ts
  | Raise e => Store.py_list x st = Raise e
  end.
Proof.
  intros H.
  inversion H as [a|l rs ? Hl Hst HF|l rs ? Hl Hst HF|l items ? Hl Hst HF]; subst;
    simpl.
  - destruct a; try done. eexists. split; [done|].
    induction (chars s); simpl; constructor; [constructor|done].
  - exists rs. unfold Store.bindM, Store.load. rewrite Hst. done.
  - exists rs. unfold Store.bindM, Store.load. rewrite Hst. done.
  - eexists. unfold Store.bindM, Store.load. rewrite Hst. split; [done|].
    clear Hst H. induction HF as [|[k r] [k' t] items d [Hk Hr] HF IH]; simpl;
      constructor; [|done]. simpl in Hk. subst. constructor.
Qed.

Ltac run_store :=
  cbv beta iota delta [Store.deep_merge_item Store.bindM Store.deref Store.load
                       Store.ret Store.raise Store.alloc].

Lemma tree_of_in D st r t : Store.tree_in D st r t -> Store.tree_of st r t.
Proof. apply tree_in_weaken. by intros l o _ Ho. Qed.

Lemma tree_in_grows D st st' r t :
  store_grows st st' -> Store.tree_in D st r t -> Store.tree_in D st' r t.
Proof. intros Hg. apply tree_in_weaken. intros l o Hl Ho. split; [done|]. by apply Hg. Qed.

Lemma store_grows_app st k : store_grows st (st ++ k).
Proof. intros l o Ho. rewrite lookup_app_l; [done|]. by eapply lookup_lt_Some. Qed.

Lemma deep_merge_item_refines rec f n st dest dest_t key value value_t :
  n <= length st ->
  Store.tree_in (fun l => n <= l) st dest dest_t ->
  Store.tree_in (fun l => n <= l /\ dest <> Store.RObj l) st value value_t ->
  (forall d, dest_t = VDict d -> is_dict value_t = true ->
             rec_ok rec f (default (VDict []) (dict_get key d)) value_t) ->
  match deep_merge_item f dest_t key value_t with
  | Ok dest_t' =>
      exists st',
        Store.deep_merge_item rec dest key value st = Ok (tt, st')
        /\ Store.tree_in (fun l => n <= l) st' dest dest_t'
        /\ (forall l o, dest <> Store.RObj l -> st !! l = Some o -> st' !! l = Some o)
        /\ length st <= length st'
  | Raise e => Store.deep_merge_item rec dest key value st = Raise e
  end.
Proof.
  intros Hn Hdest Hvalue Hrec.
  assert (forall ld items d v tv st1,
             dest = Store.RObj ld ->
             Store.tree_in (fun l => n <= l) st1 (Store.RObj ld) (VDict d) ->
             st1 !! ld = Some (Store.ODict items) ->
             Store.tree_in (fun l => n <= l /\ l <> ld) st1 v tv ->
             (forall l o, dest <> Store.RObj l -> st !! l = Some o -> st1 !! l = Some o) ->
             length st <= length st1 ->
             exists st',
               Store.setitem dest key v st1 = Ok (tt, st')
               /\ Store.tree_in (fun l => n <= l) st' dest (VDict (dict_set key tv d))
               /\ (forall l o, dest <> Store.RObj l -> st !! l = Some o ->
                               st' !! l = Some o)
               /\ length st <= length st') as Hset.
  { intros ld items d v tv st1 -> Hd Hst1 Hv Hkeep Hlen.
    rewrite (setitem_run _ _ _ _ _ Hst1). eexists. split; [done|].
    split; [|split].
    - by apply setitem_tree.
    - intros l o Hl Ho. rewrite list_lookup_insert_ne; [by apply Hkeep|].
      intros ->. done.
    - by rewrite length_insert. }
  inversion Hvalue as [a|lv rs ts Hlv Hstv HFv|lv rs ts Hlv Hstv HFv
                       |lv vitems m Hlv Hstv HFv]; subst.
  - (* a scalar *)
    inversion Hdest as [a'|ld rs ts Hld Hstd HFd|ld rs ts Hld Hstd HFd
                        |ld items d Hld Hstd HFd]; subst; simpl;
      try (run_store; rewrite ?Hstd; done).
    run_store. rewrite Hstd. cbv beta iota.
    eapply (Hset ld _ _ _ _ _ eq_refl); [exact Hdest|exact Hstd|constructor|done|done].
  - (* a list *)
    inversion Hdest as [a'|ld rs' ts' Hld Hstd HFd|ld rs' ts' Hld Hstd HFd
                        |ld items d Hld Hstd HFd]; subst; simpl;
      try (run_store; rewrite ?Hstv, ?Hstd; done).
    run_store. rewrite Hstv, Hstd. cbv beta iota.
    pose proof (dict_children_avoid _ _ _ _ _ Hdest Hstd) as Hch.
    pose proof (Forall2_dict_get _ key _ _ Hch) as Hget. simpl in Hget.
    destruct (dict_get key items) as [old|], (dict_get key d) as [told|]; try done.
    + pose proof (py_list_refines _ _ _ _ Hget) as Hpl.
      destruct (py_list told) as [tys|e]; simpl.
      * destruct Hpl as (ys & -> & Hys). cbv beta iota.
        eapply (Hset ld _ _ _ _ _ eq_refl).
        -- eapply tree_in_grows; [apply store_grows_app|exact Hdest].
        -- apply store_grows_app. exact Hstd.
        -- econstructor.
           ++ split; [done|]. apply lookup_lt_Some in Hstd. lia.
           ++ rewrite lookup_app_r by lia. by rewrite Nat.sub_diag.
           ++ apply Forall2_app.
              ** eapply Forall2_impl; [exact HFv|]. intros r t Hrt.
                 eapply tree_in_weaken; [|exact Hrt].
                 intros l o [Hl1 Hl2] Ho. split; [split; [done|congruence]|].
                 by apply store_grows_app.
              ** eapply Forall2_impl; [exact Hys|]. intros r t Hrt.
                 eapply tree_in_grows; [apply store_grows_app|done].
        -- intros l o _ Ho. by apply store_grows_app.
        -- rewrite length_app. lia.
      * by rewrite Hpl.
    + eapply (Hset ld _ _ _ _ _ eq_refl); [exact Hdest|exact Hstd| |done|done].
      eapply tree_in_weaken; [|exact Hvalue].
      intros l o [Hl1 Hl2] Ho. split; [split; [done|congruence]|done].
  - (* a tuple *)
    inversion Hdest as [a'|ld rs' ts' Hld Hstd HFd|ld rs' ts' Hld Hstd HFd
                        |ld items d Hld Hstd HFd]; subst; simpl;
      try (run_store; rewrite ?Hstv, ?Hstd; done).
    run_store. rewrite Hstv, Hstd. cbv beta iota.
    pose proof (dict_children_avoid _ _ _ _ _ Hdest Hstd) as Hch.
    pose proof (Forall2_dict_get _ key _ _ Hch) as Hget. simpl in Hget.
    destruct (dict_get key items) as [old|], (dict_get key d) as [told|]; try done.
    + pose proof (py_list_refines _ _ _ _ Hget) as Hpl.
      destruct (py_list told) as [tys|e]; simpl.
      * destruct Hpl as (ys & -> & Hys). cbv beta iota.
        eapply (Hset ld _ _ _ _ _ eq_refl).
        -- eapply tree_in_grows; [apply store_grows_app|exact Hdest].
        -- apply store_grows_app. exact Hstd.
        -- econstructor.
           ++ split; [done|]. apply lookup_lt_Some in Hstd. lia.
           ++ rewrite lookup_app_r by lia. by rewrite Nat.sub_diag.
           ++ apply Forall2_app.
              ** eapply Forall2_impl; [exact HFv|]. intros r t Hrt.
                 eapply tree_in_weaken; [|exact Hrt].
                 intros l o [Hl1 Hl2] Ho. split; [split; [done|congruence]|].
                 by apply store_grows_app.
              ** eapply Forall2_impl; [exact Hys|]. intros r t Hrt.
                 eapply tree_in_grows; [apply store_grows_app|done].
        -- intros l o _ Ho. by apply store_grows_app.
        -- rewrite length_app. lia.
      * by rewrite Hpl.
    + eapply (Hset ld _ _ _ _ _ eq_refl); [exact Hdest|exact Hstd| |done|done].
      eapply tree_in_weaken; [|exact Hvalue].
      intros l o [Hl1 Hl2] Ho. split; [split; [done|congruence]|done].
  - (* a dict *)
    inversion Hdest as [a'|ld rs' ts' Hld Hstd HFd|ld rs' ts' Hld Hstd HFd
                        |ld items d Hld Hstd HFd]; subst; simpl;
      try (run_store; rewrite ?Hstv, ?Hstd; done).
    specialize (Hrec d eq_refl eq_refl).
    run_store. rewrite Hstv, Hstd. cbv beta iota.
    pose proof (dict_children_avoid _ _ _ _ _ Hdest Hstd) as Hch.
    pose proof (Forall2_dict_get _ key _ _ Hch) as Hget. simpl in Hget.
    unfold dict_contains.
    destruct (dict_get key items) as [nd|] eqn:Ei, (dict_get key d) as [node_t|] eqn:Ed;
      try done; simpl in Hrec |- *.
    + (* the key is there *)
      specialize (Hrec st nd (Store.RObj lv) (tree_of_in _ _ _ _ Hget)
                       (tree_of_in _ _ _ _ Hvalue)).
      unfold merge_ok in Hrec.
      destruct (f node_t (VDict m)) as [merged|e]; simpl.
      * destruct Hrec as (y & st1 & -> & Hg & Hy). cbv beta iota.
        eapply (Hset ld _ _ _ _ _ eq_refl).
        -- eapply tree_in_grows; [exact Hg|exact Hdest].
        -- apply Hg. exact Hstd.
        -- eapply tree_in_weaken; [|exact Hy].
           intros l o Hl Ho. split; [|done]. apply lookup_lt_Some in Hstd.
           simpl in Hl. lia.
        -- intros l o _ Ho. by apply Hg.
        -- by apply store_grows_length.
      * by rewrite Hrec.
    + (* setdefault enters an empty dict *)
      set (n1 := length st).
      set (st1 := st ++ [Store.ODict []]).
      assert (st1 !! ld = Some (Store.ODict items)) as Hstd1
        by by apply store_grows_app.
      cbv beta iota delta [Store.setitem Store.bindM Store.load Store.write].
      fold st1. rewrite Hstd1. cbv beta iota. fold n1.
      set (st2 := <[ld := Store.ODict (dict_set key (Store.RObj n1) items)]> st1).
      assert (ld < n1) as Hldn by (by eapply lookup_lt_Some).
      assert (Store.tree_in (fun l => n <= l) st2 (Store.RObj ld)
                            (VDict (dict_set key (VDict []) d))) as Hdest2.
      { apply setitem_tree; [|done|].
        - eapply tree_in_grows; [apply store_grows_app|done].
        - econstructor; [split; [unfold n1; lia|lia]| |constructor].
          unfold st1, n1. rewrite lookup_app_r by lia. by rewrite Nat.sub_diag. }
      assert (forall l o, Store.RObj ld <> Store.RObj l -> st !! l = Some o ->
                          st2 !! l = Some o) as Hkeep2.
      { intros l o Hl Ho. unfold st2. rewrite list_lookup_insert_ne by congruence.
        by apply store_grows_app. }
      assert (Store.tree_of st2 (Store.RObj n1) (VDict [])) as Hnode.
      { econstructor; [done| |constructor]. unfold st2.
        rewrite list_lookup_insert_ne by lia. unfold st1, n1.
        rewrite lookup_app_r by lia. by rewrite Nat.sub_diag. }
      assert (Store.tree_of st2 (Store.RObj lv) (VDict m)) as Hvalue2.
      { eapply tree_in_weaken; [|exact Hvalue].
        intros l o [Hl1 Hl2] Ho. split; [done|]. by apply Hkeep2. }
      specialize (Hrec st2 (Store.RObj n1) (Store.RObj lv) Hnode Hvalue2).
      unfold merge_ok in Hrec.
      destruct (f (VDict []) (VDict m)) as [merged|e]; simpl.
      * destruct Hrec as (y & st3 & -> & Hg & Hy). cbv beta iota.
        assert (st3 !! ld = Some (Store.ODict (dict_set key (Store.RObj n1) items)))
          as Hstd3.
        { apply Hg. unfold st2. apply list_lookup_insert_eq.
          unfold st1. rewrite length_app. simpl. lia. }
        eapply (Hset ld _ _ _ _ _ eq_refl); [|exact Hstd3| | |].
        -- eapply tree_in_grows; [exact Hg|exact Hdest2].
        -- eapply tree_in_weaken; [|exact Hy].
           intros l o Hl Ho. split; [|done]. simpl in Hl. unfold st2 in Hl.
           rewrite length_insert in Hl. unfold st1 in Hl. rewrite length_app in Hl.
           simpl in Hl. lia.
        -- intros l o Hl Ho. apply Hg. by apply Hkeep2.
        -- apply store_grows_length in Hg. unfold st2 in Hg.
           rewrite length_insert in Hg. unfold st1 in Hg. rewrite length_app in Hg.
           lia.
      * by rewrite Hrec.
Qed.

Lemma merge_items_refines rec f n dest items titems :
  Forall2 (fun kr kt => fst kr = fst kt) items titems ->
  forall st dest_t,
    n <= length st ->
    Store.tree_in (fun l => n <= l) st dest dest_t ->
    Forall2 (fun kr kt =>
               fst kr = fst kt
               /\ Store.tree_in (fun l => n <= l /\ dest <> Store.RObj l) st
                                (snd kr) (snd kt)) items titems ->
    NoDup (keys titems) ->
    Forall (fun kt => is_dict (snd kt) = true ->
                      rec_ok rec f (node_for dest_t (fst kt)) (snd kt)) titems ->
    match merge_items f dest_t titems with
    | Ok t' =>
        exists st',
          Store.merge_items rec dest items st = Ok (tt, st')
          /\ Store.tree_in (fun l => n <= l) st' dest t'
          /\ (forall l o, dest <> Store.RObj l -> st !! l = Some o -> st' !! l = Some o)
          /\ length st <= length st'
    | Raise e => Store.merge_items rec dest items st = Raise e
    end.
Proof.
  induction 1 as [|[k r] [k' t] items titems Hk _ IH];
    intros st dest_t Hn Hdest HF Hnd Hrec.
  - simpl. exists st. auto.
  - simpl in Hk. subst k'. apply Forall2_cons in HF as [[_ Hr] HF]. simpl in Hr.
    apply Forall_cons in Hrec as [Hrec1 Hrec]. simpl in Hrec1.
    simpl in Hnd. apply NoDup_cons in Hnd as [Hk Hnd].
    pose proof (deep_merge_item_refines rec f n st dest dest_t k r t Hn Hdest Hr)
      as Hitem.
    simpl. unfold Store.bindM.
    destruct (deep_merge_item f dest_t k t) as [dest_t'|e] eqn:E; simpl.
    + destruct Hitem as (st1 & -> & Hdest1 & Hkeep1 & Hlen1).
      { intros d -> Hd. by apply Hrec1. }
      assert (exists d, dest_t = VDict d) as [d ->].
      { destruct dest_t; try (by destruct t); eauto. }
      destruct (deep_merge_item_dict _ _ _ _ _ E) as (d' & -> & Hd').
      specialize (IH st1 (VDict d')).
      destruct (merge_items f (VDict d') titems) as [t'|e'].
      * destruct IH as (st' & E' & Hdest' & Hkeep' & Hlen'); [lia|done| |done| |].
        -- eapply Forall2_impl; [exact HF|]. intros [k1 r1] [k2 t2] [Hk12 Hr12].
           split; [done|]. eapply tree_in_weaken; [|exact Hr12].
           intros l o [Hl1 Hl2] Ho. split; [done|]. by apply Hkeep1.
        -- apply Forall_forall. intros [k2 t2] Hin Hd2. simpl in *.
           rewrite Forall_forall in Hrec. specialize (Hrec _ Hin Hd2). simpl in Hrec.
           rewrite Hd'; [done|]. intros ->. apply Hk.
           apply list_elem_of_fmap. by exists (k2, t2).
        -- exists st'. split; [done|]. split; [done|]. split; [|lia].
           intros l o Hl Ho. apply Hkeep'; [done|]. by apply Hkeep1.
      * apply IH; [lia|done| |done|].
        -- eapply Forall2_impl; [exact HF|]. intros [k1 r1] [k2 t2] [Hk12 Hr12].
           split; [done|]. eapply tree_in_weaken; [|exact Hr12].
           intros l o [Hl1 Hl2] Ho. split; [done|]. by apply Hkeep1.
        -- apply Forall_forall. intros [k2 t2] Hin Hd2. simpl in *.
           rewrite Forall_forall in Hrec. specialize (Hrec _ Hin Hd2). simpl in Hrec.
           rewrite Hd'; [done|]. intros ->. apply Hk.
           apply list_elem_of_fmap. by exists (k2, t2).
    + rewrite Hitem; [done|]. intros d -> Hd. by apply Hrec1.
Qed.

Lemma _deep_merge_refines rec f n st dest src dest_t src_t :
  n <= length st ->
  Store.tree_in (fun l => n <= l) st dest dest_t ->
  Store.tree_in (fun l => n <= l /\ dest <> Store.RObj l) st src src_t ->
  (forall titems, src_t = VDict titems ->
     NoDup (keys titems)
     /\ Forall (fun kt => is_dict (snd kt) = true ->
                          rec_ok rec f (node_for dest_t (fst kt)) (snd kt)) titems) ->
  match (match src_t with
         | VDict titems => merge_items f dest_t titems
         | _ => Ok VNone
         end) with
  | Ok t' =>
      exists y st',
        Store._deep_merge rec dest src st = Ok (y, st')
        /\ Store.tree_in (fun l => n <= l) st' y t'
        /\ (forall l o, dest <> Store.RObj l -> st !! l = Some o -> st' !! l = Some o)
        /\ length st <= length st'
  | Raise e => Store._deep_merge rec dest src st = Raise e
  end.
Proof.
  intros Hn Hdest Hsrc Hrec.
  inversion Hsrc as [a|lv rs ts Hlv Hstv HFv|lv rs ts Hlv Hstv HFv
                     |lv items titems Hlv Hstv HFv]; subst;
    unfold Store._deep_merge;
    cbv beta iota delta [Store.bindM Store.deref Store.load Store.ret];
    rewrite ?Hstv; cbv beta iota;
    try (exists (Store.RAtom SNone), st; split; [done|]; split; [constructor|done]).
  destruct (Hrec titems eq_refl) as [Hnd Hrec'].
  pose proof (merge_items_refines rec f n dest items titems) as Hloop.
  specialize (Hloop (Forall2_impl _ _ _ _ HFv (fun _ _ H => proj1 H))
                    st dest_t Hn Hdest HFv Hnd Hrec').
  destruct (merge_items f dest_t titems) as [t'|e].
  - destruct Hloop as (st' & -> & Hdest' & Hkeep & Hlen).
    exists dest, st'. done.
  - by rewrite Hloop.
Qed.

(** Merging keeps trees well-formed. *)

Lemma keys_dict_set {V} key (v : V) d :
  keys (dict_set key v d) = keys d \/
  ((key ∉ keys d) /\ keys (dict_set key v d) = keys d ++ [key]).
Proof.
  induction d as [|[k w] d IH]; simpl.
  - right. split; [apply not_elem_of_nil|done].
  - destruct (String.eqb k key) eqn:E; simpl; [by left|].
    apply String.eqb_neq in E.
    destruct IH as [->|[Hk ->]]; [by left|right].
    split; [|done]. apply not_elem_of_cons. split; [congruence|done].
Qed.

Lemma well_formed_dict d :
  well_formed (VDict d) = true <->
  NoDup (keys d) /\ Forall (fun kv => well_formed (snd kv) = true) d.
Proof.
  simpl. rewrite andb_true_iff, bool_decide_eq_true, forallb_forall, Forall_forall.
  split; intros [H1 H2]; split; try done; intros x Hx; apply H2;
    by apply list_elem_of_In.
Qed.

Lemma well_formed_list xs :
  well_formed (VList xs) = true <-> Forall (fun x => well_formed x = true) xs.
Proof.
  simpl. rewrite forallb_forall, Forall_forall.
  split; intros H x Hx; apply H; by apply list_elem_of_In.
Qed.

Lemma dict_set_values {V} (P : V -> Prop) key v (d : list (string * V)) :
  Forall (fun kv => P (snd kv)) d -> P v ->
  Forall (fun kv => P (snd kv)) (dict_set key v d).
Proof.
  intros Hd Hv. induction Hd as [|[k w] d Hw Hd IH]; simpl.
  - by constructor.
  - destruct (String.eqb k key); constructor; done.
Qed.

Lemma dict_set_wf key v d :
  well_formed (VDict d) = true -> well_formed v = true ->
  well_formed (VDict (dict_set key v d)) = true.
Proof.
  rewrite !well_formed_dict. intros [Hnd Hd] Hv. split.
  - destruct (keys_dict_set key v d) as [->|[Hk ->]]; [done|].
    apply NoDup_app. split; [done|]. split; [|apply NoDup_singleton].
    intros x Hx Hx'. apply list_elem_of_singleton in Hx'. by subst.
  - by apply (dict_set_values (fun v => well_formed v = true)).
Qed.

Lemma dict_get_wf key d t :
  well_formed (VDict d) = true -> dict_get key d = Some t -> well_formed t = true.
Proof.
  rewrite well_formed_dict. intros [_ Hd] Hg. apply dict_get_elem_of in Hg.
  rewrite Forall_forall in Hd. by apply (Hd _ Hg).
Qed.

Lemma node_for_wf dest_t key :
  well_formed dest_t = true -> well_formed (node_for dest_t key) = true.
Proof.
  intros H. destruct dest_t as [| | |d]; try done. simpl.
  destruct (dict_get key d) eqn:E; [|done]. by eapply dict_get_wf.
Qed.

Lemma py_list_wf t ts :
  well_formed t = true -> py_list t = Ok ts ->
  Forall (fun x => well_formed x = true) ts.
Proof.
  destruct t as [[]|xs|xs|d]; simpl; intros Hwf H; try done; injection H as <-.
  - induction (chars s); constructor; done.
  - by apply well_formed_list.
  - induction d; constructor; [done|]. apply IHd.
    apply andb_prop in Hwf as [Hnd Hd]. simpl in *.
    apply andb_prop in Hd as [_ Hd]. apply andb_true_intro. split; [|done].
    apply bool_decide_eq_true. apply bool_decide_eq_true in Hnd.
    by apply NoDup_cons in Hnd as [_ Hnd].
Qed.

Lemma deep_merge_item_wf f dest_t key value_t r :
  well_formed dest_t = true -> well_formed value_t = true ->
  (forall merged, f (node_for dest_t key) value_t = Ok merged ->
                  well_formed merged = true) ->
  deep_merge_item f dest_t key value_t = Ok r -> well_formed r = true.
Proof.
  intros Hd Hv Hf H. unfold deep_merge_item in H.
  destruct value_t as [a|xs|xs|m]; destruct dest_t as [a'|xs'|xs'|d]; try done.
  - injection H as <-. by apply dict_set_wf.
  - destruct (dict_get key d) as [old|] eqn:E.
    + destruct (py_list old) as [ys|] eqn:El; simpl in H; [|done].
      injection H as <-. apply dict_set_wf; [done|].
      apply well_formed_list. apply Forall_app. split.
      * by apply well_formed_list.
      * eapply py_list_wf; [|done]. by eapply dict_get_wf.
    + injection H as <-. by apply dict_set_wf.
  - simpl in Hf.
    destruct (f (default (VDict []) (dict_get key d)) (VDict m)) as [merged|] eqn:E;
      simpl in H; [|done].
    injection H as <-. apply dict_set_wf; [|by apply Hf].
    destruct (dict_contains key d); [done|]. by apply dict_set_wf.
Qed.

Lemma merge_items_wf f titems :
  NoDup (keys titems) ->
  Forall (fun kt => well_formed (snd kt) = true) titems ->
  forall dest_t r,
    well_formed dest_t = true ->
    Forall (fun kt => forall merged,
                f (node_for dest_t (fst kt)) (snd kt) = Ok merged ->
                well_formed merged = true) titems ->
    merge_items f dest_t titems = Ok r -> well_formed r = true.
Proof.
  intros Hnd Hwf. induction Hwf as [|[k t] titems Ht Hwf IH];
    intros dest_t r Hd Hf H; simpl in H.
  - by injection H as <-.
  - simpl in Hnd. apply NoDup_cons in Hnd as [Hk Hnd].
    apply Forall_cons in Hf as [Hf1 Hf].
    destruct (deep_merge_item f dest_t k t) as [dest_t'|] eqn:E; simpl in H; [|done].
    pose proof (deep_merge_item_wf _ _ _ _ _ Hd Ht Hf1 E) as Hd'.
    apply (IH Hnd dest_t' r Hd'); [|done].
    assert (exists d, dest_t = VDict d) as [d ->].
    { destruct dest_t; try (by destruct t); eauto. }
    destruct (deep_merge_item_dict _ _ _ _ _ E) as (d' & -> & Hget).
    apply Forall_forall. intros [k2 t2] Hin merged. simpl.
    rewrite Forall_forall in Hf. specialize (Hf _ Hin merged). simpl in Hf.
    rewrite Hget; [done|]. intros ->. apply Hk.
    apply list_elem_of_fmap. by exists (k2, t2).
Qed.

Lemma _deep_merge_wf src_t :
  well_formed src_t = true ->
  forall dest_t r,
    well_formed dest_t = true ->
    _deep_merge dest_t src_t = Ok r -> well_formed r = true.
Proof.
  induction src_t as [a|xs _|xs _|m IH] using pyval_nested_ind;
    intros Hs dest_t r Hd H; simpl in H; try (by injection H as <-).
  apply well_formed_dict in Hs as [Hnd Hm].
  eapply merge_items_wf; [exact Hnd|exact Hm|exact Hd| |exact H].
  rewrite Forall_forall in IH, Hm. apply Forall_forall. intros [k t] Hin merged.
  simpl. intros Hmerged. eapply (IH _ Hin); [by apply (Hm _ Hin)| |exact Hmerged].
  by apply node_for_wf.
Qed.

Lemma deep_merge_rev_wf rts r :
  Forall (fun t => well_formed t = true) rts ->
  deep_merge_rev rts = Ok r -> well_formed r = true.
Proof.
  revert r. induction rts as [|last rl IH]; intros r Hwf H; simpl in H.
  - by injection H as <-.
  - apply Forall_cons in Hwf as [Hlast Hwf].
    destruct rl as [|x rl]; [by injection H as <-|].
    destruct (deep_merge_rev (x :: rl)) as [dest_t|] eqn:E; simpl in H; [|done].
    eapply _deep_merge_wf; [exact Hlast| |exact H]. by apply IH.
Qed.

Lemma tree_in_root D st l t : Store.tree_in D st (Store.RObj l) t -> D l.
Proof. intros H. by inversion H; subst. Qed.

Lemma Forall_exists_bound {A} (P : A -> nat -> Prop) xs :
  Forall (fun x => exists N, forall fuel, N <= fuel -> P x fuel) xs ->
  exists N, forall fuel, N <= fuel -> Forall (fun x => P x fuel) xs.
Proof.
  induction 1 as [|x xs [N1 H1] _ [N2 H2]].
  - exists 0. intros. constructor.
  - exists (N1 `max` N2). intros fuel Hfuel. constructor.
    + apply H1. lia.
    + apply H2. lia.
Qed.

Lemma merge_rec_pair fuel node value st :
  merge_rec (S (S fuel)) [node; value] st =
  match Store.deepcopy (S fuel) value st with
  | Ok (value', st1) =>
      match Store.deepcopy fuel node st1 with
      | Ok (node', st2) => Store._deep_merge (merge_rec (S fuel)) node' value' st2
      | Raise e => Raise e
      end
  | Raise e => Raise e
  end.
Proof. reflexivity. Qed.

Lemma _deep_merge_eq_items dest_t src_t :
  _deep_merge dest_t src_t =
  match src_t with
  | VDict titems =>
      merge_items (fun node value => _deep_merge node value) dest_t titems
  | _ => Ok VNone
  end.
Proof. by destruct src_t. Qed.

Lemma _deep_merge_fresh rec st st1 st2 d' v' dest_t src_t :
  store_grows st st1 -> store_grows st1 st2 ->
  Store.tree_in (fun l => length st <= l) st1 v' src_t ->
  Store.tree_in (fun l => length st1 <= l) st2 d' dest_t ->
  well_formed src_t = true ->
  (forall titems, src_t = VDict titems ->
     Forall (fun kt => rec_ok rec (fun node value => _deep_merge node value)
                         (node_for dest_t (fst kt)) (snd kt)) titems) ->
  merge_ok st (Store._deep_merge rec d' v' st2) (_deep_merge dest_t src_t).
Proof.
  intros Hg1 Hg2 Hv' Hd' Hv Hrec.
  pose proof (store_grows_length _ _ Hg1) as Hl1.
  pose proof (store_grows_length _ _ Hg2) as Hl2.
  assert (forall l o, st1 !! l = Some o -> d' <> Store.RObj l) as Hfresh.
  { intros l o Ho ->. apply tree_in_root in Hd'. simpl in Hd'.
    apply lookup_lt_Some in Ho. lia. }
  pose proof (_deep_merge_refines rec (fun node value => _deep_merge node value)
                (length st) st2 d' v' dest_t src_t) as Hm.
  lapply Hm; [clear Hm; intros Hm|lia].
  lapply Hm; [clear Hm; intros Hm|].
  2: { eapply tree_in_weaken; [|exact Hd']. intros l o Hl Ho.
       simpl in Hl. split; [lia|done]. }
  lapply Hm; [clear Hm; intros Hm|].
  2: { eapply tree_in_weaken; [|exact Hv']. intros l o Hl Ho.
       split; [split; [done|]|by apply Hg2]. by eapply Hfresh. }
  lapply Hm; [clear Hm; intros Hm|].
  2: { intros titems ->. apply well_formed_dict in Hv as [Hnd _].
       split; [done|]. eapply Forall_impl; [by apply Hrec|]. simpl. auto. }
  unfold merge_ok. rewrite _deep_merge_eq_items.
  destruct (match src_t with VDict _ => _ | _ => _ end) as [t'|e]; [|done].
  destruct Hm as (y & st3 & -> & Hy & Hk & Hl3).
  exists y, st3. split; [done|]. split; [|done].
  intros l o Ho. apply Hk; [|by apply Hg2, Hg1].
  eapply Hfresh. by apply Hg1.
Qed.

Lemma deep_merge_pair_step fuel node_t value_t :
  well_formed value_t = true -> well_formed node_t = true ->
  depth value_t < S fuel -> depth node_t < fuel ->
  (forall titems, value_t = VDict titems ->
     Forall (fun kt => rec_ok (merge_rec (S fuel))
                         (fun node value => _deep_merge node value)
                         (node_for node_t (fst kt)) (snd kt)) titems) ->
  rec_ok (merge_rec (S (S fuel))) (fun node value => _deep_merge node value)
         node_t value_t.
Proof.
  intros Hv Hnode Hfv Hfn Hrec st node value Hnt Hvt.
  rewrite merge_rec_pair.
  destruct (deepcopy_spec (S fuel) st value _ Hvt Hv Hfv) as (v' & st1 & -> & Hv' & Hg1).
  pose proof (tree_in_grows _ _ _ _ _ Hg1 Hnt) as Hnt1.
  destruct (deepcopy_spec fuel st1 node _ Hnt1 Hnode Hfn) as (d' & st2 & -> & Hd' & Hg2).
  by eapply _deep_merge_fresh.
Qed.

Lemma deep_merge_pair_refines value_t :
  well_formed value_t = true ->
  forall node_t, well_formed node_t = true ->
  exists N, forall fuel, N <= fuel ->
    rec_ok (merge_rec fuel) (fun node value => _deep_merge node value) node_t value_t.
Proof.
  induction value_t as [a|xs _|xs _|m IH] using pyval_nested_ind;
    intros Hv node_t Hnode.
  1: exists (3 + depth node_t + depth (VAtom a)).
  2: exists (3 + depth node_t + depth (VList xs)).
  3: exists (3 + depth node_t + depth (VTuple xs)).
  1-3: intros fuel Hfuel; destruct fuel as [|[|fuel]]; [lia|lia|];
       apply deep_merge_pair_step; [done|done|lia|lia|];
       intros titems Heq; discriminate Heq.
  assert (exists N, forall fuel, N <= fuel ->
            Forall (fun kt => rec_ok (merge_rec fuel)
                                (fun node value => _deep_merge node value)
                                (node_for node_t (fst kt)) (snd kt)) m)
    as [N0 HN0].
  { apply Forall_exists_bound. pose proof Hv as Hv'.
    apply well_formed_dict in Hv' as [_ Hm].
    rewrite Forall_forall in IH, Hm. apply Forall_forall. intros [k t] Hin.
    apply (IH _ Hin); [by apply (Hm _ Hin)|]. by apply node_for_wf. }
  exists (S N0 `max` (3 + depth node_t + depth (VDict m))).
  intros fuel Hfuel. destruct fuel as [|[|fuel]]; [lia|lia|].
  apply deep_merge_pair_step; [done|done|lia|lia|].
  intros titems Heq. injection Heq as <-. apply HN0. lia.
Qed.

Lemma items_rec_bound dest_t src_t :
  well_formed dest_t = true -> well_formed src_t = true ->
  exists N, forall fuel, N <= fuel ->
    forall titems, src_t = VDict titems ->
      Forall (fun kt => rec_ok (merge_rec fuel)
                          (fun node value => _deep_merge node value)
                          (node_for dest_t (fst kt)) (snd kt)) titems.
Proof.
  intros Hd Hs. destruct src_t as [a|xs|xs|m].
  1-3: exists 0; intros fuel _ titems Heq; discriminate Heq.
  assert (exists N, forall fuel, N <= fuel ->
            Forall (fun kt => rec_ok (merge_rec fuel)
                                (fun node value => _deep_merge node value)
                                (node_for dest_t (fst kt)) (snd kt)) m)
    as [N HN].
  { apply Forall_exists_bound. apply well_formed_dict in Hs as [_ Hm].
    eapply Forall_impl; [exact Hm|]. intros [k t] Ht.
    apply deep_merge_pair_refines; [done|]. by apply node_for_wf. }
  exists N. intros fuel Hfuel titems Heq. injection Heq as <-. by apply HN.
Qed.

Lemma deep_merge_rev_refines rts :
  Forall (fun t => well_formed t = true) rts ->
  exists N, forall fuel, N <= fuel ->
    forall st rargs,
      Forall2 (Store.tree_of st) rargs rts ->
      merge_ok st (Store.deep_merge_rev fuel rargs st) (deep_merge_rev rts).
Proof.
  induction 1 as [|last_t rl Hlast Hwf [N1 IH]].
  - exists 1. intros fuel Hfuel st rargs HF. apply Forall2_nil_inv_r in HF as ->.
    destruct fuel as [|fuel]; [lia|]. simpl.
    exists (Store.RAtom SNone), st. split; [done|].
    split; [by intros l o Ho|constructor].
  - destruct rl as [|x_t rl].
    + exists (S (S (depth last_t))). intros fuel Hfuel st rargs HF.
      apply Forall2_cons_inv_r in HF as (last & rargs' & Hl & HF & ->).
      apply Forall2_nil_inv_r in HF as ->.
      destruct fuel as [|fuel]; [lia|]. simpl.
      destruct (deepcopy_spec fuel st last _ Hl Hlast ltac:(lia))
        as (y & st' & -> & Hy & Hg).
      exists y, st'. done.
    + destruct (deep_merge_rev (x_t :: rl)) as [dest_t|e] eqn:Edest.
      * pose proof (deep_merge_rev_wf _ _ Hwf Edest) as Hd.
        destruct (items_rec_bound dest_t last_t Hd Hlast) as [N2 HN2].
        exists (S ((N1 `max` N2) `max` S (depth last_t))).
        intros fuel Hfuel st rargs HF.
        apply Forall2_cons_inv_r in HF as (last & rargs' & Hl & HF & ->).
        destruct fuel as [|fuel]; [lia|].
        assert (exists x rargs'', rargs' = x :: rargs'') as (x & rargs'' & ->).
        { inversion HF; subst; eauto. }
        cbn [Store.deep_merge_rev]. unfold Store.bindM.
        destruct (deepcopy_spec fuel st last _ Hl Hlast ltac:(lia))
          as (v' & st1 & -> & Hv' & Hg1).
        assert (Forall2 (Store.tree_of st1) (x :: rargs'') (x_t :: rl)) as HF1.
        { eapply Forall2_impl; [exact HF|]. intros r t. by apply tree_in_grows. }
        pose proof (IH fuel ltac:(lia) st1 _ HF1) as Hrec.
        cbn [deep_merge_rev]. cbn [deep_merge_rev] in Edest. rewrite Edest in *.
        simpl bind. 
        destruct Hrec as (d' & st2 & -> & Hg2 & Hd').
        eapply _deep_merge_fresh; try done. by apply HN2; lia.
      * exists (S (N1 `max` S (depth last_t))).
        intros fuel Hfuel st rargs HF.
        apply Forall2_cons_inv_r in HF as (last & rargs' & Hl & HF & ->).
        destruct fuel as [|fuel]; [lia|].
        assert (exists x rargs'', rargs' = x :: rargs'') as (x & rargs'' & ->).
        { inversion HF; subst; eauto. }
        cbn [Store.deep_merge_rev]. unfold Store.bindM.
        destruct (deepcopy_spec fuel st last _ Hl Hlast ltac:(lia))
          as (v' & st1 & -> & Hv' & Hg1).
        assert (Forall2 (Store.tree_of st1) (x :: rargs'') (x_t :: rl)) as HF1.
        { eapply Forall2_impl; [exact HF|]. intros r t. by apply tree_in_grows. }
        pose proof (IH fuel ltac:(lia) st1 _ HF1) as Hrec.
        cbn [deep_merge_rev]. cbn [deep_merge_rev] in Edest. rewrite Edest in *.
        simpl in Hrec. simpl. by rewrite Hrec.
Qed.

Lemma Forall2_rev_both {A B} (R : A -> B -> Prop) xs ys :
  Forall2 R xs ys -> Forall2 R (rev xs) (rev ys).
Proof.
  induction 1 as [|x y xs ys Hxy _ IH]; simpl; [constructor|].
  apply Forall2_app; [done|]. by constructor.
Qed.

(** [deep_merge] on the store and [deep_merge] on trees agree: for
    well-formed Trees and a recursion limit that is high enough, the call on
    references that read the trees [ts] raises what the merge of [ts]
    raises, or returns a reference that reads the merged tree from
    containers the call allocated, and no container of the caller has
    changed. *)
Theorem deep_merge_refines ts :
  Forall (fun t => well_formed t = true) ts ->
  exists N, forall fuel, N <= fuel ->
    forall st args,
      Forall2 (Store.tree_of st) args ts ->
      merge_ok st (Store.deep_merge fuel args st) (deep_merge ts).
Proof.
  intros Hwf.
  destruct (deep_merge_rev_refines (rev ts)) as [N HN].
  { by apply Forall_rev. }
  exists N. intros fuel Hfuel st args HF. unfold Store.deep_merge, deep_merge.
  apply HN; [done|]. by apply Forall2_rev_both.
Qed.

Lemma deep_merge_refines_witness :
  exists N, forall fuel, N <= fuel ->
    forall st args,
      Forall2 (Store.tree_of st) args
        [VDict [("a", VList [VInt 1])]; VDict [("a", VList [VInt 2])]] ->
      merge_ok st (Store.deep_merge fuel args st)
        (Ok (VDict [("a", VList [VInt 2; VInt 1])])).
Proof.
  apply (deep_merge_refines
           [VDict [("a", VList [VInt 1])]; VDict [("a", VList [VInt 2])]]).
  repeat constructor.
Defined.

(** The same merge run on a store where both arguments share the list. *)
Example deep_merge_shared_list :
  Store.deep_merge 6 [Store.RObj 1; Store.RObj 2]
    [Store.OList [Store.RAtom (SInt 1)];
     Store.ODict [("a", Store.RObj 0)];
     Store.ODict [("a", Store.RObj 0)]]
  = Ok (Store.RObj 5,
        [Store.OList [Store.RAtom (SInt 1)];
         Store.ODict [("a", Store.RObj 0)];
         Store.ODict [("a", Store.RObj 0)];
         Store.ODict [("a", Store.RObj 4)];
         Store.OList [Store.RAtom (SInt 1)];
         Store.ODict [("a", Store.RObj 7)];
         Store.OList [Store.RAtom (SInt 1)];
         Store.OList [Store.RAtom (SInt 1); Store.RAtom (SInt 1)]]).
Proof. reflexivity. Qed.

(** * Properties of the rest of the module *)

(** ** [coalesce] *)

Lemma is_none_true v : is_none v = true <-> v = VNone.
Proof. destruct v as [[]| | |]; simpl; split; congruence. Qed.

Lemma coalesce_all_none args :
  Forall (fun a => a = VNone) args -> coalesce args = VNone.
Proof. induction 1 as [|a args -> _ IH]; simpl; done. Qed.

(** [coalesce] returns [None] exactly when every argument is [None];
    otherwise it returns the first argument that is not [None]. *)
Theorem coalesce_first_not_none args :
  (coalesce args = VNone <-> Forall (fun a => a = VNone) args)
  /\ (forall pre v post,
        args = pre ++ v :: post ->
        Forall (fun a => a = VNone) pre -> v <> VNone ->
        coalesce args = v).
Proof.
  split.
  - split; [|apply coalesce_all_none].
    induction args as [|a args IH]; simpl; [constructor|].
    destruct (is_none a) eqn:E; simpl.
    + intros H. constructor; [by apply is_none_true|auto].
    + intros ->. done.
  - intros pre v post -> Hpre Hv.
    induction Hpre as [|a pre -> _ IH]; simpl; [|done].
    destruct (is_none v) eqn:E; [|done]. by apply is_none_true in E.
Qed.

Lemma coalesce_app xs ys :
  coalesce (xs ++ ys) = if is_none (coalesce xs) then coalesce ys else coalesce xs.
Proof.
  induction xs as [|x xs IH]; simpl; [done|].
  destruct (is_none x) eqn:E; simpl; [done|]. by rewrite E.
Qed.

(** Coalescing groups of arguments and then the results is coalescing
    all the arguments at once. *)
Theorem coalesce_nested argss :
  coalesce (map coalesce argss) = coalesce (concat argss).
Proof.
  induction argss as [|args argss IH]; simpl; [done|].
  rewrite coalesce_app, IH. by destruct (is_none (coalesce args)).
Qed.

(** ** [chunks] *)

Lemma py_range_positive stop step :
  (0 < step)%Z ->
  py_range 0 (Z.of_nat stop) step
  = Return (map (fun k => Z.of_nat (k * Z.to_nat step))
                (seq 0 ((stop + Z.to_nat step - 1) / Z.to_nat step))).
Proof.
  intros Hstep.
  assert (exists m, step = Z.of_nat m /\ 0 < m) as (m & -> & Hm).
  { exists (Z.to_nat step). lia. }
  rewrite Nat2Z.id. unfold py_range.
  destruct (Z.eqb_spec (Z.of_nat m) 0) as [|_]; [lia|].
  destruct (Z.ltb_spec 0 (Z.of_nat m)) as [_|]; [|lia].
  f_equal.
  assert (Z.to_nat (if (0 <? Z.of_nat stop)%Z
                    then ((Z.of_nat stop - 0 - 1) / Z.of_nat m + 1)%Z else 0%Z)
          = (stop + m - 1) / m) as ->.
  { destruct (Z.ltb_spec 0 (Z.of_nat stop)) as [Hs|Hs].
    - replace (Z.of_nat stop - 0 - 1)%Z with (Z.of_nat (stop - 1)) by lia.
      rewrite <- Nat2Z.inj_div.
      replace (stop + m - 1) with ((stop - 1) + 1 * m) by lia.
      rewrite Nat.div_add by lia. lia.
    - assert (stop = 0) as -> by lia. simpl.
      symmetry. apply Nat.div_small. lia. }
  apply map_ext. intros k. lia.
Qed.

Lemma py_slice_chunk {A} (l : list A) k m :
  0 < m ->
  py_slice l (Z.of_nat (k * m)) (Z.of_nat (k * m) + Z.of_nat m)
  = take m (drop (k * m) l).
Proof.
  intros Hm. unfold py_slice, slice_index.
  destruct (Z.ltb_spec (Z.of_nat (k * m)) 0) as [|_]; [lia|].
  destruct (Z.ltb_spec (Z.of_nat (k * m) + Z.of_nat m) 0) as [|_]; [lia|].
  rewrite Nat2Z.id.
  replace (Z.to_nat (Z.of_nat (k * m) + Z.of_nat m)) with (k * m + m) by lia.
  destruct (decide (k * m <= length l)) as [Hle|Hgt].
  - rewrite (Nat.min_r _ (k * m)) by lia.
    destruct (decide (k * m + m <= length l)) as [Hle'|Hgt'].
    + rewrite Nat.min_r by lia. f_equal. lia.
    + rewrite Nat.min_l by lia.
      rewrite !take_ge; [done| |]; rewrite length_drop; lia.
  - rewrite !Nat.min_l by lia. rewrite Nat.sub_diag, drop_all. simpl.
    rewrite drop_ge by lia. by rewrite take_nil.
Qed.

Lemma take_plus_app {A} (l : list A) a b :
  take (a + b) l = take a l ++ take b (drop a l).
Proof.
  revert l. induction a as [|a IH]; intros l; simpl; [done|].
  destruct l as [|x l]; simpl; [by rewrite take_nil|]. by rewrite IH.
Qed.

Lemma concat_chunks {A} (l : list A) m c :
  concat (map (fun k => take m (drop (k * m) l)) (seq 0 c)) = take (c * m) l.
Proof.
  induction c as [|c IH]; [done|].
  rewrite seq_S, map_app, concat_app, IH. simpl. rewrite app_nil_r.
  replace (m + c * m) with (c * m + m) by lia. by rewrite take_plus_app.
Qed.

Lemma ceil_div_bounds len m :
  0 < m ->
  let c := (len + m - 1) / m in
  len <= c * m /\ (0 < c -> (c - 1) * m < len).
Proof.
  intros Hm c.
  destruct (decide (len = 0)) as [->|Hlen].
  { assert (c = 0) as -> by (apply Nat.div_small; lia). lia. }
  pose proof (Nat.div_mod (len + m - 1) m ltac:(lia)) as Hdiv.
  pose proof (Nat.mod_upper_bound (len + m - 1) m ltac:(lia)) as Hmod.
  fold c in Hdiv. split; [nia|]. intros Hc. nia.
Qed.

(** [chunks(l, n)] for a positive [n] cuts [l] into consecutive slices:
    joined they are [l], none is empty, all have [n] elements except
    possibly the last, and there are [ceil(len(l) / n)] of them.  For a
    negative [n] nothing is yielded whatever [l] holds, and [n = 0] is a
    [ValueError]. *)
Theorem chunks_partition {A} (l : list A) (n : Z) :
  (n = 0%Z -> chunks l n = Throw ValueError)
  /\ ((n < 0)%Z -> chunks l n = Return [])
  /\ ((0 < n)%Z ->
      exists cs,
        chunks l n = Return cs
        /\ concat cs = l
        /\ Forall (fun c => 0 < length c <= Z.to_nat n) cs
        /\ (forall k c, cs !! k = Some c -> S k < length cs ->
                        length c = Z.to_nat n)
        /\ length cs = (length l + Z.to_nat n - 1) / Z.to_nat n).
Proof.
  split; [by intros ->|]. split.
  - intros Hn. unfold chunks, py_range.
    destruct (Z.eqb_spec n 0) as [|_]; [lia|].
    destruct (Z.ltb_spec 0 n) as [|_]; [lia|].
    destruct (Z.ltb_spec (Z.of_nat (length l)) 0) as [|_]; [lia|]. done.
  - intros Hn. unfold chunks. rewrite py_range_positive by done.
    set (m := Z.to_nat n). assert (0 < m) as Hm by lia.
    set (c := (length l + m - 1) / m).
    destruct (ceil_div_bounds (length l) m Hm) as [Hup Hlow]. fold c in Hup, Hlow.
    assert (map (fun i => py_slice l i (i + n))
                (map (fun k => Z.of_nat (k * m)) (seq 0 c))
            = map (fun k => take m (drop (k * m) l)) (seq 0 c)) as ->.
    { rewrite map_map. apply map_ext. intros k.
      replace n with (Z.of_nat m) by lia. by apply py_slice_chunk. }
    eexists. split; [done|].
    assert (forall k ch,
               map (fun k => take m (drop (k * m) l)) (seq 0 c) !! k = Some ch ->
               k < c /\ ch = take m (drop (k * m) l)) as Hk.
    { intros k ch Hch. rewrite list_lookup_fmap in Hch.
      destruct (seq 0 c !! k) as [k'|] eqn:E; [|done].
      apply lookup_seq in E as [-> ?]. simpl in Hch. by injection Hch as <-. }
    split; [|split; [|split]].
    + rewrite concat_chunks. apply take_ge. lia.
    + apply Forall_forall. intros ch Hin.
      apply list_elem_of_lookup in Hin as [k Hch]. apply Hk in Hch as [Hkc ->].
      rewrite length_take, length_drop.
      specialize (Hlow ltac:(lia)). nia.
    + intros k ch Hch Hnext. apply Hk in Hch as [Hkc ->].
      rewrite length_map, length_seq in Hnext.
      rewrite length_take, length_drop.
      specialize (Hlow ltac:(lia)). nia.
    + by rewrite length_map, length_seq.
Qed.

(** ** [get_profile_from_project] *)

(** A project without a ['target'] never gives a profile: the default
    target [{}] cannot be hashed, so the lookup in the outputs raises
    [TypeError], unless the outputs are not a dict, which raises
    [AttributeError] first.  With a text target the profile is the entry
    of the outputs under it, or [{}] when the outputs or the entry are
    missing.  No [KeyError] is ever raised. *)
Theorem get_profile_from_project_target project :
  (forall p, project = VDict p -> dict_get "target" p = None ->
     get_profile_from_project project = Raise TypeError
     \/ get_profile_from_project project = Raise AttributeError)
  /\ (forall p name, project = VDict p ->
        dict_get "target" p = Some (VStr name) ->
        match dict_get "outputs" p with
        | Some (VDict outputs) =>
            get_profile_from_project project
            = Ok (default (VDict []) (dict_get name outputs))
        | Some _ => get_profile_from_project project = Raise AttributeError
        | None => get_profile_from_project project = Ok (VDict [])
        end)
  /\ (forall e, get_profile_from_project project = Raise e ->
        e = TypeError \/ e = AttributeError).
Proof.
  split; [|split].
  - intros p -> Ht. simpl. rewrite Ht. simpl.
    destruct (dict_get "outputs" p) as [[| | |outputs]|]; simpl; auto.
  - intros p name -> Ht. simpl. rewrite Ht. simpl.
    destruct (dict_get "outputs" p) as [[| | |outputs]|]; simpl; auto.
  - intros e. destruct project as [| | |p]; simpl; try (intros [= <-]; auto).
    destruct (default (VDict []) (dict_get "outputs" p)) as [| | |outputs];
      try (intros [= <-]; auto).
    unfold get_or_empty.
    destruct (hashable _); [|intros [= <-]; auto].
    destruct (default (VDict []) (dict_get "target" p)) as [[]| | |]; done.
Qed.

(** ** Macro names *)

Lemma append_cons c (s t : string) : String c s +:+ t = String c (s +:+ t).
Proof. reflexivity. Qed.

Lemma append_inj_r (p a b : string) : p +:+ a = p +:+ b -> a = b.
Proof.
  induction p as [|c p IH]; [done|]. rewrite !append_cons. intros [= H]. auto.
Qed.

Lemma append_assoc (a b c : string) : (a +:+ b) +:+ c = a +:+ (b +:+ c).
Proof.
  induction a as [|x a IH]; [done|]. rewrite !append_cons. by rewrite IH.
Qed.

(** Two names give the same macro name only if they are the same name,
    likewise for doc names, and no macro name is a doc name.
    [get_docs_macro_name] raises exactly for the name [None] when asked
    for the prefix, and returns the name as it is, [None] included, when
    not. *)
Theorem macro_and_docs_names_apart (a b : option string) :
  (get_dbt_macro_name a = get_dbt_macro_name b <-> a = b)
  /\ (get_dbt_docs_name a = get_dbt_docs_name b <-> a = b)
  /\ (forall x y, get_dbt_macro_name a = Return x ->
                  get_dbt_docs_name b = Return y -> x <> y)
  /\ ((exists e, get_docs_macro_name a true = Throw e) <-> a = None)
  /\ get_docs_macro_name a false = Return a.
Proof.
  split; [|split; [|split; [|split]]].
  - split; [|by intros ->].
    destruct a as [a|], b as [b|]; simpl; try done.
    intros [= H]. apply append_inj_r in H. by subst.
  - split; [|by intros ->].
    destruct a as [a|], b as [b|]; simpl; try done.
    intros [= H]. apply append_inj_r in H. by subst.
  - intros x y. destruct a as [a|], b as [b|]; simpl; try done.
    intros [= <-] [= <-]. unfold MACRO_PREFIX, DOCS_PREFIX.
    rewrite !append_cons. congruence.
  - destruct a as [a|]; simpl.
    + split; [by intros [e ?]|done].
    + split; [done|]. intros _. by eexists.
  - done.
Qed.

(** [get_materialization_macro_name] never raises, the prefixed name is
    the bare name behind [MACRO_PREFIX], and a missing adapter is the
    adapter ['default'].  The name does not tell where the
    materialization ends and the adapter begins: moving a part across
    the underscore gives the same name. *)
Theorem materialization_macro_name m a :
  (exists name,
      get_materialization_macro_name m a false = Return name
      /\ get_materialization_macro_name m a true = Return (MACRO_PREFIX +:+ name))
  /\ (forall p, get_materialization_macro_name m None p
                = get_materialization_macro_name m (Some "default") p)
  /\ (forall x y z p,
        get_materialization_macro_name (Some (x +:+ "_" +:+ y)) (Some z) p
        = get_materialization_macro_name (Some x) (Some (y +:+ "_" +:+ z)) p).
Proof.
  split; [|split].
  - eexists. split; reflexivity.
  - done.
  - intros x y z p. unfold get_materialization_macro_name, format_name.
    assert ("materialization_" +:+ (x +:+ "_" +:+ y) +:+ "_" +:+ z
            = "materialization_" +:+ x +:+ "_" +:+ (y +:+ "_" +:+ z)) as ->; [|done].
    f_equal. by rewrite !append_assoc.
Qed.

(** ** [filter_null_values] *)

Lemma filter_null_fold (d acc : items_t) :
  NoDup (keys acc ++ keys d) ->
  fold_left (fun acc kv =>
               if is_none (snd kv) then acc else dict_set (fst kv) (snd kv) acc)
            d acc
  = acc ++ List.filter (fun kv => negb (is_none (snd kv))) d.
Proof.
  revert acc. induction d as [|[k v] d IH]; intros acc Hnd; simpl.
  - by rewrite app_nil_r.
  - assert ((k ∉ keys acc) /\ NoDup (keys acc ++ keys d) /\ (k ∉ keys d))
      as (Hk & Hnd' & Hkd).
    { simpl in Hnd. apply NoDup_app in Hnd as (Ha & Hdisj & Hd).
      apply NoDup_cons in Hd as [Hkd Hd]. split; [|split; [|done]].
      - intros Hin. apply (Hdisj _ Hin). apply list_elem_of_here.
      - apply NoDup_app. split; [done|]. split; [|done].
        intros x Hx Hx'. apply (Hdisj _ Hx). by apply list_elem_of_further. }
    destruct (is_none v) eqn:E; simpl.
    + by apply IH.
    + rewrite dict_set_fresh by done. rewrite IH.
      * by rewrite <- app_assoc.
      * unfold keys. rewrite map_app. simpl. rewrite <- app_assoc. simpl.
        apply NoDup_app in Hnd' as (Ha & Hdisj & Hd).
        apply NoDup_app. split; [done|]. split.
        -- intros x Hx Hx'. apply elem_of_cons in Hx' as [->|Hx']; [done|].
           by apply (Hdisj _ Hx).
        -- by apply NoDup_cons.
Qed.

Lemma dict_get_filter_values (P : pyval -> bool) key (d : items_t) :
  NoDup (keys d) ->
  dict_get key (List.filter (fun kv => P (snd kv)) d)
  = match dict_get key d with
    | Some v => if P v then Some v else None
    | None => None
    end.
Proof.
  induction d as [|[k v] d IH]; intros Hnd; simpl; [done|].
  simpl in Hnd. apply NoDup_cons in Hnd as [Hk Hnd].
  destruct (String.eqb k key) eqn:E.
  - apply String.eqb_eq in E. subst k.
    destruct (P v) eqn:EP; simpl.
    + by rewrite String.eqb_refl.
    + rewrite IH by done. apply dict_get_None in Hk. by rewrite Hk.
  - destruct (P v); simpl; [rewrite E|]; by apply IH.
Qed.

Lemma NoDup_keys_filter (P : string * pyval -> bool) (d : items_t) :
  NoDup (keys d) -> NoDup (keys (List.filter P d)).
Proof.
  induction d as [|kv d IH]; simpl; [done|].
  intros Hnd. apply NoDup_cons in Hnd as [Hk Hnd].
  destruct (P kv); simpl; [|auto].
  apply NoDup_cons. split; [|auto].
  intros Hin. apply Hk. unfold keys in *.
  apply list_elem_of_fmap in Hin as (x & -> & Hx).
  apply list_elem_of_fmap. exists x. split; [done|].
  apply list_elem_of_In in Hx. apply filter_In in Hx as [Hx _].
  by apply list_elem_of_In.
Qed.

Lemma filter_idem {A} (P : A -> bool) (l : list A) :
  List.filter P (List.filter P l) = List.filter P l.
Proof.
  induction l as [|x l IH]; simpl; [done|].
  destruct (P x) eqn:E; simpl; [rewrite E|]; by rewrite ?IH.
Qed.

(** [filter_null_values] of a dict keeps the items whose value is not
    [None], in their order, and nothing else: no value of the result is
    [None], a key is found in the result exactly when the input holds a
    value other than [None] under it, and filtering the result again
    changes nothing. *)
Theorem filter_null_values_keeps_non_null d :
  NoDup (keys d) ->
  exists d',
    filter_null_values (VDict d) = Ok (VDict d')
    /\ d' = List.filter (fun kv => negb (is_none (snd kv))) d
    /\ Forall (fun kv => snd kv <> VNone) d'
    /\ (forall key,
          dict_get key d'
          = match dict_get key d with
            | Some v => if is_none v then None else Some v
            | None => None
            end)
    /\ filter_null_values (VDict d') = Ok (VDict d').
Proof.
  intros Hnd. eexists. split; [|split; [reflexivity|]].
  - simpl. by rewrite filter_null_fold.
  - split; [|split].
    + apply Forall_forall. intros kv Hin.
      apply list_elem_of_In, filter_In in Hin as [_ Hv]. intros Heq.
      rewrite Heq in Hv. done.
    + intros key.
      rewrite (dict_get_filter_values (fun v => negb (is_none v))) by done.
      destruct (dict_get key d) as [v|]; [|done]. by destruct (is_none v).
    + simpl. rewrite filter_null_fold.
      * simpl. by rewrite filter_idem.
      * simpl. by apply NoDup_keys_filter.
Qed.

Lemma filter_null_values_keeps_non_null_witness :
  filter_null_values (VDict [("a", VNone); ("b", VInt 1)])
  = Ok (VDict [("b", VInt 1)]).
Proof.
  destruct (filter_null_values_keeps_non_null [("a", VNone); ("b", VInt 1)])
    as (d' & E & -> & _).
  - apply (bool_decide_unpack _). vm_compute. reflexivity.
  - exact E.
Defined.

(** ** [merge] *)

Lemma _merge_cons a k v b : _merge a ((k, v) :: b) = _merge (dict_set k v a) b.
Proof. reflexivity. Qed.

Lemma keys_dict_set_in {V} key (v : V) d :
  key ∈ keys d -> keys (dict_set key v d) = keys d.
Proof.
  induction d as [|[k w] d IH]; simpl; [by intros ?%elem_of_nil|].
  intros Hin. destruct (String.eqb k key) eqn:E; simpl; [done|].
  apply String.eqb_neq in E. apply elem_of_cons in Hin as [?|Hin]; [congruence|].
  by rewrite IH.
Qed.

Lemma _merge_get a b key :
  NoDup (keys b) ->
  dict_get key (_merge a b)
  = match dict_get key b with
    | Some v => Some v
    | None => dict_get key a
    end.
Proof.
  revert a. induction b as [|[k v] b IH]; intros a Hnd; [done|].
  simpl in Hnd. apply NoDup_cons in Hnd as [Hk Hnd].
  rewrite _merge_cons, IH by done. simpl.
  destruct (String.eqb k key) eqn:E.
  - apply String.eqb_eq in E. subst k.
    apply dict_get_None in Hk. by rewrite Hk, dict_get_set_eq.
  - apply String.eqb_neq in E. by rewrite dict_get_set_ne.
Qed.

Lemma new_keys_ext a a' b :
  (forall k, k ∈ b -> k ∈ a <-> k ∈ a') -> new_keys a b = new_keys a' b.
Proof.
  intros H. unfold new_keys. apply filter_ext_in. intros k Hk.
  apply list_elem_of_In in Hk. apply bool_decide_ext. by rewrite (H k Hk).
Qed.

Lemma _merge_keys a b :
  NoDup (keys b) -> keys (_merge a b) = keys a ++ new_keys (keys a) (keys b).
Proof.
  revert a. induction b as [|[k v] b IH]; intros a Hnd.
  - simpl. by rewrite app_nil_r.
  - simpl in Hnd. apply NoDup_cons in Hnd as [Hk Hnd].
    rewrite _merge_cons, IH by done. unfold new_keys at 2. simpl.
    destruct (decide (k ∈ keys a)) as [Hin|Hnin].
    + rewrite keys_dict_set_in by done.
      rewrite bool_decide_eq_false_2 by tauto. done.
    + rewrite bool_decide_eq_true_2 by done.
      rewrite dict_set_fresh by done. unfold keys at 1 2. rewrite map_app. simpl.
      rewrite <- app_assoc. simpl. do 2 f_equal.
      apply new_keys_ext. intros k' Hk'. rewrite elem_of_app, list_elem_of_singleton.
      unfold keys. split; [|tauto]. intros [?| ->]; done.
Qed.

Lemma NoDup_new_keys a b : NoDup b -> NoDup (new_keys a b).
Proof. intros H. apply NoDup_ListNoDup. apply List.NoDup_filter. by apply NoDup_ListNoDup. Qed.

Lemma elem_of_new_keys a b k : k ∈ new_keys a b <-> k ∈ b /\ k ∉ a.
Proof.
  unfold new_keys. rewrite list_elem_of_In, filter_In, <- list_elem_of_In.
  by rewrite bool_decide_eq_true.
Qed.

Lemma _merge_NoDup a b :
  NoDup (keys a) -> NoDup (keys b) -> NoDup (keys (_merge a b)).
Proof.
  intros Ha Hb. rewrite _merge_keys by done. apply NoDup_app.
  split; [done|]. split; [|by apply NoDup_new_keys].
  intros k Hk Hk'. apply elem_of_new_keys in Hk' as [_ Hk']. done.
Qed.

(** Two dicts with the same keys in the same order and the same value
    under each key are the same dict. *)
Lemma dict_ext {V} (d1 d2 : list (string * V)) :
  NoDup (keys d1) -> keys d1 = keys d2 ->
  (forall key, dict_get key d1 = dict_get key d2) -> d1 = d2.
Proof.
  revert d2. induction d1 as [|[k v] d1 IH]; intros [|[k2 v2] d2] Hnd Hk Hget;
    try done.
  simpl in Hk. injection Hk as <- Hk. simpl in Hnd.
  apply NoDup_cons in Hnd as [Hk1 Hnd].
  pose proof (Hget k) as Hv. simpl in Hv. rewrite String.eqb_refl in Hv.
  injection Hv as <-. f_equal. apply IH; [done|done|].
  intros key. specialize (Hget key). simpl in Hget.
  destruct (String.eqb k key) eqn:E; [|done].
  apply String.eqb_eq in E. subst key.
  assert (k ∉ keys d2) as Hk2 by (by rewrite <- Hk).
  apply dict_get_None in Hk1, Hk2. by rewrite Hk1, Hk2.
Qed.

(** [_merge(a, b)] holds under every key the value of [b], or the value
    of [a] when [b] has none; its keys are those of [a] in their order,
    then the keys only [b] has, in the order of [b]. *)
Theorem _merge_second_wins a b :
  NoDup (keys b) ->
  (forall key,
      dict_get key (_merge a b)
      = match dict_get key b with
        | Some v => Some v
        | None => dict_get key a
        end)
  /\ keys (_merge a b) = keys a ++ new_keys (keys a) (keys b)
  /\ (NoDup (keys a) -> NoDup (keys (_merge a b))).
Proof.
  intros Hb. split; [|split].
  - intros key. by apply _merge_get.
  - by apply _merge_keys.
  - intros Ha. by apply _merge_NoDup.
Qed.

Lemma _merge_second_wins_witness :
  dict_get "x" (_merge [("x", VInt 1); ("y", VInt 2)] [("z", VInt 3); ("x", VInt 4)])
  = Some (VInt 4)
  /\ keys (_merge [("x", VInt 1); ("y", VInt 2)] [("z", VInt 3); ("x", VInt 4)])
     = ["x"; "y"; "z"].
Proof.
  destruct (_merge_second_wins [("x", VInt 1); ("y", VInt 2)]
                               [("z", VInt 3); ("x", VInt 4)])
    as (Hget & Hkeys & _).
  - apply (bool_decide_unpack _). vm_compute. reflexivity.
  - split; [exact (Hget "x") | exact Hkeys].
Defined.

Lemma new_keys_nested a b c :
  new_keys a (new_keys b c) = new_keys (a ++ new_keys a b) c.
Proof.
  induction c as [|k c IH]; [done|].
  assert (k ∉ a ++ new_keys a b <-> (k ∉ a) /\ (k ∉ b)) as Hiff.
  { rewrite elem_of_app, elem_of_new_keys. tauto. }
  unfold new_keys in *. simpl.
  destruct (decide (k ∉ b)) as [Hb|Hb].
  - rewrite (bool_decide_eq_true_2 _ Hb). simpl.
    destruct (decide (k ∉ a)) as [Ha|Ha].
    + rewrite (bool_decide_eq_true_2 _ Ha).
      rewrite (bool_decide_eq_true_2 (k ∉ a ++ _)) by tauto. by rewrite IH.
    + rewrite (bool_decide_eq_false_2 _ Ha).
      rewrite (bool_decide_eq_false_2 (k ∉ a ++ _)) by tauto. by rewrite IH.
  - rewrite (bool_decide_eq_false_2 _ Hb).
    rewrite (bool_decide_eq_false_2 (k ∉ a ++ _)) by tauto. by rewrite IH.
Qed.

(** Merging is associative, the order of the keys included:
    [_merge(a, _merge(b, c))] is [_merge(_merge(a, b), c)], which is
    [merge(a, b, c)]. *)
Theorem _merge_assoc a b c :
  NoDup (keys a) -> NoDup (keys b) -> NoDup (keys c) ->
  _merge a (_merge b c) = _merge (_merge a b) c
  /\ merge [a; b; c] = Some (_merge (_merge a b) c).
Proof.
  intros Ha Hb Hc. split; [|done].
  pose proof (_merge_NoDup b c Hb Hc) as Hbc.
  apply dict_ext.
  - by apply _merge_NoDup.
  - rewrite !_merge_keys by done. rewrite <- app_assoc. f_equal.
    unfold new_keys at 1. rewrite List.filter_app. f_equal.
    apply new_keys_nested.
  - intros key. rewrite !_merge_get by done.
    by destruct (dict_get key c), (dict_get key b).
Qed.

Lemma _merge_assoc_witness :
  _merge [("x", VInt 1)] (_merge [("y", VInt 2)] [("x", VInt 3)])
  = _merge (_merge [("x", VInt 1)] [("y", VInt 2)]) [("x", VInt 3)].
Proof.
  apply (_merge_assoc [("x", VInt 1)] [("y", VInt 2)] [("x", VInt 3)]);
    apply (bool_decide_unpack _); vm_compute; reflexivity.
Defined.

(** *** [merge] and the layered view *)

Lemma merge_rev_cons last x rl :
  merge_rev (last :: x :: rl)
  = match merge_rev (x :: rl) with
    | Some a => Some (_merge a last)
    | None => None
    end.
Proof. reflexivity. Qed.

Lemma merge_rev_some x rl : exists d, merge_rev (x :: rl) = Some d.
Proof.
  revert x. induction rl as [|y rl IH]; intros x; [by eexists|].
  rewrite merge_rev_cons. destruct (IH y) as [d ->]. by eexists.
Qed.

Lemma getitem_scan_merge_rev rargs name :
  Forall (fun d => NoDup (keys d)) rargs ->
  getitem_scan rargs name
  = match merge_rev rargs with
    | Some d =>
        match dict_get name d with
        | Some v => Ok v
        | None => Raise (KeyError name)
        end
    | None => Raise (KeyError name)
    end.
Proof.
  induction 1 as [|last rl Hlast _ IH]; [done|].
  destruct rl as [|x rl].
  - simpl. by destruct (dict_get name last).
  - rewrite merge_rev_cons. destruct (merge_rev_some x rl) as [a Ha].
    rewrite Ha in *. rewrite _merge_get by done.
    change (getitem_scan (last :: x :: rl) name)
      with (match dict_get name last with
            | Some v => Ok v
            | None => getitem_scan (x :: rl) name
            end).
    rewrite IH. by destruct (dict_get name last).
Qed.

(** A [MultiDict] over a list of dicts answers a lookup as the dict
    [merge] makes of the same list does: the same value, and [KeyError]
    exactly for the keys the merged dict lacks (all of them when the
    list is empty and [merge] gives [None]). *)
Theorem multidict_getitem_is_merge (srcs : list items_t) (name : string) :
  Forall (fun d => NoDup (keys d)) srcs ->
  __getitem__ (MultiDict_init (Some srcs)) name
  = match merge srcs with
    | Some d =>
        match dict_get name d with
        | Some v => Ok v
        | None => Raise (KeyError name)
        end
    | None => Raise (KeyError name)
    end.
Proof.
  intros H. unfold __getitem__, _itersource, merge. simpl.
  apply getitem_scan_merge_rev. by apply Forall_rev.
Qed.

Lemma multidict_getitem_is_merge_witness :
  __getitem__ (MultiDict_init (Some [[("x", VInt 1)]; [("x", VInt 2); ("y", VInt 3)]])) "x"
  = Ok (VInt 2).
Proof.
  rewrite (multidict_getitem_is_merge [[("x", VInt 1)]; [("x", VInt 2); ("y", VInt 3)]] "x").
  - reflexivity.
  - repeat constructor; apply (bool_decide_unpack _); vm_compute; reflexivity.
Defined.

(** *** The mapping protocol of [MultiDict] *)

Lemma dict_contains_keys {V} name (d : list (string * V)) :
  dict_contains name d = true <-> name ∈ keys d.
Proof.
  unfold dict_contains. destruct (dict_get name d) eqn:E.
  - split; [|done]. intros _. destruct (decide (name ∈ keys d)) as [|Hn]; [done|].
    apply dict_get_None in Hn. congruence.
  - apply dict_get_None in E. split; [done|]. intros H. done.
Qed.

Lemma keyset_fold (entries : list items_t) (acc : gset string) name :
  name ∈ fold_left (fun ks entry => ks ∪ list_to_set (keys entry)) entries acc
  <-> name ∈ acc \/ Exists (fun entry => name ∈ keys entry) entries.
Proof.
  revert acc. induction entries as [|e entries IH]; intros acc; simpl.
  - rewrite Exists_nil. tauto.
  - rewrite IH, Exists_cons, elem_of_union, elem_of_list_to_set. tauto.
Qed.

Lemma contains_exists (entries : list items_t) name :
  existsb (dict_contains name) entries = true
  <-> Exists (fun entry => name ∈ keys entry) entries.
Proof.
  induction entries as [|e entries IH]; simpl.
  - rewrite Exists_nil. done.
  - rewrite orb_true_iff, Exists_cons, IH, dict_contains_keys. done.
Qed.

Lemma getitem_scan_exists (entries : list items_t) name :
  (exists v, getitem_scan entries name = Ok v)
  <-> Exists (fun entry => name ∈ keys entry) entries.
Proof.
  induction entries as [|e entries IH]; simpl.
  - rewrite Exists_nil. split; [by intros [v ?]|done].
  - rewrite Exists_cons, <- IH, <- dict_contains_keys. unfold dict_contains.
    destruct (dict_get name e) as [v|].
    + split; [by left|]. intros _. by exists v.
    + split; [by right|]. by intros [?|?].
Qed.

(** The methods of a [MultiDict] agree on what its keys are: a name is
    in the key set exactly when [name in self], exactly when the lookup
    returns a value instead of raising; iterating gives each key of the
    set once, and [len] counts them. *)
Theorem multidict_keys_agree (self : MultiDict) (name : string) :
  (name ∈ _keyset self <-> __contains__ self name = true)
  /\ (__contains__ self name = true <-> exists v, __getitem__ self name = Ok v)
  /\ (name ∈ __iter__ self <-> name ∈ _keyset self)
  /\ NoDup (__iter__ self)
  /\ length (__iter__ self) = __len__ self.
Proof.
  unfold _keyset, __contains__, __getitem__, __iter__, __len__.
  split; [|split; [|split; [|split]]].
  - rewrite keyset_fold, contains_exists. split; [|by right].
    intros [H|H]; [|done]. by apply elem_of_empty in H.
  - by rewrite contains_exists, getitem_scan_exists.
  - apply elem_of_elements.
  - apply NoDup_elements.
  - done.
Qed.

Lemma merge_rev_NoDup rargs d :
  Forall (fun d => NoDup (keys d)) rargs -> merge_rev rargs = Some d ->
  NoDup (keys d).
Proof.
  intros H. revert d. induction H as [|last rl Hlast _ IH]; intros d; [done|].
  destruct rl as [|x rl].
  - by intros [= <-].
  - rewrite merge_rev_cons. destruct (merge_rev (x :: rl)) as [a|]; [|done].
    intros [= <-]. apply _merge_NoDup; [|done]. by apply IH.
Qed.

(** The keys of a [MultiDict] over a list of dicts are the keys of the
    dict [merge] makes of the list: iterating gives the same keys, in
    some order, and [len] is the number of items of the merged dict. *)
Theorem multidict_len_is_merge (srcs : list items_t) (d : items_t) :
  Forall (fun d => NoDup (keys d)) srcs -> merge srcs = Some d ->
  __iter__ (MultiDict_init (Some srcs)) ≡ₚ keys d
  /\ __len__ (MultiDict_init (Some srcs)) = length d.
Proof.
  intros Hnd Hm.
  assert (NoDup (keys d)) as Hd.
  { eapply merge_rev_NoDup; [|exact Hm]. by apply Forall_rev. }
  assert (_keyset (MultiDict_init (Some srcs)) = list_to_set (keys d)) as Hset.
  { apply set_eq. intros name. rewrite elem_of_list_to_set.
    unfold _keyset, _itersource. simpl. rewrite keyset_fold.
    rewrite <- getitem_scan_exists.
    rewrite getitem_scan_merge_rev by (by apply Forall_rev).
    unfold merge in Hm. rewrite Hm.
    rewrite <- dict_contains_keys. unfold dict_contains.
    destruct (dict_get name d) as [v|].
    - split; [done|]. intros _. right. by exists v.
    - split; [|done]. intros [H|[? ?]]; [|done]. by apply elem_of_empty in H. }
  unfold __iter__, __len__. rewrite Hset. split.
  - by apply elements_list_to_set.
  - rewrite size_list_to_set by done. unfold keys. by rewrite length_map.
Qed.

Lemma multidict_len_is_merge_witness :
  __len__ (MultiDict_init (Some [[("x", VInt 1)]; [("x", VInt 2); ("y", VInt 3)]])) = 2.
Proof.
  apply (multidict_len_is_merge [[("x", VInt 1)]; [("x", VInt 2); ("y", VInt 3)]]
                                [("x", VInt 2); ("y", VInt 3)]).
  - repeat constructor; apply (bool_decide_unpack _); vm_compute; reflexivity.
  - reflexivity.
Defined.

(** ** [deep_merge] and [merge] *)

Lemma merge_items_flat f a b :
  Forall (fun kv : string * pyval => is_scalar (snd kv) = true) b ->
  merge_items f (VDict a) b = Ok (VDict (_merge a b)).
Proof.
  intros H. revert a. induction H as [|[k v] b Hv _ IH]; intros a; [done|].
  rewrite _merge_cons. simpl. destruct v as [s| | |]; try done. simpl. apply IH.
Qed.

Lemma deep_merge_rev_flat rl a :
  Forall (Forall (fun kv : string * pyval => is_scalar (snd kv) = true)) rl ->
  exists d,
    merge_rev (rl ++ [a]) = Some d
    /\ deep_merge_rev (map VDict (rl ++ [a])) = Ok (VDict d).
Proof.
  induction 1 as [|last rl Hlast _ (d & Hm & Hd)]; [by exists a|].
  exists (_merge d last).
  destruct (rl ++ [a]) as [|x rest] eqn:E; [by destruct rl|].
  simpl app. rewrite E. split.
  - rewrite merge_rev_cons. by rewrite Hm.
  - change (deep_merge_rev (map VDict (last :: x :: rest)))
      with (destination <- deep_merge_rev (map VDict (x :: rest)) ;;
            _deep_merge destination (VDict last)).
    rewrite Hd. simpl. by apply merge_items_flat.
Qed.

(** On dicts whose values are scalars, [deep_merge] is [merge]: for a
    first dict [a] of any content and further dicts that hold scalars
    only, both give the same dict, order of the keys included. *)
Theorem deep_merge_flat_is_merge a rest :
  Forall (Forall (fun kv : string * pyval => is_scalar (snd kv) = true)) rest ->
  exists d,
    merge (a :: rest) = Some d
    /\ deep_merge (VDict a :: map VDict rest) = Ok (VDict d).
Proof.
  intros H. unfold merge, deep_merge.
  destruct (deep_merge_rev_flat (rev rest) a) as (d & Hm & Hd).
  { by apply Forall_rev. }
  exists d. simpl rev. split; [done|].
  rewrite <- map_rev. change [VDict a] with (map VDict [a]).
  rewrite <- map_app. exact Hd.
Qed.

Lemma deep_merge_flat_is_merge_witness :
  exists d,
    merge [[("x", VList [])]; [("x", VInt 1); ("y", VNone)]] = Some d
    /\ deep_merge [VDict [("x", VList [])]; VDict [("x", VInt 1); ("y", VNone)]]
       = Ok (VDict d).
Proof.
  apply (deep_merge_flat_is_merge [("x", VList [])] [[("x", VInt 1); ("y", VNone)]]).
  repeat constructor.
Defined.

(** *** Merging dicts with no key in common *)

Lemma dict_set_twice {V} key (v w : V) d :
  dict_set key v (dict_set key w d) = dict_set key v d.
Proof.
  induction d as [|[k u] d IH]; simpl.
  - by rewrite String.eqb_refl.
  - destruct (String.eqb k key) eqn:E; simpl; rewrite E; [done|]. by rewrite IH.
Qed.

Lemma _deep_merge_disjoint source :
  well_formed source = true ->
  forall b, source = VDict b ->
  forall a, (forall key, key ∈ keys b -> key ∉ keys a) ->
  _deep_merge (VDict a) (VDict b) = Ok (VDict (a ++ b)).
Proof.
  induction source as [s|xs _|xs _|d IH] using pyval_nested_ind;
    intros Hwf b Hb; try discriminate Hb.
  injection Hb as <-. apply well_formed_dict in Hwf as [Hnd Hd].
  simpl. induction d as [|[k v] d IHd]; intros a Hdisj; simpl.
  - by rewrite app_nil_r.
  - simpl in Hnd. apply NoDup_cons in Hnd as [Hk Hnd].
    apply Forall_cons in IH as [IHv IH]. apply Forall_cons in Hd as [Hv Hd].
    simpl in Hv.
    assert (_deep_merge (VDict []) v = Ok v \/ is_dict v = false) as Hnode.
    { destruct v as [s|xs|xs|m]; auto. left.
      apply (IHv Hv m eq_refl []). intros ? _. apply not_elem_of_nil. }
    clear IHv.
    assert (k ∉ keys a) as Hka by (apply Hdisj; apply list_elem_of_here).
    assert (deep_merge_item
              (fun node value => _deep_merge (deepcopy node) (deepcopy value))
              (VDict a) k v = Ok (VDict (a ++ [(k, v)]))) as ->.
    { pose proof Hka as Hget. apply dict_get_None in Hget.
      destruct v as [s|xs|xs|m]; simpl.
      - by rewrite dict_set_fresh.
      - rewrite Hget. by rewrite dict_set_fresh.
      - done.
      - destruct Hnode as [Hnode|Hnode]; [|done]. simpl in Hnode.
        unfold dict_contains. rewrite Hget. simpl.
        change (deepcopy (VDict [])) with (VDict []). rewrite Hnode.
        simpl. by rewrite dict_set_twice, dict_set_fresh. }
    simpl. rewrite (IHd IH Hnd Hd).
    + by rewrite <- app_assoc.
    + intros key Hkey. unfold keys. rewrite map_app. simpl.
      rewrite elem_of_app, list_elem_of_singleton. intros [Hin| ->]; [|done].
      revert Hin. apply Hdisj. by apply list_elem_of_further.
Qed.

(** Merging a well-formed dict [b] into a dict [a] that shares no key
    with it appends the items of [b] to those of [a]; so the empty dict
    is neutral on the left, and it is neutral on the right for every
    value. *)
Theorem deep_merge_disjoint a b :
  well_formed (VDict b) = true ->
  ((forall key, key ∈ keys b -> key ∉ keys a) ->
   deep_merge [VDict a; VDict b] = Ok (VDict (a ++ b)))
  /\ deep_merge [VDict []; VDict b] = Ok (VDict b)
  /\ (forall x, deep_merge [x; VDict []] = Ok x).
Proof.
  intros Hwf. split; [|split].
  - intros Hdisj. by apply (_deep_merge_disjoint (VDict b)).
  - apply (_deep_merge_disjoint (VDict b) Hwf b eq_refl []).
    intros ? _. apply not_elem_of_nil.
  - done.
Qed.

Lemma deep_merge_disjoint_witness :
  deep_merge [VDict []; VDict [("x", VDict [("y", VList [VInt 1])])]]
  = Ok (VDict [("x", VDict [("y", VList [VInt 1])])]).
Proof.
  apply (deep_merge_disjoint [] [("x", VDict [("y", VList [VInt 1])])]).
  reflexivity.
Defined.

(** ** [translate_aliases] *)

Lemma translate_items_flat aliases kwargs translate rest result :
  NoDup (keys result ++ map (canonical aliases) (keys rest)) ->
  translate_items aliases false kwargs translate rest result
  = Return (VDict (result ++ map (rename_item aliases) rest)).
Proof.
  revert result. induction rest as [|[k v] rest IH]; intros result Hnd; simpl.
  - by rewrite app_nil_r.
  - simpl in Hnd. apply NoDup_app in Hnd as (Hr & Hdisj & Hrest).
    apply NoDup_cons in Hrest as [Hk Hrest].
    assert (canonical aliases k ∉ keys result) as Hfresh.
    { intros Hin. apply (Hdisj _ Hin). apply list_elem_of_here. }
    assert (dict_contains (canonical aliases k) result = false) as ->.
    { apply not_true_is_false. by rewrite dict_contains_keys. }
    rewrite dict_set_fresh by done. rewrite IH.
    + by rewrite <- app_assoc.
    + unfold keys at 1. rewrite map_app, <- app_assoc. simpl.
      apply NoDup_app. split; [done|]. split; [|by apply NoDup_cons].
      intros x Hx Hx'. apply elem_of_cons in Hx' as [->|Hx']; [done|].
      by apply (Hdisj _ Hx), list_elem_of_further.
Qed.

Lemma translate_items_duplicate aliases kwargs translate rest result :
  NoDup (keys result) ->
  ~ NoDup (keys result ++ map (canonical aliases) (keys rest)) ->
  exists key,
    translate_items aliases false kwargs translate rest result
    = Throw (AliasException (duplicate_keys_message aliases kwargs key)).
Proof.
  revert result. induction rest as [|[k v] rest IH]; intros result Hr Hdup; simpl.
  - simpl in Hdup. by rewrite app_nil_r in Hdup.
  - destruct (dict_contains (canonical aliases k) result) eqn:E; [by eexists|].
    assert (canonical aliases k ∉ keys result) as Hfresh.
    { rewrite <- dict_contains_keys. by rewrite E. }
    apply IH.
    + rewrite dict_set_fresh by done. unfold keys. rewrite map_app. simpl.
      apply NoDup_app. split; [done|]. split; [|apply NoDup_singleton].
      intros x Hx Hx'. apply list_elem_of_singleton in Hx'. by subst.
    + rewrite dict_set_fresh by done. unfold keys at 1.
      rewrite map_app, <- app_assoc. exact Hdup.
Qed.

(** Without recursion, [translate_aliases] succeeds exactly when the
    canonical names of the keys are distinct; it then returns the items
    in their order, each under the canonical name of its key, and it
    raises [AliasException] otherwise. *)
Theorem translate_aliases_renames aliases items :
  (NoDup (map (canonical aliases) (keys items)) ->
   translate_aliases aliases false (VDict items)
   = Return (VDict (map (rename_item aliases) items)))
  /\ (~ NoDup (map (canonical aliases) (keys items)) ->
      exists key,
        translate_aliases aliases false (VDict items)
        = Throw (AliasException (duplicate_keys_message aliases items key))).
Proof.
  split; intros H; simpl.
  - by rewrite translate_items_flat.
  - apply translate_items_duplicate; [constructor|done].
Qed.

(** When no canonical name is itself an alias of another name, a
    translated dict is left as it is by a second translation. *)
Theorem translate_aliases_idempotent aliases items r :
  (forall key, canonical aliases (canonical aliases key) = canonical aliases key) ->
  translate_aliases aliases false (VDict items) = Return r ->
  translate_aliases aliases false r = Return r.
Proof.
  intros Hcanon Hr.
  destruct (decide (NoDup (map (canonical aliases) (keys items)))) as [Hnd|Hdup].
  - simpl in Hr. rewrite translate_items_flat in Hr by done.
    injection Hr as <-. simpl.
    assert (map (canonical aliases) (keys (map (rename_item aliases) items))
            = map (canonical aliases) (keys items)) as Hkeys.
    { unfold keys. rewrite !map_map. apply map_ext. intros [k v]. simpl.
      apply Hcanon. }
    rewrite translate_items_flat by (simpl; by rewrite Hkeys).
    simpl. do 2 f_equal. rewrite map_map. apply map_ext. intros [k v].
    unfold rename_item. simpl. by rewrite Hcanon.
  - simpl in Hr.
    destruct (translate_items_duplicate aliases items
                (fun v => translate_aliases aliases false v) items [])
      as [key Hkey]; [constructor|done|]. congruence.
Qed.

Lemma translate_aliases_idempotent_witness :
  translate_aliases [("pass", "password")] false (VDict [("password", VInt 1)])
  = Return (VDict [("password", VInt 1)]).
Proof.
  apply (translate_aliases_idempotent [("pass", "password")] [("pass", VInt 1)]).
  - intros key. unfold canonical. cbn [dict_get].
    destruct (String.eqb_spec "pass" key) as [<-|Hne]; [reflexivity|].
    cbn [default]. by destruct (String.eqb_spec "pass" key).
  - reflexivity.
Defined.

Lemma translate_each_not_dict translate vs :
  (forall v, is_dict v = false -> exists e, translate v = Throw e) ->
  Exists (fun v => is_dict v = false) vs ->
  exists e, translate_each translate vs = Throw e.
Proof.
  intros Ht. induction 1 as [v vs Hv|v vs _ [e IH]]; simpl.
  - destruct (Ht v Hv) as [e ->]. by eexists.
  - destruct (translate v); [|by eexists]. rewrite IH. by eexists.
Qed.

Lemma translate_items_list_not_dict aliases kwargs translate rest result key vs :
  (forall v, is_dict v = false -> exists e, translate v = Throw e) ->
  (key, VList vs) ∈ rest ->
  Exists (fun v => is_dict v = false) vs ->
  exists e, translate_items aliases true kwargs translate rest result = Throw e.
Proof.
  intros Ht Hin Hvs. revert result.
  induction rest as [|[k v] rest IH]; intros result; [by apply elem_of_nil in Hin|].
  cbn [translate_items].
  destruct (dict_contains (canonical aliases k) result); [by eexists|].
  apply elem_of_cons in Hin as [[= <- <-]|Hin].
  - simpl. destruct (translate_each_not_dict translate vs Ht Hvs) as [e ->].
    by eexists.
  - destruct (translate_value true translate v); [|by eexists]. by apply IH.
Qed.

(** With [recurse], a dict that holds, under any key, a list with an
    element that is not a dict is never translated: the call raises
    (the element has no [items], unless an earlier item raised first). *)
Theorem translate_aliases_list_of_scalars aliases items key vs :
  (key, VList vs) ∈ items ->
  Exists (fun v => is_dict v = false) vs ->
  exists e, translate_aliases aliases true (VDict items) = Throw e.
Proof.
  intros Hin Hvs. simpl.
  apply (translate_items_list_not_dict aliases items _ items [] key vs); [|done|done].
  intros v Hv. destruct v; try done; by eexists.
Qed.

Lemma translate_aliases_list_of_scalars_witness :
  exists e,
    translate_aliases [] true (VDict [("tags", VList [VStr "nightly"])]) = Throw e.
Proof.
  apply (translate_aliases_list_of_scalars [] [("tags", VList [VStr "nightly"])]
           "tags" [VStr "nightly"]).
  - apply list_elem_of_here.
  - by constructor.
Defined.

(** ** [memoized] *)

Section MemoizedFacts.
Context {A V W : Type}.
Variable hashable_args : A -> bool.
Variable args_eqb : A -> A -> bool.

Lemma cache_get_app (args : A) (c1 c2 : memoized.cache_t (A:=A) (V:=V)) :
  memoized.cache_get args_eqb args (c1 ++ c2)
  = match memoized.cache_get args_eqb args c1 with
    | Some v => Some v
    | None => memoized.cache_get args_eqb args c2
    end.
Proof.
  induction c1 as [|[k v] c1 IH]; simpl; [done|]. by destruct (args_eqb k args).
Qed.

Lemma cache_set_miss (args : A) (value : V) cache :
  memoized.cache_get args_eqb args cache = None ->
  memoized.cache_set args_eqb args value cache = cache ++ [(args, value)].
Proof.
  induction cache as [|[k v] cache IH]; simpl; [done|].
  destruct (args_eqb k args); [done|]. intros H. by rewrite IH.
Qed.

Lemma cache_get_eqb (a a' : A) (cache : memoized.cache_t (A:=A) (V:=V)) :
  (forall k, args_eqb k a = args_eqb k a') ->
  memoized.cache_get args_eqb a cache = memoized.cache_get args_eqb a' cache.
Proof.
  intros H. induction cache as [|[k v] cache IH]; simpl; [done|].
  by rewrite H, IH.
Qed.

Variable func : A -> W -> result V * W.

Lemma call_keeps_cached cache args w a v :
  memoized.cache_get args_eqb a cache = Some v ->
  memoized.cache_get args_eqb a
    (snd (fst (memoized.__call__ hashable_args args_eqb func cache args w)))
  = Some v.
Proof.
  intros Ha. unfold memoized.__call__.
  destruct (hashable_args args); [|done].
  destruct (memoized.cache_get args_eqb args cache) eqn:E; [done|].
  destruct (func args w) as [[value|e] w']; [|done]. simpl.
  rewrite cache_set_miss by done. by rewrite cache_get_app, Ha.
Qed.

Lemma calls_keep_cached argss cache w a v :
  memoized.cache_get args_eqb a cache = Some v ->
  memoized.cache_get args_eqb a
    (snd (fst (memoized.calls hashable_args args_eqb func cache argss w)))
  = Some v.
Proof.
  revert cache w. induction argss as [|args argss IH]; intros cache w Ha; [done|].
  simpl.
  pose proof (call_keeps_cached cache args w a v Ha) as Hc.
  destruct (memoized.__call__ hashable_args args_eqb func cache args w)
    as [[r cache'] w'].
  specialize (IH cache' w' Hc).
  destruct (memoized.calls hashable_args args_eqb func cache' argss w')
    as [[rs cache''] w'']. done.
Qed.

(** Once a call with [args] has returned a value, every later call with
    arguments equal to [args] returns that value from the cache: the
    wrapped function is not run and the world is left as it is,
    whatever calls were made in between. *)
Theorem memoized_repeat cache0 w0 args v cache1 w1 between args' :
  (forall k x y, args_eqb x y = true -> args_eqb k x = args_eqb k y) ->
  memoized.__call__ hashable_args args_eqb func cache0 args w0 = (Ok v, cache1, w1) ->
  args_eqb args args' = true -> hashable_args args' = true ->
  forall rs cache2 w2,
    memoized.calls hashable_args args_eqb func cache1 between w1 = (rs, cache2, w2) ->
    memoized.__call__ hashable_args args_eqb func cache2 args' w2 = (Ok v, cache2, w2).
Proof.
  intros Heq Hcall Hargs Hhash rs cache2 w2 Hbetween.
  assert (memoized.cache_get args_eqb args' cache1 = Some v) as Hcached.
  { rewrite <- (cache_get_eqb args args') by (intros k; by apply Heq).
    unfold memoized.__call__ in Hcall.
    destruct (hashable_args args); [|done].
    destruct (memoized.cache_get args_eqb args cache0) as [v0|] eqn:E.
    - by injection Hcall as <- <- <-.
    - destruct (func args w0) as [[value|e] w']; [|done].
      injection Hcall as <- <- <-.
      rewrite cache_set_miss by done. rewrite cache_get_app, E. simpl.
      by rewrite (Heq args args args') , Hargs. }
  pose proof (calls_keep_cached between cache1 w1 args' v Hcached) as H2.
  rewrite Hbetween in H2. simpl in H2.
  unfold memoized.__call__. by rewrite Hhash, H2.
Qed.

(** For a wrapped function that has no effect and returns equal values
    on equal arguments, memoizing changes no result: every call in a run
    returns what the function returns, except that arguments that cannot
    be hashed raise [TypeError] without the function being run. *)
Theorem memoized_transparent (f : A -> result V) argss (w : W) :
  (forall x y, args_eqb x y = true -> f x = f y) ->
  fst (fst (memoized.calls hashable_args args_eqb (fun args w => (f args, w))
              memoized.__init__ argss w))
  = map (fun args => if hashable_args args then f args else Raise TypeError) argss.
Proof.
  intros Hf.
  assert (forall cache,
             Forall (fun kv => f (fst kv) = Ok (snd kv)) cache ->
             fst (fst (memoized.calls hashable_args args_eqb
                         (fun args w => (f args, w)) cache argss w))
             = map (fun args => if hashable_args args then f args else Raise TypeError)
                   argss) as Hinv.
  { induction argss as [|args argss IH]; intros cache Hcache; [done|].
    simpl. unfold memoized.__call__.
    destruct (hashable_args args).
    - destruct (memoized.cache_get args_eqb args cache) as [v|] eqn:E.
      + specialize (IH cache Hcache).
        destruct (memoized.calls _ _ _ cache argss w) as [[rs c] w']. simpl in *.
        f_equal; [|done].
        clear IH. induction Hcache as [|[k u] cache Hk _ IHc]; [done|].
        simpl in E. destruct (args_eqb k args) eqn:Ek; [|auto].
        injection E as ->. simpl in Hk. rewrite <- Hk. by apply Hf.
      + destruct (f args) as [value|e] eqn:Efa.
        * rewrite cache_set_miss by done.
          assert (Forall (fun kv => f (fst kv) = Ok (snd kv))
                         (cache ++ [(args, value)])) as Hcache'.
          { apply Forall_app. split; [done|]. by constructor. }
          specialize (IH _ Hcache').
          destruct (memoized.calls _ _ _ (cache ++ [(args, value)]) argss w)
            as [[rs c] w']. simpl in *. by f_equal.
        * specialize (IH cache Hcache).
          destruct (memoized.calls _ _ _ cache argss w) as [[rs c] w'].
          simpl in *. by f_equal.
    - specialize (IH cache Hcache).
      destruct (memoized.calls _ _ _ cache argss w) as [[rs c] w'].
      simpl in *. by f_equal. }
  apply Hinv. constructor.
Qed.
End MemoizedFacts.

Lemma string_eqb_congruent (k x y : string) :
  String.eqb x y = true -> String.eqb k x = String.eqb k y.
Proof. intros H. apply String.eqb_eq in H. by subst. Qed.

Lemma memoized_repeat_witness :
  memoized.__call__ (fun _ : string => true) String.eqb
    (fun args calls => (Ok (String.length args), S calls))
    [("ab", 2); ("c", 1)] "ab" 2
  = (Ok 2, [("ab", 2); ("c", 1)], 2).
Proof.
  apply (memoized_repeat (fun _ : string => true) String.eqb
           (fun args calls => (Ok (String.length args), S calls))
           [] 0 "ab" 2 [("ab", 2)] 1 ["c"] "ab" string_eqb_congruent
           eq_refl eq_refl eq_refl [Ok 1]).
  reflexivity.
Defined.

Lemma memoized_transparent_witness :
  fst (fst (memoized.calls (fun _ : string => true) String.eqb
              (fun args (w : unit) => (Ok (String.length args), w))
              memoized.__init__ ["ab"; "c"; "ab"] tt))
  = [Ok 2; Ok 1; Ok 2].
Proof.
  apply (memoized_transparent (fun _ : string => true) String.eqb
           (fun args => Ok (String.length args)) ["ab"; "c"; "ab"] tt).
  intros x y H. apply String.eqb_eq in H. by subst.
Defined.

(** ** [deep_map] and the recursion limit *)

Lemma max_list_bound (f : pyval -> nat) ts n :
  Forall (fun t => f t <= n) ts -> max_list (map f ts) <= n.
Proof. induction 1; simpl; lia. Qed.

Lemma _deep_map_ok_nesting func st t :
  forall fuel value p v,
    Store.tree_of st value t ->
    Store._deep_map fuel func st value p = Ok v -> nesting t <= fuel.
Proof.
  induction t as [a|ts IH|ts IH|d IH] using pyval_nested_ind;
    intros fuel value p v Htree H;
    (destruct fuel as [|fuel]; [done|]);
    inversion Htree as [|l rs ? _ Hl HF|l rs ? _ Hl HF|l items ? _ Hl HF]; subst;
    simpl in H; rewrite ?Hl in H; try done; simpl.
  - lia.
  - destruct (Store.map_elems _ 0 rs p) as [vs|] eqn:E; simpl in H; [|done].
    apply le_n_S, max_list_bound.
    pose proof (map_elems_ok _ _ _ _ _ E) as Hok.
    clear E H Hl Htree. induction HF as [|r t rs ts Hr HF IHF]; [constructor|].
    apply Forall_cons in IH as [IHt IHts]. constructor.
    + destruct (Hok r (list_elem_of_here _ _)) as (q & v1 & Hv1). by eapply IHt.
    + apply IHF; [done|]. intros r' Hr'. apply Hok. by apply list_elem_of_further.
  - destruct (Store.map_items _ items p) as [vs|] eqn:E; simpl in H; [|done].
    apply le_n_S.
    pose proof (map_items_ok _ _ _ _ E) as Hok.
    clear E H Hl Htree.
    induction HF as [|[k r] [k' t] items d [_ Hr] HF IHF]; [simpl; lia|].
    apply Forall_cons in IH as [IHt IHd]. simpl in *.
    destruct (Hok r (list_elem_of_here _ _)) as (q & v1 & Hv1).
    pose proof (IHt _ _ _ _ Hr Hv1).
    assert (max_list (map (fun kv : string * pyval => nesting (snd kv)) d) <= fuel).
    { apply IHF; [done|]. intros r' Hr'. apply Hok. by apply list_elem_of_further. }
    lia.
Qed.

(** One step into a container that reads as a tree leads to a container
    that reads as a subtree. *)
Lemma tree_of_edge st l l' t :
  Store.tree_of st (Store.RObj l) t -> Store.edge st l l' ->
  exists t',
    Store.tree_of st (Store.RObj l') t' /\ depth t' < depth t
    /\ (well_formed t = true -> well_formed t' = true).
Proof.
  intros Htree (o & Ho & Hin).
  inversion Htree as [|? rs ts _ Hl HF|? rs ts _ Hl HF|? items d _ Hl HF]; subst;
    rewrite Hl in Ho; injection Ho as <-; simpl in Hin.
  - clear Hl Htree. induction HF as [|r t rs ts Hr HF IHF]; [by apply elem_of_nil in Hin|].
    apply elem_of_cons in Hin as [<-|Hin].
    + exists t. split; [done|]. split; [simpl; lia|].
      simpl. by intros [? ?]%andb_prop.
    + destruct (IHF Hin) as (t' & Ht' & Hd & Hwf). exists t'. split; [done|].
      split; [simpl in *; lia|]. simpl. intros [? ?]%andb_prop. by apply Hwf.
  - clear Hl Htree. induction HF as [|r t rs ts Hr HF IHF]; [by apply elem_of_nil in Hin|].
    apply elem_of_cons in Hin as [<-|Hin].
    + exists t. split; [done|]. split; [simpl; lia|]. done.
    + destruct (IHF Hin) as (t' & Ht' & Hd & Hwf). exists t'. split; [done|].
      split; [simpl in *; lia|]. done.
  - clear Hl Htree.
    induction HF as [|[k r] [k' t] items d [_ Hr] HF IHF]; [by apply elem_of_nil in Hin|].
    simpl in Hin. apply elem_of_cons in Hin as [<-|Hin].
    + exists t. split; [done|]. split; [simpl; lia|].
      intros Hwf. apply well_formed_dict in Hwf as [_ Hwf].
      by apply Forall_cons in Hwf as [Hwf _].
    + destruct (IHF Hin) as (t' & Ht' & Hd & Hwf). exists t'. split; [done|].
      split; [simpl in *; lia|]. intros Hwf'. apply Hwf.
      apply well_formed_dict in Hwf' as [Hnd Hwf'].
      apply well_formed_dict. simpl in Hnd. apply NoDup_cons in Hnd as [_ Hnd].
      by apply Forall_cons in Hwf' as [_ Hwf'].
Qed.

Lemma tree_of_nsteps st k :
  forall l l' t,
    Store.tree_of st (Store.RObj l) t -> nsteps (Store.edge st) k l l' ->
    exists t',
      Store.tree_of st (Store.RObj l') t' /\ depth t' + k <= depth t
      /\ (well_formed t = true -> well_formed t' = true).
Proof.
  induction k as [|k IH]; intros l l' t Htree Hk.
  - inversion Hk; subst. exists t. split; [done|]. split; [lia|done].
  - inversion Hk as [|? ? l1 ? Hedge Hk']; subst.
    destruct (tree_of_edge _ _ _ _ Htree Hedge) as (t1 & Ht1 & Hd1 & Hwf1).
    destruct (IH _ _ _ Ht1 Hk') as (t' & Ht' & Hd & Hwf).
    exists t'. split; [done|]. split; [lia|auto].
Qed.

Lemma tree_of_lists_and_dicts st l t :
  Store.tree_of st (Store.RObj l) t -> well_formed t = true ->
  Store.lists_and_dicts st l.
Proof.
  intros Htree Hwf l' Hreach. apply rtc_nsteps in Hreach as [k Hk].
  destruct (tree_of_nsteps _ _ _ _ _ Htree Hk) as (t' & Ht' & _ & Hwf').
  specialize (Hwf' Hwf).
  inversion Ht' as [|? rs ts _ Hl HF|? rs ts _ Hl HF|? items d _ Hl HF]; subst;
    try discriminate Hwf'; eexists; (split; [exact Hl|done]).
Qed.

Lemma tree_of_no_cycle st l t :
  Store.tree_of st (Store.RObj l) t -> ~ Store.has_cycle st l.
Proof.
  intros Htree Hcyc.
  destruct (has_cycle_chains st l Hcyc (S (depth t))) as [l' Hl'].
  destruct (tree_of_nsteps _ _ _ _ _ Htree Hl') as (t' & _ & Hd & _). lia.
Qed.

(** A value nested deeper than the recursion limit makes [deep_map]
    raise the [RecursionException] that reports a cycle, although a
    value that reads as a finite tree has no cycle. *)
Theorem deep_map_deep_without_cycle limit func st value t :
  Store.tree_of st value t -> well_formed t = true ->
  (forall a p, exists v, func a p = Ok v) ->
  limit < nesting t ->
  Store.deep_map limit func st value
  = Raise (RecursionException "Cycle detected in deep_map")
  /\ (forall l, value = Store.RObj l -> ~ Store.has_cycle st l).
Proof.
  intros Htree Hwf Hfunc Hlimit. split.
  - unfold Store.deep_map.
    destruct (Store._deep_map limit func st value []) as [v|e] eqn:E.
    + apply (_deep_map_ok_nesting func st t _ _ _ _ Htree) in E. lia.
    + apply (_deep_map_raise func st Hfunc) in E as ->; [done|].
      intros l ->. by eapply tree_of_lists_and_dicts.
  - intros l ->. by eapply tree_of_no_cycle.
Qed.

Lemma deep_map_deep_without_cycle_witness :
  Store.deep_map 2 (fun a _ => Ok (VAtom a))
    [Store.OList [Store.RAtom (SInt 1)]; Store.OList [Store.RObj 0]] (Store.RObj 1)
  = Raise (RecursionException "Cycle detected in deep_map").
Proof.
  apply (deep_map_deep_without_cycle 2 (fun a _ => Ok (VAtom a))
           [Store.OList [Store.RAtom (SInt 1)]; Store.OList [Store.RObj 0]]
           (Store.RObj 1) (VList [VList [VInt 1]])).
  - unfold Store.tree_of. repeat econstructor.
  - reflexivity.
  - intros a p. by exists (VAtom a).
  - simpl. lia.
Defined.

(** ** More on [fqn_search] *)

Lemma fqn_levels_prefix root fqn more :
  fst (fqn_levels root fqn) `prefix_of` fst (fqn_levels root (fqn ++ more)).
Proof.
  revert root. induction fqn as [|s rest IH]; intros root; simpl.
  - apply prefix_nil.
  - destruct (py_get root s) as [level_config|e]; [|done].
    destruct (is_none level_config); [done|].
    specialize (IH level_config).
    destruct (fqn_levels level_config rest) as [ys e].
    destruct (fqn_levels level_config (rest ++ more)) as [ys' e'].
    simpl in *. by apply prefix_cons.
Qed.

Lemma fqn_levels_length root fqn :
  length (fst (fqn_levels root fqn)) <= length fqn.
Proof.
  revert root. induction fqn as [|s rest IH]; intros root; simpl; [done|].
  destruct (py_get root s) as [level_config|e]; [|simpl; lia].
  destruct (is_none level_config); [simpl; lia|].
  specialize (IH level_config).
  destruct (fqn_levels level_config rest) as [ys e]. simpl in *. lia.
Qed.

(** What [fqn_search] yields for a name is the beginning of what it
    yields for any longer name that starts with it, and it never yields
    more than one element per segment after the root. *)
Theorem fqn_search_prefix root fqn more :
  fst (fqn_search root fqn) `prefix_of` fst (fqn_search root (fqn ++ more))
  /\ length (fst (fqn_search root fqn)) <= S (length fqn).
Proof.
  unfold fqn_search.
  pose proof (fqn_levels_prefix root fqn more) as Hp.
  pose proof (fqn_levels_length root fqn) as Hl.
  destruct (fqn_levels root fqn) as [ys e].
  destruct (fqn_levels root (fqn ++ more)) as [ys' e'].
  simpl in *. split; [by apply prefix_cons|lia].
Qed.

(** ** More on [deep_merge] *)

(** The merge of well-formed Trees is a well-formed Tree. *)
Theorem deep_merge_well_formed ts r :
  Forall (fun t => well_formed t = true) ts ->
  deep_merge ts = Ok r -> well_formed r = true.
Proof.
  intros Hwf H. apply (deep_merge_rev_wf (rev ts) r); [|done]. by apply Forall_rev.
Qed.

Lemma deep_merge_well_formed_witness :
  well_formed (VDict [("x", VList [VInt 3; VInt 1])]) = true.
Proof.
  apply (deep_merge_well_formed
           [VDict [("x", VList [VInt 1])]; VDict [("x", VList [VInt 3])]]).
  - by repeat constructor.
  - reflexivity.
Defined.

Lemma deep_merge_item_sets f d key value r :
  deep_merge_item f (VDict d) key value = Ok r ->
  exists w, r = VDict (dict_set key w d).
Proof.
  unfold deep_merge_item. intros H.
  destruct value as [a|xs|xs|m].
  - injection H as <-. by eexists.
  - destruct (dict_get key d) as [old|].
    + destruct (py_list old) as [ys|]; simpl in H; [|done].
      injection H as <-. by eexists.
    + injection H as <-. by eexists.
  - destruct (dict_get key d) as [old|].
    + destruct (py_list old) as [ys|]; simpl in H; [|done].
      injection H as <-. by eexists.
    + injection H as <-. by eexists.
  - destruct (f _ _) as [merged|]; simpl in H; [|done]. injection H as <-.
    exists merged. destruct (dict_contains key d); [done|].
    by rewrite dict_set_twice.
Qed.

Lemma keys_dict_set_value {V} key (v w : V) d :
  keys (dict_set key v d) = keys (dict_set key w d).
Proof.
  induction d as [|[k u] d IH]; simpl; [done|].
  destruct (String.eqb k key); simpl; [done|]. by rewrite IH.
Qed.

Lemma keys_dict_set_keys {V} key (v : V) d d' :
  keys d = keys d' -> keys (dict_set key v d) = keys (dict_set key v d').
Proof.
  revert d'. induction d as [|[k u] d IH]; intros [|[k' u'] d'] H; try done.
  simpl in H. injection H as <- H. simpl.
  destruct (String.eqb k key); simpl; [by rewrite H|]. by rewrite (IH d').
Qed.

Lemma merge_items_keys f items :
  forall d d0 r,
    keys d = keys d0 ->
    merge_items f (VDict d) items = Ok r ->
    exists d', r = VDict d' /\ keys d' = keys (_merge d0 items).
Proof.
  induction items as [|[k v] items IH]; intros d d0 r Hk H; simpl in H.
  - injection H as <-. by exists d.
  - destruct (deep_merge_item f (VDict d) k v) as [r1|] eqn:E; simpl in H; [|done].
    apply deep_merge_item_sets in E as [w ->].
    rewrite _merge_cons. apply (IH (dict_set k w d) (dict_set k v d0) r); [|done].
    rewrite (keys_dict_set_value k w v). by apply keys_dict_set_keys.
Qed.

(** A merge of two dicts that returns gives a dict with the keys
    [dict.update] would give: those of the destination in their order,
    then the keys only the source has, in the order of the source; and
    under a key the source does not have, the value of the destination
    is kept. *)
Theorem deep_merge_keys a b r :
  NoDup (keys b) ->
  deep_merge [VDict a; VDict b] = Ok r ->
  exists d,
    r = VDict d
    /\ keys d = keys a ++ new_keys (keys a) (keys b)
    /\ (forall key, key ∉ keys b -> dict_get key d = dict_get key a).
Proof.
  intros Hnd H. change (deep_merge [VDict a; VDict b])
    with (merge_items (fun node value => _deep_merge (deepcopy node) (deepcopy value))
                      (VDict a) b) in H.
  destruct (merge_items_keys _ _ _ a _ eq_refl H) as (d & -> & Hkeys).
  exists d. split; [done|]. split.
  - rewrite Hkeys. by apply _merge_keys.
  - apply merge_items_dict in H as (d' & [= <-] & Hd'). exact Hd'.
Qed.

Lemma deep_merge_keys_witness :
  exists d,
    VDict [("x", VDict [("p", VInt 1); ("q", VInt 2)]); ("y", VInt 3); ("z", VInt 4)]
    = VDict d
    /\ keys d = ["x"; "y"; "z"].
Proof.
  destruct (deep_merge_keys
              [("x", VDict [("p", VInt 1)]); ("y", VInt 3)]
              [("z", VInt 4); ("x", VDict [("q", VInt 2)])]
              (VDict [("x", VDict [("p", VInt 1); ("q", VInt 2)]);
                      ("y", VInt 3); ("z", VInt 4)]))
    as (d & Hd & Hkeys & _).
  - apply (bool_decide_unpack _). vm_compute. reflexivity.
  - reflexivity.
  - exists d. split; [exact Hd | exact Hkeys].
Defined.

(** ** Adding sources to a [MultiDict] *)

Lemma add_from_fold (self : MultiDict) srcs :
  add_from self srcs = fold_left add srcs self.
Proof.
  destruct self as [ss]. revert ss.
  induction srcs as [|s srcs IH]; intros ss.
  - unfold add_from. simpl. by rewrite app_nil_r.
  - change (fold_left add (s :: srcs) {| sources := ss |})
      with (fold_left add srcs {| sources := ss ++ [s] |}).
    rewrite <- IH. unfold add_from. simpl. by rewrite <- app_assoc.
Qed.

(** After [add(source)], a lookup gives the value of [source] for the
    names it holds and what the lookup gave before for the others, and
    the keys of [source] have joined the key set; [add_from] is [add]
    for each source in turn. *)
Theorem multidict_add_lookup (self : MultiDict) (source : items_t) (name : string) :
  __getitem__ (add self source) name
  = match dict_get name source with
    | Some v => Ok v
    | None => __getitem__ self name
    end
  /\ _keyset (add self source) = list_to_set (keys source) ∪ _keyset self
  /\ (forall srcs, add_from self srcs = fold_left add srcs self).
Proof.
  split; [|split].
  - unfold __getitem__, _itersource, add. simpl. by rewrite rev_unit.
  - unfold _keyset, _itersource, add. simpl. rewrite rev_unit. simpl.
    apply set_eq. intros k.
    rewrite keyset_fold, !elem_of_union, keyset_fold, elem_of_list_to_set.
    pose proof (not_elem_of_empty (C:=gset string) k). tauto.
  - intros srcs. apply add_from_fold.
Qed.

(** ** Paths *)

Lemma split_on_not_nil sep s : split_on sep s <> [].
Proof.
  induction s as [|c s IH]; simpl; [done|].
  destruct (Ascii.eqb c sep); [done|]. by destruct (split_on sep s).
Qed.

Lemma split_path_sep_free s : sep_free s = true -> split_path s = [s].
Proof.
  unfold split_path. induction s as [|c s IH]; simpl; [done|].
  intros [Hc Hs]%andb_prop. apply negb_true_iff in Hc. rewrite Hc.
  by rewrite (IH Hs).
Qed.

Lemma split_path_app_sep s rest :
  sep_free s = true ->
  split_path (s +:+ String os_sep rest) = s :: split_path rest.
Proof.
  unfold split_path. induction s as [|c s IH]; intros Hs.
  - change (EmptyString +:+ String os_sep rest) with (String os_sep rest).
    simpl. by rewrite ?Ascii.eqb_refl.
  - rewrite append_cons. simpl in *. apply andb_prop in Hs as [Hc Hs].
    apply negb_true_iff in Hc. rewrite Hc. by rewrite (IH Hs).
Qed.

Lemma concat_cons2 (sep x y : string) l :
  String.concat sep (x :: y :: l) = x +:+ sep +:+ String.concat sep (y :: l).
Proof. reflexivity. Qed.

Lemma split_path_concat segs last :
  Forall (fun s => sep_free s = true) segs -> sep_free last = true ->
  split_path (String.concat "/" (segs ++ [last])) = segs ++ [last].
Proof.
  intros Hsegs Hlast. induction Hsegs as [|s segs Hs _ IH]; simpl app.
  - by apply split_path_sep_free.
  - destruct (segs ++ [last]) as [|y l] eqn:E; [by destruct segs|].
    rewrite concat_cons2.
    change ("/" +:+ String.concat "/" (y :: l))
      with (String os_sep (String.concat "/" (y :: l))).
    rewrite split_path_app_sep by done. by rewrite IH.
Qed.

Lemma append_nil_r (s : string) : s +:+ EmptyString = s.
Proof. induction s as [|c s IH]; [done|]. rewrite append_cons. by rewrite IH. Qed.

Lemma endswith_sep_app (p q : string) :
  q <> EmptyString -> endswith_sep (p +:+ q) = endswith_sep q.
Proof.
  intros Hq. induction p as [|c p IH]; [done|]. rewrite append_cons.
  simpl. destruct (p +:+ q) eqn:E; [|done].
  destruct p; [|done]. by destruct q.
Qed.

Lemma startswith_sep_app (p q : string) :
  p <> EmptyString -> startswith_sep (p +:+ q) = startswith_sep p.
Proof. by destruct p. Qed.

Lemma join_step_open path b :
  open_path path -> startswith_sep b = false ->
  join_step path b = path +:+ "/" +:+ b.
Proof.
  intros [Hne Hend] Hb. unfold join_step. rewrite Hb, Hend.
  by rewrite bool_decide_eq_false_2.
Qed.

Lemma open_path_join path b :
  open_path b -> open_path (path +:+ "/" +:+ b).
Proof.
  intros [Hne Hend]. split.
  - destruct path; [done|done].
  - rewrite endswith_sep_app by (by destruct b).
    change ("/" +:+ b) with (String os_sep b). simpl.
    destruct b; [done|]. exact Hend.
Qed.

Lemma fold_join_step mids last path :
  open_path path ->
  Forall (fun b => startswith_sep b = false /\ open_path b) mids ->
  startswith_sep last = false ->
  fold_left join_step (mids ++ [last]) path
  = String.concat "/" (path :: mids ++ [last]).
Proof.
  intros Hpath Hmids Hlast. revert path Hpath.
  induction Hmids as [|m mids [Hm Hopen] _ IH]; intros path Hpath; simpl app.
  - simpl. by apply join_step_open.
  - simpl fold_left. rewrite join_step_open by done.
    rewrite IH by (by apply open_path_join).
    destruct (mids ++ [last]) as [|y l] eqn:E; [by destruct mids|].
    rewrite !concat_cons2. by rewrite !append_assoc.
Qed.

Lemma sep_free_open s : sep_free s = true -> s <> EmptyString ->
  startswith_sep s = false /\ open_path s.
Proof.
  intros Hs Hne. split; [|split; [done|]].
  - destruct s as [|c s]; [done|]. simpl in *.
    apply andb_prop in Hs as [Hc _]. by apply negb_true_iff in Hc.
  - clear Hne. induction s as [|c s IH]; [done|]. simpl in *.
    apply andb_prop in Hs as [Hc Hs]. apply negb_true_iff in Hc.
    destruct s; [done|]. by apply IH.
Qed.

(** For a source file [file] in the directory made of the segments
    [dirs], the pseudo path of a test is the directory, then the test
    type, then the node name with the suffix [.sql]. *)
Theorem get_pseudo_test_path_in_dir node_name dirs file test_type :
  Forall (fun s => sep_free s = true /\ s <> EmptyString) dirs ->
  sep_free file = true ->
  startswith_sep test_type = false -> open_path test_type ->
  startswith_sep node_name = false ->
  get_pseudo_test_path node_name (String.concat "/" (dirs ++ [file])) test_type
  = Ok (String.concat "/" (dirs ++ [test_type; node_name +:+ ".sql"])).
Proof.
  intros Hdirs Hfile Htype Hopen Hnode. unfold get_pseudo_test_path.
  rewrite split_path_concat; [|by eapply Forall_impl; [exact Hdirs|intros ? [? ?]]|done].
  rewrite removelast_last.
  assert (startswith_sep (node_name +:+ ".sql") = false) as Hsql.
  { destruct node_name; [done|]. exact Hnode. }
  destruct Hdirs as [|d ds [Hd Hne] Hds]; simpl app.
  - simpl. f_equal. by apply join_step_open.
  - unfold os_path_join. f_equal.
    change (ds ++ [test_type; node_name +:+ ".sql"])
      with (ds ++ [test_type] ++ [node_name +:+ ".sql"]).
    rewrite app_assoc. rewrite fold_join_step; [by rewrite <- app_assoc| | |done].
    + by apply sep_free_open.
    + apply Forall_app. split; [|by apply Forall_singleton].
      eapply Forall_impl; [exact Hds|]. intros s [? ?]. by apply sep_free_open.
Qed.

Lemma get_pseudo_test_path_in_dir_witness :
  get_pseudo_test_path "unique_id" "models/staging/schema.yml" "schema_test"
  = Ok "models/staging/schema_test/unique_id.sql".
Proof.
  apply (get_pseudo_test_path_in_dir "unique_id" ["models"; "staging"] "schema.yml"
           "schema_test").
  - by repeat constructor.
  - reflexivity.
  - reflexivity.
  - by split.
  - reflexivity.
Defined.

Lemma join_step_empty b : join_step EmptyString b = b.
Proof. unfold join_step. by destruct (startswith_sep b). Qed.

(** A separator at the start of the source path is lost: the pseudo path
    of a test for an absolute source path is the one for the same path
    made relative.  The pseudo path of a hook is under [hooks], unless
    the hook name starts with a separator: the name then replaces the
    directory. *)
Theorem pseudo_paths_lose_root node_name source_path test_type hook_name :
  get_pseudo_test_path node_name (String os_sep source_path) test_type
  = get_pseudo_test_path node_name source_path test_type
  /\ get_pseudo_hook_path hook_name
     = Ok (if startswith_sep hook_name then hook_name +:+ ".sql"
           else "hooks/" +:+ hook_name +:+ ".sql").
Proof.
  split.
  - unfold get_pseudo_test_path, split_path. simpl split_on.
    rewrite ?Ascii.eqb_refl.
    pose proof (split_on_not_nil os_sep source_path) as Hne.
    destruct (split_on os_sep source_path) as [|x l] eqn:E; [done|].
    assert (removelast (EmptyString :: x :: l) = EmptyString :: removelast (x :: l))
      as -> by reflexivity.
    rewrite <- app_comm_cons. generalize (removelast (x :: l)). intros parts.
    destruct (parts ++ [test_type; node_name +:+ ".sql"]) as [|a p] eqn:Ep;
      [by destruct parts|].
    cbn [fold_left os_path_join]. by rewrite join_step_empty.
  - unfold get_pseudo_hook_path, os_path_join. simpl. unfold join_step.
    assert (startswith_sep (hook_name +:+ ".sql") = startswith_sep hook_name) as ->.
    { by destruct hook_name. }
    by destruct (startswith_sep hook_name).
Qed.
